(** * Layered trie-node store (trie/snap_*.go, trie/nodeset.go)

    A shallow embedding of the layered snapshot tree of the path-based trie
    database: dirty node sets and their tip nodes, the state-history index
    builder, disk and diff layers with their staleness flags, and the layer
    tree with its flatten-and-commit ("cap") algorithm.

    Layers are Go pointers that are shared between the layer tree, the
    parent links of diff layers and the callers holding a reader, and they are
    mutated in place ([stale], [parent]).  They are therefore kept in an
    explicit store of layer objects addressed by references.  Everything the
    source calls without defining it (the key-value store, the freezers, the
    clean and dirty caches, the node codec) is an interface, see [Backend] and
    [Codec]. *)

From Stdlib Require Import ZArith Lia.
From Stdlib Require Strings.String Strings.Ascii.
From stdpp Require Import base option list gmap strings sorting.

Set Warnings "-register-all".
Local Open Scope Z_scope.

(** ** Basic data *)

(** [common.Hash] is a 32-byte array; it is read here as the 256-bit
    big-endian integer it denotes, [common.Hash{}] being [0]. *)
Definition Hash : Type := Z.
Definition zeroHash : Hash := 0.

(** [[]byte] *)
Abbreviation bytes := (list Byte.byte).

(** The error values of the package.  [errUnexpectedNode] is wrapped by
    [fmt.Errorf] together with the two hashes, the owner and the path;
    [errorString] stands for [errors.New] / [fmt.Errorf] without a wrapped
    sentinel, [errBackend] for an error handed up from the key-value store or
    a freezer. *)
Inductive error : Type :=
| errSnapshotStale
| errUnmatchedReverseDiff
| errStateUnrecoverable
| errUnexpectedNode (has want owner : Hash) (path : string)
| errorString (msg : string)
| errBackend (code : Z).

(** ** Effects

    A Go function that mutates shared state and returns an [error] is a
    state transformer with four outcomes: normal return, return with a
    non-nil error (the mutations made so far stay), a panic ([panic],
    [log.Crit], a runtime error such as an index out of range), and, for the
    recursions over the layer store, running out of fuel. *)
Inductive outcome (S A : Type) : Type :=
| Ret (a : A) (s : S)
| Fail (e : error) (s : S)
| Crash (msg : string)
| Timeout.
Arguments Ret {S A} a s.
Arguments Fail {S A} e s.
Arguments Crash {S A} msg.
Arguments Timeout {S A}.

Definition M (S A : Type) : Type := S → outcome S A.

Definition ret {S A} (a : A) : M S A := λ s, Ret a s.
Definition fail {S A} (e : error) : M S A := λ s, Fail e s.
Definition panic {S A} (msg : string) : M S A := λ _, Crash msg.
Definition timeout {S A} : M S A := λ _, Timeout.
Definition bind {S A B} (c : M S A) (k : A → M S B) : M S B :=
  λ s, match c s with
       | Ret a s' => k a s'
       | Fail e s' => Fail e s'
       | Crash msg => Crash msg
       | Timeout => Timeout
       end.
Definition get {S} : M S S := λ s, Ret s s.
Definition put {S} (s : S) : M S unit := λ _, Ret tt s.
Definition modify {S} (f : S → S) : M S unit := λ s, Ret tt (f s).

Notation "'let*' x := c 'in' k" := (bind c (λ x, k))
  (at level 10, x pattern, c at level 200, k at level 200, only parsing).
Notation "c ;;; k" := (bind c (λ _, k))
  (at level 100, k at level 200, right associativity, only parsing).

(** A value, or the panic that ended the computation. *)
Inductive panics (A : Type) : Type :=
| Value (a : A)
| Panics (msg : string).
Arguments Value {A} a.
Arguments Panics {A} msg.

(** ** Trie nodes and dirty node sets (trie/nodeset.go) *)

(** The [node] interface with its implementations; [nilNode] is the nil
    interface value.  A [fullNode] has 17 children. *)
Inductive node : Type :=
| nilNode
| shortNode (Key : bytes) (Val : node)
| fullNode (Children : list node)
| hashNode (h : bytes)
| valueNode (v : bytes)
| rawNode (blob : bytes).

(** [memoryNode]: [size] is a uint16. *)
Record memoryNode : Type := mkMemoryNode {
  mn_hash : Hash;
  mn_size : Z;
  mn_node : node;
}.

(** [&memoryNode{}], the node stored by [markDeleted]. *)
Definition emptyMemoryNode : memoryNode :=
  {| mn_hash := zeroHash; mn_size := 0; mn_node := nilNode |}.

(** [memoryNode.isDeleted] *)
Definition isDeleted (n : memoryNode) : bool := bool_decide (mn_hash n = zeroHash).

(** [nodeWithPrev]: the embedded [*memoryNode] and the previous value. *)
Record nodeWithPrev : Type := mkNodeWithPrev {
  nwp_node : memoryNode;
  nwp_prev : bytes;
}.

(** [nodeWithPrev.unwrap] *)
Definition unwrap (n : nodeWithPrev) : memoryNode := nwp_node n.

(** [NodeSet.markUpdated] and [NodeSet.markDeleted] on the [nodes] map. *)
Definition markUpdated (path : string) (n : memoryNode) (prev : bytes)
    (nodes : gmap string nodeWithPrev) : gmap string nodeWithPrev :=
  <[path := {| nwp_node := n; nwp_prev := prev |}]> nodes.

Definition markDeleted (path : string) (prev : bytes)
    (nodes : gmap string nodeWithPrev) : gmap string nodeWithPrev :=
  <[path := {| nwp_node := emptyMemoryNode; nwp_prev := prev |}]> nodes.

(** Go compares strings bytewise, in lexicographic order. *)
Definition path_le (a b : string) : Prop := Stdlib.Strings.String.leb a b = true.
Definition path_lt (a b : string) : Prop := Stdlib.Strings.String.ltb a b = true.

Definition path_le_dec (a b : string) : Decision (path_le a b) :=
  decide (Stdlib.Strings.String.leb a b = true).
#[global] Existing Instance path_le_dec.

(** [strings.HasPrefix(s, prefix)] *)
Definition HasPrefix (s pre : string) : bool := Stdlib.Strings.String.prefix pre s.

(** The keys of the map, collected in the (unspecified) iteration order of the
    map and then sorted: [paths.Sort()]. *)
Definition sortedPaths (nodes : gmap string nodeWithPrev) : list string :=
  merge_sort path_le (map fst (map_to_list nodes)).

(** One turn of the loop of [forEachTipNode] over the sorted paths; the loop
    state is [(stack, tips)]. *)
Definition tipStep (st : list string * list string) (path : string)
    : list string * list string :=
  let '(stack, tips) := st in
  let stack := stack ++ [path] in
  match stack with
  | prev :: cur :: _ =>
      let tips := if negb (HasPrefix cur prev) then tips ++ [prev] else tips in
      (tail stack, tips)
  | _ => (stack, tips)
  end.

(** The [tips] slice when the loop and the [len(stack) == 1] test after it
    are done. *)
Definition tipPathsOf (paths : list string) : list string :=
  let '(stack, tips) := fold_left tipStep paths ([], []) in
  match stack with
  | [last] => tips ++ [last]
  | _ => tips
  end.

Definition tipPaths (nodes : gmap string nodeWithPrev) : list string :=
  tipPathsOf (sortedPaths nodes).

(** The final loop of [forEachTipNode]: the callback receives the path and
    the pointer [nodes[path]] (nil when the path is not a key) and the first
    error ends the iteration. *)
Fixpoint forEachTips {S} (nodes : gmap string nodeWithPrev)
    (callback : string → option nodeWithPrev → M S unit)
    (tips : list string) : M S unit :=
  match tips with
  | [] => ret tt
  | path :: rest =>
      callback path (nodes !! path) ;;;
      forEachTips nodes callback rest
  end.

(** [forEachTipNode] *)
Definition forEachTipNode {S} (nodes : gmap string nodeWithPrev)
    (callback : string → option nodeWithPrev → M S unit) : M S unit :=
  forEachTips nodes callback (tipPaths nodes).

(** A callback instrumented with the list of the paths it was invoked on. *)
Definition traced {S} (callback : string → option nodeWithPrev → M S unit)
    (path : string) (n : option nodeWithPrev) : M (S * list string) unit :=
  λ '(s, log),
    match callback path n s with
    | Ret a s' => Ret a (s', log ++ [path])
    | Fail e s' => Fail e (s', log ++ [path])
    | Crash msg => Crash msg
    | Timeout => Timeout
    end.

(** The paths a traced run has invoked the callback on, when it returned. *)
Definition invoked {S A} (o : outcome (S * list string) A) : option (list string) :=
  match o with
  | Ret _ (_, log) | Fail _ (_, log) => Some log
  | _ => None
  end.

(** The claim's words: a path is a strict prefix of another one, and a tip
    node is a node of the set whose path is a strict prefix of no other path
    of the set. *)
Definition strictPrefix (p q : string) : Prop :=
  Stdlib.Strings.String.prefix p q = true ∧ p ≠ q.

Definition isTipNode (nodes : gmap string nodeWithPrev) (p : string) : Prop :=
  is_Some (nodes !! p) ∧ ∀ q, is_Some (nodes !! q) → ¬ strictPrefix p q.

(** The tips read off a sorted list of paths directly: a path is dropped
    exactly when its successor extends it.  (Used to reason about the loop.) *)
Fixpoint adjTips (l : list string) : list string :=
  match l with
  | [] => []
  | x :: tl =>
      match tl with
      | [] => [x]
      | y :: _ => if HasPrefix y x then adjTips tl else x :: adjTips tl
      end
  end.

(** ** The node codec

    The functions and the constant of the trie package and of [common] /
    [crypto] that the files modelled here use and do not define.  The
    functions that can panic return an option. *)
Class Codec : Type := {
  (** [emptyRoot], the fixed root hash of an empty trie *)
  emptyRoot : Hash;
  (** [crypto.Keccak256] *)
  Keccak256 : bytes → bytes;
  (** [mustDecodeNodeUnsafe(hash, blob)]; [None] is its panic. *)
  mustDecodeNodeUnsafe : bytes → bytes → option node;
  (** [mustDecodeNode(hash, blob)]; [None] is its panic. *)
  mustDecodeNode : Hash → bytes → option node;
  (** [expandNode(hash, n)] *)
  expandNode : Hash → node → node;
  (** [nodeToBytes(n)] *)
  nodeToBytes : node → bytes;
  (** [hasTerm(key)] *)
  hasTerm : bytes → bool;
  (** [hexToKeybytes(hex)]; [None] is its panic. *)
  hexToKeybytes : bytes → option bytes;
  (** [common.BytesToHash] *)
  BytesToHash : bytes → Hash;
  (** [Hash.Bytes] *)
  HashBytes : Hash → bytes;
}.

Section codec.
Context `{Codec}.

(** [memoryNode.rlp].  [nodeToBytes] calls the [encode] method of the node
    it is given, which is a nil dereference for the nil node (the node of a
    deleted [memoryNode]). *)
Definition rlp (n : memoryNode) : panics bytes :=
  match mn_node n with
  | rawNode blob => Value blob
  | nilNode => Panics "invalid memory address or nil pointer dereference"
  | other => Value (nodeToBytes other)
  end.

(** [memoryNode.obj].  [mustDecodeNode] panics on a blob it cannot decode,
    and [expandNode] on the nil node, which is none of the node types it
    knows. *)
Definition obj (n : memoryNode) : panics node :=
  match mn_node n with
  | rawNode blob =>
      match mustDecodeNode (mn_hash n) blob with
      | Some o => Value o
      | None => Panics "mustDecodeNode"
      end
  | nilNode => Panics "unknown node type: <nil>"
  | other => Value (expandNode (mn_hash n) other)
  end.

(** Run a computation and drop the error it returns, as a call statement
    whose result is not used does. *)
Definition ignoreErr {S} (c : M S unit) : M S unit :=
  λ s, match c s with
       | Fail _ s' => Ret tt s'
       | o => o
       end.

(** [byte(i)] for a small index. *)
Definition byteOfZ (i : Z) : Byte.byte :=
  default Byte.x00 (Byte.of_N (Z.to_N (i mod 256))).

(** [resolve]: the callback has no result and only updates the state it has
    captured.  The loop runs over [nn.Children[:16]]; the errors of the
    recursive calls are not looked at. *)
Fixpoint resolve {S} (callback : bytes → bytes → S → S) (pre : bytes) (n : node)
    {struct n} : M S unit :=
  match n with
  | shortNode key val =>
      if negb (hasTerm key) then fail (errorString "invalid tipnode")
      else
        let path := pre ++ key in
        match hexToKeybytes path, val with
        | Some k, valueNode v => modify (callback k v)
        | None, _ => panic "can't convert hex key of odd length"
        | Some _, _ => panic "interface conversion: node is not valueNode"
        end
  | fullNode children =>
      (fix loop (i : Z) (cs : list node) {struct cs} : M S unit :=
         match cs with
         | [] => ret tt
         | cn :: cs' =>
             if 16 <=? i then ret tt
             else
               (match cn with
                | nilNode => ret tt
                | _ => ignoreErr (resolve callback (pre ++ [byteOfZ i]) cn)
                end) ;;;
               loop (i + 1) cs'
         end) 0 children
  | _ => ret tt
  end.

(** [resolvePrevLeaves] *)
Definition resolvePrevLeaves {S} (nodes : gmap string nodeWithPrev)
    (callback : bytes → bytes → S → S) : M S unit :=
  forEachTipNode nodes (λ pre tip,
    match tip with
    | None => panic "nil pointer dereference"
    | Some tip =>
        if bool_decide (length (nwp_prev tip) = 0%nat) then ret tt
        else
          match mustDecodeNodeUnsafe (Keccak256 (nwp_prev tip)) (nwp_prev tip) with
          | None => panic "mustDecodeNodeUnsafe"
          | Some n => resolve callback (Stdlib.Strings.String.list_byte_of_string pre) n
          end
    end).

(** ** State history (the index builder in its two revisions) *)

(** uint32 arithmetic *)
Definition u32 (z : Z) : Z := z mod 2 ^ 32.
Definition lenU32 {A} (l : list A) : Z := u32 (Z.of_nat (length l)).

(** [elementHistory] in the first revision, [stateHistory] in the second:
    a key and the value before the change. *)
Record elementHistory : Type := mkElement {
  Key : bytes;
  Prev : bytes;
}.

(** [accountIndex] / [accountMetadata] *)
Record accountIndex : Type := mkAccountIndex {
  ai_Hash : Hash;
  ai_Offset : Z;
  ai_Length : Z;
  ai_SlotOffset : Z;
  ai_SlotNumber : Z;
}.

(** [slotIndex] / [storageMetadata] *)
Record slotIndex : Type := mkSlotIndex {
  si_Hash : Hash;
  si_Offset : Z;
  si_Length : Z;
}.

(** [newSlotIndex] / [newStorageMetadata]: the two revisions agree. *)
Fixpoint slotLoop (slots : list elementHistory)
    (acc : list slotIndex * bytes * Z) : list slotIndex * bytes * Z :=
  match slots with
  | [] => acc
  | slot :: rest =>
      let '(indexes, data, offset) := acc in
      let index := {| si_Hash := BytesToHash (Key slot);
                      si_Offset := offset;
                      si_Length := lenU32 (Prev slot) |} in
      slotLoop rest (indexes ++ [index], data ++ Prev slot,
                     u32 (offset + lenU32 (Prev slot)))
  end.

Definition newSlotIndex (offset : Z) (slots : list elementHistory)
    : list slotIndex * bytes * Z :=
  slotLoop slots ([], [], offset).

(** [newAccountIndex] of the first revision, which also returns the next
    account offset. *)
Definition newAccountIndexV1 (element : elementHistory) (accountOffset : Z)
    (slotIndexes : list slotIndex) (slotOffset : Z) : accountIndex * Z :=
  ({| ai_Hash := BytesToHash (Key element);
      ai_Offset := accountOffset;
      ai_Length := lenU32 (Prev element);
      ai_SlotOffset := slotOffset;
      ai_SlotNumber := lenU32 slotIndexes |},
   u32 (accountOffset + lenU32 (Prev element))).

(** [newAccountIndex] of the second revision. *)
Definition newAccountIndex (element : elementHistory) (accountOffset : Z)
    (slotIndexes : list slotIndex) (slotOffset : Z) : accountIndex :=
  {| ai_Hash := BytesToHash (Key element);
     ai_Offset := accountOffset;
     ai_Length := lenU32 (Prev element);
     ai_SlotOffset := slotOffset;
     ai_SlotNumber := lenU32 slotIndexes |}.

(** The previous leaves of one owner: the body of the first loop of
    [newStateHistory].  The closure appends to [elements]; the error of
    [resolvePrevLeaves] is not looked at. *)
Definition prevLeaves (subset : gmap string nodeWithPrev) : panics (list elementHistory) :=
  match resolvePrevLeaves subset
          (λ path blob elements, elements ++ [{| Key := path; Prev := blob |}]) [] with
  | Ret _ elements | Fail _ elements => Value elements
  | Crash msg => Panics msg
  | Timeout => Panics "unreachable"
  end.

(** The first loop over the owners.  The map [leaves] it fills does not
    depend on the order in which the owners are visited; a panic for one
    owner is a panic of the loop. *)
Fixpoint leavesLoop (owners : list (Hash * gmap string nodeWithPrev))
    (leaves : gmap Hash (list elementHistory)) : panics (gmap Hash (list elementHistory)) :=
  match owners with
  | [] => Value leaves
  | (owner, subset) :: rest =>
      match prevLeaves subset with
      | Value elements => leavesLoop rest (<[owner := elements]> leaves)
      | Panics msg => Panics msg
      end
  end.

Definition collectLeaves (nodes : gmap Hash (gmap string nodeWithPrev))
    : panics (gmap Hash (list elementHistory)) :=
  leavesLoop (map_to_list nodes) ∅.

(** The four results of [newStateHistory]. *)
Record historyBlobs : Type := mkHistory {
  hb_accountIndexes : list accountIndex;
  hb_slotIndexes : list slotIndex;
  hb_accountData : bytes;
  hb_slotData : bytes;
}.

(** The loop state of the second loop. *)
Record historyAcc : Type := mkHistoryAcc {
  ha_out : historyBlobs;
  ha_accountOffset : Z;
  ha_accountSlotOff : Z;
  ha_slotOffset : Z;
}.

Definition historyAcc0 : historyAcc :=
  {| ha_out := mkHistory [] [] [] [];
     ha_accountOffset := 0; ha_accountSlotOff := 0; ha_slotOffset := 0 |}.

(** First revision of [newStateHistory].  [accounts] holds the key hashes of
    the account-trie leaves; the second loop reads [leaves[account][i]] with
    the position [i] of the account in [accounts], which is a runtime panic
    when the slice [leaves[account]] is not longer than [i]. *)
Fixpoint accountsLoopV1 (leaves : gmap Hash (list elementHistory))
    (i : nat) (accounts : list Hash) (acc : historyAcc) : panics historyBlobs :=
  match accounts with
  | [] => Value (ha_out acc)
  | account :: rest =>
      let slots := default [] (leaves !! account) in
      let '(sindexes, sdata, soffset) := newSlotIndex (ha_slotOffset acc) slots in
      match default [] (leaves !! account) !! i with
      | None => Panics "index out of range"
      | Some element =>
          let '(aIndex, aoffset) :=
            newAccountIndexV1 element (ha_accountOffset acc) sindexes (lenU32 sindexes) in
          let out := ha_out acc in
          accountsLoopV1 leaves (S i) rest
            {| ha_out := {| hb_accountIndexes := hb_accountIndexes out ++ [aIndex];
                            hb_slotIndexes := hb_slotIndexes out ++ sindexes;
                            hb_accountData := hb_accountData out ++ Prev element;
                            hb_slotData := hb_slotData out ++ sdata |};
               ha_accountOffset := aoffset;
               ha_accountSlotOff := ha_accountSlotOff acc;
               ha_slotOffset := soffset |}
      end
  end.

Definition newStateHistoryV1 (nodes : gmap Hash (gmap string nodeWithPrev))
    : panics historyBlobs :=
  match collectLeaves nodes with
  | Panics msg => Panics msg
  | Value leaves =>
      let accounts :=
        map (λ element, BytesToHash (Key element)) (default [] (leaves !! zeroHash)) in
      accountsLoopV1 leaves 0 accounts historyAcc0
  end.

(** Second revision of [newStateHistory]. *)
Fixpoint accountsLoop (leaves : gmap Hash (list elementHistory))
    (elements : list elementHistory) (acc : historyAcc) : historyBlobs :=
  match elements with
  | [] => ha_out acc
  | element :: rest =>
      let accountHash := BytesToHash (Key element) in
      let slots := default [] (leaves !! accountHash) in
      let '(sMeta, sdata, soffset) := newSlotIndex (ha_slotOffset acc) slots in
      let aMeta := newAccountIndex element (ha_accountOffset acc) sMeta
                     (ha_accountSlotOff acc) in
      let out := ha_out acc in
      accountsLoop leaves rest
        {| ha_out := {| hb_accountIndexes := hb_accountIndexes out ++ [aMeta];
                        hb_slotIndexes := hb_slotIndexes out ++ sMeta;
                        hb_accountData := hb_accountData out ++ Prev element;
                        hb_slotData := hb_slotData out ++ sdata |};
           ha_accountOffset := u32 (ha_accountOffset acc + lenU32 (Prev element));
           ha_accountSlotOff := u32 (ha_accountSlotOff acc + lenU32 sMeta);
           ha_slotOffset := soffset |}
  end.

Definition newStateHistory (nodes : gmap Hash (gmap string nodeWithPrev))
    : panics historyBlobs :=
  match collectLeaves nodes with
  | Panics msg => Panics msg
  | Value leaves =>
      Value (accountsLoop leaves (default [] (leaves !! zeroHash)) historyAcc0)
  end.

(** [binary.BigEndian.PutUint32] *)
Definition putUint32 (v : Z) : bytes :=
  [byteOfZ (Z.shiftr v 24); byteOfZ (Z.shiftr v 16); byteOfZ (Z.shiftr v 8); byteOfZ v].

(** [accountIndexes.encode] and [slotIndexes.encode] of the second revision. *)
Definition encodeAccountIndexes (indexes : list accountIndex) : bytes :=
  concat (map (λ index,
    HashBytes (ai_Hash index) ++ putUint32 (ai_Offset index) ++
    putUint32 (ai_Length index) ++ putUint32 (ai_SlotOffset index) ++
    putUint32 (ai_SlotNumber index)) indexes).

Definition encodeSlotIndexes (indexes : list slotIndex) : bytes :=
  concat (map (λ index,
    HashBytes (si_Hash index) ++ putUint32 (si_Offset index) ++
    putUint32 (si_Length index)) indexes).

End codec.

(** ** The world outside: key-value store, freezers, caches *)

(** uint64 and uint16 arithmetic *)
Definition u64 (z : Z) : Z := z mod 2 ^ 64.
Definition u16 (z : Z) : Z := z mod 2 ^ 16.

(** Modelled from the spec: the reverse-diff record ([version], [parent],
    [root] and, per owner, the list of [(key, prev)] items), whose type
    [reverseDiff] is declared outside the files modelled here. *)
Record reverseDiff : Type := mkReverseDiff {
  rd_Version : Z;
  rd_Parent : Hash;
  rd_Root : Hash;
  rd_States : list (Hash * list (bytes * bytes));
}.

(** What the layers call and the files modelled here do not define.  [World]
    is the state of all of it: the contents of the key-value store, of the
    freezers, of the clean cache and of the [diskcache] objects; [Database],
    [Cache], [diskcache] and [Freezer] are the (non-nil) pointers the layers
    hold.  An operation that returns an [error] in Go may [Fail]. *)
Class Backend : Type := {
  World : Type;
  Database : Type;
  Cache : Type;
  diskcache : Type;
  Freezer : Type;
  (** [memoryNodeSize], the platform's size of a [memoryNode] *)
  memoryNodeSize : Z;
  (** [diskcache.node(owner, path, hash)] *)
  dirty_node : diskcache → Hash → string → Hash → M World (option memoryNode);
  (** [diskcache.commit(nodes)] *)
  dirty_commit : diskcache → gmap Hash (gmap string memoryNode) → M World diskcache;
  (** [diskcache.mayFlush(diskdb, clean, diffid, force)] *)
  dirty_mayFlush : diskcache → Database → option Cache → Z → bool → M World unit;
  (** [diskcache.empty()] *)
  dirty_empty : diskcache → World → bool;
  (** [diskcache.revert(diff)] *)
  dirty_revert : diskcache → reverseDiff → M World unit;
  (** [diskcache.setSize(size, diskdb, clean, diffid)] *)
  dirty_setSize : diskcache → Z → Database → option Cache → Z → M World unit;
  (** [diskcache.size] *)
  dirty_size : diskcache → World → Z;
  (** [fastcache.Cache.Get(nil, key)] and [Set(key, blob)] *)
  clean_Get : Cache → bytes → World → bytes;
  clean_Set : Cache → bytes → bytes → World → World;
  (** [rawdb.ReadAccountTrieNode] and [rawdb.ReadStorageTrieNode]: the blob
      and its hash *)
  ReadAccountTrieNode : Database → string → World → bytes * Hash;
  ReadStorageTrieNode : Database → Hash → string → World → bytes * Hash;
  (** [batch := diskdb.NewBatch(); diff.apply(batch);
      rawdb.WriteReverseDiffHead(batch, id); batch.Write()] with the error of
      [batch.Write] *)
  writeRevertBatch : Database → reverseDiff → Z → M World unit;
  (** [storeReverseDiff(freezer, bottom, statelimit)], given what it reads of
      the diff layer: the root of the layer's parent if that is a disk layer
      (the function is for the bottom-most diff layer), then root, id and
      nodes of the layer itself *)
  storeReverseDiff : Freezer → option Hash → Hash → Z →
                     gmap Hash (gmap string nodeWithPrev) → Z → M World unit;
  (** [rawdb.WriteStateHistory(freezer, id, ...)], which returns nothing *)
  WriteStateHistory : Freezer → Z → bytes → bytes → bytes → bytes → World → World;
}.

(** ** Layers (trie/snap_disklayer.go, the diff layer file) *)

(** A [snapshot] value is a pointer to a layer object: an address in the
    store of layers. *)
Abbreviation ref := nat.

(** The state of the removal at the end of [cap]: the [layers] map of the
    tree and the [children] index. *)
Abbreviation removal := (gmap Hash ref * gmap Hash (list Hash))%type.

Section layers.
Context `{Codec} `{Backend}.

(** [diskLayer]; the lock is not modelled, the calls are run one at a time. *)
Record diskLayer : Type := mkDiskLayer {
  dl_root : Hash;
  dl_diffid : Z;
  dl_diskdb : Database;
  dl_clean : option Cache;
  dl_dirty : diskcache;
  dl_stale : bool;
}.

(** [diffLayer] *)
Record diffLayer : Type := mkDiffLayer {
  df_root : Hash;
  df_diffid : Z;
  df_nodes : gmap Hash (gmap string nodeWithPrev);
  df_memory : Z;
  df_parent : ref;
  df_stale : bool;
}.

(** The implementations of [snapshot] that are defined in the files modelled
    here.  ([diskLayerSnapshot], the read-only disk layer, is declared
    elsewhere and no layer of that type is ever created here.) *)
Inductive layer : Type :=
| DiskLayer (dl : diskLayer)
| DiffLayer (df : diffLayer).

(** The program state: the world outside, the store of layer objects, and the
    [layers] map of the one [layerTree]. *)
Record State : Type := mkState {
  world : World;
  heap : list layer;
  tree : gmap Hash ref;
}.

Definition setWorld (st : State) (w : World) : State :=
  {| world := w; heap := heap st; tree := tree st |}.
Definition setHeap (st : State) (h : list layer) : State :=
  {| world := world st; heap := h; tree := tree st |}.
Definition setTree (st : State) (t : gmap Hash ref) : State :=
  {| world := world st; heap := heap st; tree := t |}.

(** Run an operation of the backend in the program state. *)
Definition liftW {A} (c : M World A) : M State A :=
  λ st, match c (world st) with
        | Ret a w => Ret a (setWorld st w)
        | Fail e w => Fail e (setWorld st w)
        | Crash msg => Crash msg
        | Timeout => Timeout
        end.

(** Dereference, allocate, assign. *)
Definition readLayer (r : ref) : M State layer :=
  λ st, match heap st !! r with
        | Some l => Ret l st
        | None => Crash "nil pointer dereference"
        end.

Definition alloc (l : layer) : M State ref :=
  λ st, Ret (length (heap st)) (setHeap st (heap st ++ [l])).

Definition writeLayer (r : ref) (l : layer) : M State unit :=
  λ st, Ret tt (setHeap st (<[r := l]> (heap st))).

(** [newDiskLayer] *)
Definition newDiskLayer (root : Hash) (diffid : Z) (clean : option Cache)
    (dirty : diskcache) (diskdb : Database) : diskLayer :=
  {| dl_root := root; dl_diffid := diffid; dl_diskdb := diskdb;
     dl_clean := clean; dl_dirty := dirty; dl_stale := false |}.

(** [Root], [ID], [Stale] and [Parent] of the [snapshot] interface.
    [Parent] of a disk layer is nil. *)
Definition layerRoot (l : layer) : Hash :=
  match l with DiskLayer dl => dl_root dl | DiffLayer df => df_root df end.
Definition layerID (l : layer) : Z :=
  match l with DiskLayer dl => dl_diffid dl | DiffLayer df => df_diffid df end.
Definition layerStale (l : layer) : bool :=
  match l with DiskLayer dl => dl_stale dl | DiffLayer df => df_stale df end.
Definition layerParent (l : layer) : option ref :=
  match l with DiskLayer _ => None | DiffLayer df => Some (df_parent df) end.

Definition Root (r : ref) : M State Hash := let* l := readLayer r in ret (layerRoot l).
Definition ID (r : ref) : M State Z := let* l := readLayer r in ret (layerID l).
Definition Stale (r : ref) : M State bool := let* l := readLayer r in ret (layerStale l).
Definition Parent (r : ref) : M State (option ref) :=
  let* l := readLayer r in ret (layerParent l).

(** [diskLayer.MarkStale] and [diffLayer.MarkStale] *)
Definition MarkStale (r : ref) : M State unit :=
  let* l := readLayer r in
  match l with
  | DiskLayer dl =>
      if dl_stale dl then panic "triedb disk layer is stale"
      else writeLayer r (DiskLayer
             {| dl_root := dl_root dl; dl_diffid := dl_diffid dl;
                dl_diskdb := dl_diskdb dl; dl_clean := dl_clean dl;
                dl_dirty := dl_dirty dl; dl_stale := true |})
  | DiffLayer df =>
      if df_stale df then panic "triedb diff layer is stale"
      else writeLayer r (DiffLayer
             {| df_root := df_root df; df_diffid := df_diffid df;
                df_nodes := df_nodes df; df_memory := df_memory df;
                df_parent := df_parent df; df_stale := true |})
  end.

(** The assignments [dl.stale = true] and [dl.parent = result]. *)
Definition staleDisk (dl : diskLayer) : diskLayer :=
  {| dl_root := dl_root dl; dl_diffid := dl_diffid dl; dl_diskdb := dl_diskdb dl;
     dl_clean := dl_clean dl; dl_dirty := dl_dirty dl; dl_stale := true |}.

Definition withParent (df : diffLayer) (parent : ref) : diffLayer :=
  {| df_root := df_root df; df_diffid := df_diffid df; df_nodes := df_nodes df;
     df_memory := df_memory df; df_parent := parent; df_stale := df_stale df |}.

Definition setParent (r : ref) (parent : ref) : M State unit :=
  let* l := readLayer r in
  match l with
  | DiffLayer df => writeLayer r (DiffLayer (withParent df parent))
  | DiskLayer _ => panic "not a diff layer"
  end.

(** The read from the key-value store in [diskLayer.node]: the account trie
    for the zero owner, a storage trie otherwise. *)
Definition diskRead (dl : diskLayer) (owner : Hash) (path : string) (w : World)
    : bytes * Hash :=
  if bool_decide (owner = zeroHash)
  then ReadAccountTrieNode (dl_diskdb dl) path w
  else ReadStorageTrieNode (dl_diskdb dl) owner path w.

(** The clean cache, if there is one, has nothing under the hash. *)
Definition cleanMiss (dl : diskLayer) (hash : Hash) (w : World) : Prop :=
  match dl_clean dl with
  | Some clean => clean_Get clean (HashBytes hash) w = []
  | None => True
  end.

(** [diskLayer.node]: the stale check, then the dirty cache, the clean cache
    and the key-value store. *)
Definition diskLayer_node (dl : diskLayer) (owner : Hash) (path : string)
    (hash : Hash) (depth : Z) : M World (option memoryNode) :=
  if dl_stale dl then fail errSnapshotStale
  else
    let* n := dirty_node (dl_dirty dl) owner path hash in
    match n with
    | Some n => ret (Some n)
    | None =>
        let* w := get in
        let hit :=
          match dl_clean dl with
          | Some clean =>
              let blob := clean_Get clean (HashBytes hash) w in
              if bool_decide (0 < length blob)%nat then Some blob else None
          | None => None
          end in
        match hit with
        | Some blob =>
            ret (Some {| mn_node := rawNode blob; mn_hash := hash;
                         mn_size := u16 (Z.of_nat (length blob)) |})
        | None =>
            let '(nBlob, nHash) := diskRead dl owner path w in
            if bool_decide (nHash ≠ hash)
            then fail (errUnexpectedNode nHash hash owner path)
            else
              (match dl_clean dl with
               | Some clean =>
                   if bool_decide (0 < length nBlob)%nat
                   then modify (clean_Set clean (HashBytes hash) nBlob)
                   else ret tt
               | None => ret tt
               end) ;;;
              if bool_decide (length nBlob = 0%nat) then ret None
              else ret (Some {| mn_node := rawNode nBlob; mn_hash := hash;
                                mn_size := u16 (Z.of_nat (length nBlob)) |})
        end
    end.

(** [snapshot.node], dispatched on the layer: [diskLayer.node] above, or
    [diffLayer.node], which looks into its own nodes and then asks its
    parent.  The recursion follows the parent pointers; its fuel is set by
    [snapshot_node] below. *)
Fixpoint nodeFrom (fuel : nat) (r : ref) (owner : Hash) (path : string)
    (hash : Hash) (depth : Z) : M State (option memoryNode) :=
  match fuel with
  | O => timeout
  | S fuel' =>
      let* l := readLayer r in
      match l with
      | DiskLayer dl => liftW (diskLayer_node dl owner path hash depth)
      | DiffLayer df =>
          if df_stale df then fail errSnapshotStale
          else
            match df_nodes df !! owner ≫= (λ subset, subset !! path) with
            | Some n =>
                if bool_decide (mn_hash (nwp_node n) ≠ hash)
                then fail (errUnexpectedNode (mn_hash (nwp_node n)) hash owner path)
                else ret (Some (unwrap n))
            | None => nodeFrom fuel' (df_parent df) owner path hash (depth + 1)
            end
      end
  end.

(** A chain of parents without a cycle is shorter than the store. *)
Definition snapshot_node (r : ref) (owner : Hash) (path : string) (hash : Hash)
    (depth : Z) : M State (option memoryNode) :=
  λ st, nodeFrom (S (length (heap st))) r owner path hash depth st.

(** [Node] and [NodeBlob] of both layers; nil results are [nilNode] and the
    empty slice. *)
Definition Node (r : ref) (owner : Hash) (path : string) (hash : Hash) : M State node :=
  let* n := snapshot_node r owner path hash 0 in
  match n with
  | None => ret nilNode
  | Some n =>
      match obj n with
      | Value o => ret o
      | Panics msg => panic msg
      end
  end.

Definition NodeBlob (r : ref) (owner : Hash) (path : string) (hash : Hash) : M State bytes :=
  let* n := snapshot_node r owner path hash 0 in
  match n with
  | None => ret []
  | Some n =>
      match rlp n with
      | Value blob => ret blob
      | Panics msg => panic msg
      end
  end.

(** [nodeWithPrev.memorySize] and the sum [newDiffLayer] takes over all the
    nodes. *)
Definition memorySize (n : nodeWithPrev) (pathlen : nat) : Z :=
  mn_size (nwp_node n) + memoryNodeSize + Z.of_nat pathlen + Z.of_nat (length (nwp_prev n)).

Definition nodesMemory (nodes : gmap Hash (gmap string nodeWithPrev)) : Z :=
  map_fold (λ _ subset acc,
    map_fold (λ path n acc,
      u64 (acc + u64 (memorySize n (Stdlib.Strings.String.length path)))) acc subset)
    0 nodes.

(** [newDiffLayer] *)
Definition newDiffLayer (parent : ref) (root : Hash) (diffid : Z)
    (nodes : gmap Hash (gmap string nodeWithPrev)) : diffLayer :=
  {| df_root := root; df_diffid := diffid; df_nodes := nodes;
     df_memory := nodesMemory nodes; df_parent := parent; df_stale := false |}.

(** [diskLayer.Update] and [diffLayer.Update] *)
Definition Update (r : ref) (blockRoot : Hash) (id : Z)
    (nodes : gmap Hash (gmap string nodeWithPrev)) : M State ref :=
  alloc (DiffLayer (newDiffLayer r blockRoot id nodes)).

(** [storeStateHistory] (second revision): it returns nil whatever
    [rawdb.WriteStateHistory] did. *)
Definition storeStateHistory (freezer : Freezer) (df : diffLayer) : M World unit :=
  match newStateHistory (df_nodes df) with
  | Panics msg => panic msg
  | Value blobs =>
      modify (WriteStateHistory freezer (df_diffid df)
                (encodeAccountIndexes (hb_accountIndexes blobs))
                (encodeSlotIndexes (hb_slotIndexes blobs))
                (hb_accountData blobs) (hb_slotData blobs))
  end.

(** The root of the disk layer a diff layer sits on, if it sits on one. *)
Definition baseRoot (h : list layer) (df : diffLayer) : option Hash :=
  match h !! df_parent df with
  | Some (DiskLayer base) => Some (dl_root base)
  | _ => None
  end.

(** [diskLayer.commit]; [r] is the receiver, [bottom] the diff layer. *)
Definition commit (r : ref) (freezer stateHistory : option Freezer)
    (statelimit : Z) (bottom : ref) (force : bool) : M State ref :=
  let* l := readLayer r in
  match l with
  | DiffLayer _ => panic "not a disk layer"
  | DiskLayer dl =>
      writeLayer r (DiskLayer (staleDisk dl)) ;;;
      let* b := readLayer bottom in
      match b with
      | DiskLayer _ => panic "not a diff layer"
      | DiffLayer bottomdf =>
          (match freezer with
           | Some freezer =>
               let* st := get in
               liftW (storeReverseDiff freezer (baseRoot (heap st) bottomdf)
                        (df_root bottomdf) (df_diffid bottomdf) (df_nodes bottomdf)
                        statelimit)
           | None => ret tt
           end) ;;;
          (match stateHistory with
           | Some stateHistory => liftW (storeStateHistory stateHistory bottomdf)
           | None => ret tt
           end) ;;;
          let slim : gmap Hash (gmap string memoryNode) :=
            (λ subset : gmap string nodeWithPrev, unwrap <$> subset) <$> df_nodes bottomdf in
          let* dirty := liftW (dirty_commit (dl_dirty dl) slim) in
          let ndl := newDiskLayer (df_root bottomdf) (df_diffid bottomdf)
                       (dl_clean dl) dirty (dl_diskdb dl) in
          let* nr := alloc (DiskLayer ndl) in
          liftW (dirty_mayFlush (dl_dirty ndl) (dl_diskdb ndl) (dl_clean ndl)
                   (dl_diffid ndl) force) ;;;
          ret nr
      end
  end.

(** [diskLayer.revert] *)
Definition revert (r : ref) (diff : reverseDiff) (diffid : Z) : M State ref :=
  let* l := readLayer r in
  match l with
  | DiffLayer _ => panic "not a disk layer"
  | DiskLayer dl =>
      if bool_decide (rd_Root diff ≠ dl_root dl) then fail errUnmatchedReverseDiff
      else if bool_decide (diffid ≠ dl_diffid dl) then fail errUnmatchedReverseDiff
      else if bool_decide (dl_diffid dl = 0) then fail errStateUnrecoverable
      else
        writeLayer r (DiskLayer (staleDisk dl)) ;;;
        let* w := liftW get in
        (if dirty_empty (dl_dirty dl) w
         then
           λ st, match liftW (writeRevertBatch (dl_diskdb dl) diff (u64 (diffid - 1))) st with
                 | Fail _ _ => Crash "Failed to write reverse diff"
                 | o => o
                 end
         else liftW (dirty_revert (dl_dirty dl) diff)) ;;;
        alloc (DiskLayer (newDiskLayer (rd_Parent diff) (u64 (dl_diffid dl - 1))
                            (dl_clean dl) (dl_dirty dl) (dl_diskdb dl)))
  end.

(** [diskLayer.setCacheSize] and [diskLayer.size] *)
Definition setCacheSize (r : ref) (size : Z) : M State unit :=
  let* l := readLayer r in
  match l with
  | DiffLayer _ => panic "not a disk layer"
  | DiskLayer dl =>
      if dl_stale dl then fail errSnapshotStale
      else liftW (dirty_setSize (dl_dirty dl) size (dl_diskdb dl) (dl_clean dl) (dl_diffid dl))
  end.

Definition layerSize (dl : diskLayer) (w : World) : Z :=
  if dl_stale dl then 0 else dirty_size (dl_dirty dl) w.

(** [diffToDisk] *)
Definition diffToDisk (freezer stateHistory : option Freezer) (statelimit : Z)
    (bottom : ref) (force : bool) : M State ref :=
  let* b := readLayer bottom in
  match layerParent b with
  | None => panic "not a diff layer"
  | Some parent =>
      λ st, match heap st !! parent with
            | Some (DiskLayer _) => commit parent freezer stateHistory statelimit bottom force st
            | _ => Crash "unknown layer type"
            end
  end.

(** [diffLayer.persist]: the parents first, from the bottom up. *)
Fixpoint persistFrom (fuel : nat) (freezer stateHistory : option Freezer)
    (statelimit : Z) (r : ref) (force : bool) : M State ref :=
  match fuel with
  | O => timeout
  | S fuel' =>
      let* l := readLayer r in
      match layerParent l with
      | None => panic "not a diff layer"
      | Some parent =>
          (λ st, match heap st !! parent with
                 | Some (DiffLayer _) =>
                     (let* result := persistFrom fuel' freezer stateHistory
                                       statelimit parent force in
                      setParent r result) st
                 | _ => Ret tt st
                 end) ;;;
          diffToDisk freezer stateHistory statelimit r force
      end
  end.

Definition persist (freezer stateHistory : option Freezer) (statelimit : Z)
    (r : ref) (force : bool) : M State ref :=
  λ st, persistFrom (length (heap st)) freezer stateHistory statelimit r force st.

(** ** The layer tree *)

(** [convertEmpty] *)
Definition convertEmpty (hash : Hash) : Hash :=
  if bool_decide (hash = zeroHash) then emptyRoot else hash.

(** [layerTree.get]: the layer, or nil. *)
Definition treeGet (blockRoot : Hash) : M State (option ref) :=
  λ st, Ret (tree st !! convertEmpty blockRoot) st.

(** The assignment [tree.layers[root] = snap]. *)
Definition setLayer (root : Hash) (snap : ref) : M State unit :=
  λ st, Ret tt (setTree st (<[root := snap]> (tree st))).

(** [layerTree.len] *)
Definition treeLen (st : State) : nat := size (tree st).

(** [layerTree.add] *)
Definition add (root parentRoot : Hash)
    (nodes : gmap Hash (gmap string nodeWithPrev)) : M State unit :=
  let root := convertEmpty root in
  let parentRoot := convertEmpty parentRoot in
  if bool_decide (root = parentRoot) then fail (errorString "snapshot cycle")
  else
    let* parent := treeGet parentRoot in
    match parent with
    | None => fail (errorString "triedb parent snapshot missing")
    | Some parent =>
        let* id := ID parent in
        let* snap := Update parent root (u64 (id + 1)) nodes in
        let* snaproot := Root snap in
        setLayer snaproot snap
    end.

(** The loop of [cap] that walks down from the head: [None] when the stack of
    diff layers is too shallow. *)
Fixpoint dive (n : nat) (diff : ref) : M State (option ref) :=
  match n with
  | O => ret (Some diff)
  | S n' =>
      let* parent := Parent diff in
      λ st, match parent ≫= (λ p, heap st !! p) , parent with
            | Some (DiffLayer _), Some p => dive n' p st
            | _, _ => Ret None st
            end
  end.

(** The [children] index: for every diff layer of the tree, its root is
    filed under the root of its parent. *)
Fixpoint childrenLoop (h : list layer) (entries : list (Hash * ref))
    (children : gmap Hash (list Hash)) : panics (gmap Hash (list Hash)) :=
  match entries with
  | [] => Value children
  | (root, snap) :: rest =>
      match h !! snap with
      | Some (DiffLayer df) =>
          match h !! df_parent df with
          | Some pl =>
              let parent := layerRoot pl in
              childrenLoop h rest
                (<[parent := default [] (children !! parent) ++ [root]]> children)
          | None => Panics "nil pointer dereference"
          end
      | _ => childrenLoop h rest children
      end
  end.

Definition childrenIndex (h : list layer) (layers : gmap Hash ref)
    : panics (gmap Hash (list Hash)) :=
  childrenLoop h (map_to_list layers) ∅.

(** The loop [for _, child := range children[root] { remove(child) }] over
    the slice read before the loop, given the closure to call. *)
Fixpoint removeKids (remove : Hash → M removal unit) (kids : list Hash)
    : M removal unit :=
  match kids with
  | [] => ret tt
  | child :: rest => remove child ;;; removeKids remove rest
  end.

(** The closure [remove].  The recursion ends when the index has no cycle
    through [root]; the fuel bounds its depth. *)
Fixpoint removeFrom (fuel : nat) (root : Hash) : M removal unit :=
  match fuel with
  | O => timeout
  | S fuel' =>
      modify (λ st : removal, (delete root st.1, st.2)) ;;;
      let* st := get in
      removeKids (removeFrom fuel') (default [] (st.2 !! root)) ;;;
      modify (λ st : removal, (st.1, delete root st.2))
  end.

(** The last loop of [cap]: every entry that is still in the map when the
    loop reaches it and whose layer is stale is removed. *)
Fixpoint removeStale (fuel : nat) (h : list layer) (entries : list (Hash * ref))
    : M removal unit :=
  match entries with
  | [] => ret tt
  | (root, snap) :: rest =>
      let* st := get in
      (if bool_decide (is_Some (st.1 !! root)) then
         match h !! snap with
         | Some l => if layerStale l then removeFrom fuel root else ret tt
         | None => panic "nil pointer dereference"
         end
       else ret tt) ;;;
      removeStale fuel h rest
  end.

(** The last part of [cap]: "remove any layer that is stale or links into a
    stale layer".  The fuel is one more than the number of layers in the map:
    a deeper recursion of [remove] has met a root twice and does not end. *)
Definition dropStale : M State unit :=
  λ st,
    match childrenIndex (heap st) (tree st) with
    | Panics msg => Crash msg
    | Value children =>
        match removeStale (S (size (tree st))) (heap st)
                (map_to_list (tree st)) (tree st, children) with
        | Ret _ st' => Ret tt (setTree st st'.1)
        | Fail _ _ => Crash "unreachable: remove returns no error"
        | Crash msg => Crash msg
        | Timeout => Timeout
        end
    end.

(** [layerTree.cap] *)
Definition cap (root : Hash) (layers : Z) (freezer stateHistory : option Freezer)
    (statelimit : Z) : M State unit :=
  let root := convertEmpty root in
  let* snap := treeGet root in
  match snap with
  | None => fail (errorString "triedb snapshot missing")
  | Some snap =>
      let* l := readLayer snap in
      match l with
      | DiskLayer _ => fail (errorString "triedb snapshot is disk layer")
      | DiffLayer _ =>
          if bool_decide (layers = 0) then
            let* base := persist freezer stateHistory statelimit snap true in
            let* baseroot := Root base in
            λ st, Ret tt (setTree st {[ baseroot := base ]})
          else
            let* diff := dive (Z.to_nat (layers - 1)) snap in
            match diff with
            | None => ret tt
            | Some diff =>
                let* parent := Parent diff in
                let* pl := (match parent with
                            | Some p => readLayer p
                            | None => panic "unknown data layer in triedb"
                            end) in
                match pl, parent with
                | DiskLayer _, _ => ret tt
                | DiffLayer _, Some parent =>
                    let* base := persist freezer stateHistory statelimit parent false in
                    let* baseroot := Root base in
                    setLayer baseroot base ;;;
                    setParent diff base ;;;
                    dropStale
                | DiffLayer _, None => panic "unknown data layer in triedb"
                end
            end
      end
  end.

End layers.

(** ** Calls, runs and invariants of the layer store *)

(** A step of the removal at the end of [cap] only deletes entries of the
    [layers] map. *)
Definition shrinks {A} (c : M removal A) : Prop :=
  ∀ st, match c st with
        | Ret _ st' | Fail _ st' => st'.1 ⊆ st.1
        | _ => True
        end.


Section invariants.
Context `{Codec} `{Backend}.

(** The calls a client makes on the tree and on the layers it holds.
    [Update] of the database is [layerTree.add]; [Commit] is [cap] with
    [layers = 0]. *)
Inductive call : Type :=
| CallUpdate (root parentRoot : Hash) (nodes : gmap Hash (gmap string nodeWithPrev))
| CallCap (root : Hash) (layers : Z) (freezer stateHistory : option Freezer) (statelimit : Z)
| CallMarkStale (r : ref)
| CallRevert (r : ref) (diff : reverseDiff) (diffid : Z)
| CallNode (r : ref) (owner : Hash) (path : string) (hash : Hash)
| CallNodeBlob (r : ref) (owner : Hash) (path : string) (hash : Hash)
| CallSetCacheSize (r : ref) (size : Z).

Definition run (c : call) : M State unit :=
  match c with
  | CallUpdate root parentRoot nodes => add root parentRoot nodes
  | CallCap root layers freezer stateHistory statelimit =>
      cap root layers freezer stateHistory statelimit
  | CallMarkStale r => MarkStale r
  | CallRevert r diff diffid => revert r diff diffid ;;; ret tt
  | CallNode r owner path hash => Node r owner path hash ;;; ret tt
  | CallNodeBlob r owner path hash => NodeBlob r owner path hash ;;; ret tt
  | CallSetCacheSize r size => setCacheSize r size
  end.

(** The state a call leaves when it returns, with or without an error. *)
Definition after {A} (o : outcome State A) : option State :=
  match o with
  | Ret _ st | Fail _ st => Some st
  | _ => None
  end.

(** A sequence of calls, each of which returns. *)
Inductive runs : State → list call → State → Prop :=
| runs_nil st : runs st [] st
| runs_cons st c st1 cs st2 :
    after (run c st) = Some st1 → runs st1 cs st2 → runs st (c :: cs) st2.

(** [newLayerTree] on a disk layer: the tree of that layer alone. *)
Definition initial (st : State) : Prop :=
  ∃ dl, heap st = [DiskLayer dl] ∧ tree st = {[ dl_root dl := 0%nat ]}.

Definition isDisk (h : list layer) (r : ref) : Prop :=
  ∃ dl, h !! r = Some (DiskLayer dl).

(** How the store of layers changes over time: objects stay where they are
    and what they are, root, id and nodes are immutable, a stale flag is
    never cleared, and the parent of a diff layer changes only to a disk
    layer. *)
Definition sameOld (h h' : list layer) : Prop :=
  (length h ≤ length h')%nat ∧
  (∀ r dl, h !! r = Some (DiskLayer dl) →
     ∃ dl', h' !! r = Some (DiskLayer dl') ∧ dl_root dl' = dl_root dl ∧
            dl_diffid dl' = dl_diffid dl ∧ (dl_stale dl = true → dl_stale dl' = true)) ∧
  (∀ r df, h !! r = Some (DiffLayer df) →
     ∃ df', h' !! r = Some (DiffLayer df') ∧ df_root df' = df_root df ∧
            df_diffid df' = df_diffid df ∧ df_nodes df' = df_nodes df ∧
            (df_stale df = true → df_stale df' = true) ∧
            (df_parent df' = df_parent df ∨ isDisk h' (df_parent df'))).

(** The same, when the new objects are all disk layers. *)
Definition evolveD (h h' : list layer) : Prop :=
  sameOld h h' ∧ ∀ r, (length h ≤ r)%nat → (r < length h')%nat → isDisk h' r.

(** Every diff layer has a parent that is older than itself or a disk
    layer: the parent chains have no cycle and no dangling link. *)
Definition wf (h : list layer) : Prop :=
  ∀ r df, h !! r = Some (DiffLayer df) →
    (df_parent df < r)%nat ∨ isDisk h (df_parent df).

(** The tree files every layer under its own root. *)
Definition treeOk (st : State) : Prop :=
  ∀ k r, tree st !! k = Some r → ∃ l, heap st !! r = Some l ∧ layerRoot l = k.

Definition Inv (st : State) : Prop := wf (heap st) ∧ treeOk st.

(** [chain h n r]: below the layer [r] there are [n] diff layers, [r]
    included, and then a disk layer. *)
Fixpoint chain (h : list layer) (n : nat) (r : ref) : Prop :=
  match n with
  | O => isDisk h r
  | S n' => ∃ df, h !! r = Some (DiffLayer df) ∧ chain h n' (df_parent df)
  end.

(** The state after a call, the state before it when the call does not
    return. *)
Definition exec (c : call) (st : State) : State :=
  default st (after (run c st)).

(** What a call that returns has established: [Q] on a normal return, [F]
    on a return with an error. *)
Definition post {A} (o : outcome State A) (Q : A → State → Prop) (F : State → Prop)
    : Prop :=
  match o with
  | Ret a st' => Q a st'
  | Fail _ st' => F st'
  | _ => True
  end.

(** The layer store has evolved, with disk layers as the only new objects,
    and the tree is the same. *)
Definition frame (st st' : State) : Prop :=
  evolveD (heap st) (heap st') ∧ tree st' = tree st.

(** The result of flattening a diff layer: a fresh, live disk layer with the
    root and the id of that diff layer. *)
Definition flattened (st : State) (bottom : ref) (nr : ref) (st' : State) : Prop :=
  ∃ bdf ndl, heap st !! bottom = Some (DiffLayer bdf) ∧
             heap st' !! nr = Some (DiskLayer ndl) ∧
             dl_root ndl = df_root bdf ∧ dl_diffid ndl = df_diffid bdf ∧
             dl_stale ndl = false.

(** A call that has left the layers and the tree alone. *)
Definition sameLayers (st st' : State) : Prop :=
  heap st' = heap st ∧ tree st' = tree st.

(** [descends h n r d]: [n] parent links lead from the layer [r] to the layer
    [d], and the layers they start from are diff layers. *)
Fixpoint descends (h : list layer) (n : nat) (r d : ref) : Prop :=
  match n with
  | O => r = d
  | S n' => ∃ df, h !! r = Some (DiffLayer df) ∧ descends h n' (df_parent df) d
  end.

(** What a call does to the state, whatever the call: the old layers stay,
    and a well-formed store with a well-filed tree stays so. *)
Definition stepRel (st st' : State) : Prop :=
  sameOld (heap st) (heap st') ∧ (Inv st → Inv st').

(** The backend does what it is asked: the appends to the reverse-diff
    freezer, the commits into the dirty cache and its flushes succeed. *)
Definition Reliable : Prop :=
  (∀ f base root id nodes limit w,
     ∃ w', storeReverseDiff f (Some base) root id nodes limit w = Ret tt w') ∧
  (∀ c nodes w, ∃ c' w', dirty_commit c nodes w = Ret c' w') ∧
  (∀ c db clean id force w, ∃ w', dirty_mayFlush c db clean id force w = Ret tt w').

(** With a state-history freezer attached, the history of every diff layer
    can be built. *)
Definition historyReady (stateHistory : option Freezer) (h : list layer) : Prop :=
  stateHistory = None ∨
  ∀ r df, h !! r = Some (DiffLayer df) → ∃ blobs, newStateHistory (df_nodes df) = Value blobs.

End invariants.

(** ** Node sets and merged node sets (trie/nodeset.go) *)

(** The relation [sort.Reverse] sorts by: [Less(i, j)] of the reversed
    interface is [Less(j, i)] of [sort.StringSlice]. *)
Definition path_ge (a b : string) : Prop := path_le b a.

Definition path_ge_dec (a b : string) : Decision (path_ge a b) := path_le_dec b a.
#[global] Existing Instance path_ge_dec.

(** The sorted [paths] slice of [forEachWithOrder]: ascending after
    [paths.Sort()], descending after [sort.Sort(sort.Reverse(paths))].  The
    keys of a map are distinct, so the sorted slice does not depend on the
    sorting algorithm. *)
Definition orderedPaths (topToBottom : bool) (nodes : gmap string nodeWithPrev)
    : list string :=
  if topToBottom then merge_sort path_le (map fst (map_to_list nodes))
  else merge_sort path_ge (map fst (map_to_list nodes)).

Section nodesets.
(** The type [leaf] is declared outside the files modelled here. *)
Context {leaf : Type}.

(** [NodeSet] *)
Record NodeSet : Type := mkNodeSet {
  ns_owner : Hash;
  ns_nodes : gmap string nodeWithPrev;
  ns_leaves : list leaf;
}.

(** [NewNodeSet] *)
Definition NewNodeSet (owner : Hash) : NodeSet :=
  {| ns_owner := owner; ns_nodes := ∅; ns_leaves := [] |}.

(** [NodeSet.forEachWithOrder]: the callback has no result and updates the
    state it has captured; it receives the path and the pointer
    [set.nodes[path]]. *)
Definition forEachWithOrder {S} (set : NodeSet) (topToBottom : bool)
    (callback : string → option nodeWithPrev → S → S) : S → S :=
  λ s, fold_left (λ s path, callback path (ns_nodes set !! path) s)
         (orderedPaths topToBottom (ns_nodes set)) s.

(** [NodeSet.markUpdated], [NodeSet.markDeleted] and [NodeSet.addLeaf] as
    methods of the set. *)
Definition NodeSet_markUpdated (path : string) (n : memoryNode) (prev : bytes)
    (set : NodeSet) : NodeSet :=
  {| ns_owner := ns_owner set;
     ns_nodes := markUpdated path n prev (ns_nodes set);
     ns_leaves := ns_leaves set |}.

Definition NodeSet_markDeleted (path : string) (prev : bytes) (set : NodeSet) : NodeSet :=
  {| ns_owner := ns_owner set;
     ns_nodes := markDeleted path prev (ns_nodes set);
     ns_leaves := ns_leaves set |}.

Definition addLeaf (node : leaf) (set : NodeSet) : NodeSet :=
  {| ns_owner := ns_owner set; ns_nodes := ns_nodes set;
     ns_leaves := ns_leaves set ++ [node] |}.

(** [NodeSet.Size] *)
Definition Size (set : NodeSet) : nat := size (ns_nodes set).

(** [NodeSet.Hashes], in the iteration order of the map. *)
Definition Hashes (set : NodeSet) : list Hash :=
  map (λ kv, mn_hash (nwp_node kv.2)) (map_to_list (ns_nodes set)).

(** [MergedNodeSet] *)
Record MergedNodeSet : Type := mkMergedNodeSet {
  sets : gmap Hash NodeSet;
}.

(** [NewMergedNodeSet] *)
Definition NewMergedNodeSet : MergedNodeSet := {| sets := ∅ |}.

(** [MergedNodeSet.Merge] *)
Definition Merge (other : NodeSet) : M MergedNodeSet unit :=
  λ set,
    if bool_decide (is_Some (sets set !! ns_owner other))
    then Fail (errorString "duplicate trie for owner") set
    else Ret tt {| sets := <[ns_owner other := other]> (sets set) |}.

(** [NewWithNodeSet]: the error of [Merge] is not looked at. *)
Definition NewWithNodeSet (set : NodeSet) : MergedNodeSet :=
  match Merge set NewMergedNodeSet with
  | Ret _ merged | Fail _ merged => merged
  | _ => NewMergedNodeSet
  end.

(** [MergedNodeSet.simplify] *)
Definition simplify (set : MergedNodeSet) : gmap Hash (gmap string nodeWithPrev) :=
  ns_nodes <$> sets set.

End nodesets.
Arguments NodeSet : clear implicits.
Arguments MergedNodeSet : clear implicits.

(** ** The encoders of the first revision of the state history *)

Section codec_v1.
Context `{Codec}.

(** [accountIndexes.encode], first revision: the four-byte buffer [tmp] is
    written to [buf] after each [PutUint32]. *)
Definition encodeAccountIndexesV1 (indexes : list accountIndex) : bytes :=
  fold_left (λ buf index,
    let buf := buf ++ HashBytes (ai_Hash index) in
    let tmp := putUint32 (ai_Offset index) in
    let buf := buf ++ tmp in
    let tmp := putUint32 (ai_Length index) in
    let buf := buf ++ tmp in
    let tmp := putUint32 (ai_SlotOffset index) in
    let buf := buf ++ tmp in
    let tmp := putUint32 (ai_SlotNumber index) in
    buf ++ tmp) indexes [].

(** [slotIndexes.encode], first revision: after the last [PutUint32] the
    buffer [tmp] is not written to [buf]. *)
Definition encodeSlotIndexesV1 (indexes : list slotIndex) : bytes :=
  fold_left (λ buf index,
    let buf := buf ++ HashBytes (si_Hash index) in
    let tmp := putUint32 (si_Offset index) in
    let buf := buf ++ tmp in
    let tmp := putUint32 (si_Length index) in
    buf) indexes [].

End codec_v1.

(** ** Reading the state history back *)

(** The slice expression [data[offset : offset+length]]. *)
Definition slice {A} (data : list A) (offset length : Z) : list A :=
  take (Z.to_nat length) (drop (Z.to_nat offset) data).

Section history_layout.
Context `{Codec}.

(** The slots of an account in the map [leaves] (nil when it has none). *)
Definition slotsOf (leaves : gmap Hash (list elementHistory)) (element : elementHistory)
    : list elementHistory :=
  default [] (leaves !! BytesToHash (Key element)).

(** The bytes the slots of an account add to the slot data. *)
Definition slotBytes (slots : list elementHistory) : bytes :=
  concat (Prev <$> slots).

(** The indexes read off the elements directly, given how many bytes and
    indexes come before them.  (Used to reason about the loops.) *)
Fixpoint slotIndexesAt (base : nat) (slots : list elementHistory) : list slotIndex :=
  match slots with
  | [] => []
  | slot :: rest =>
      {| si_Hash := BytesToHash (Key slot);
         si_Offset := u32 (Z.of_nat base);
         si_Length := lenU32 (Prev slot) |}
      :: slotIndexesAt (base + length (Prev slot)) rest
  end.

Fixpoint allSlotIndexesAt (leaves : gmap Hash (list elementHistory)) (base : nat)
    (elements : list elementHistory) : list slotIndex :=
  match elements with
  | [] => []
  | element :: rest =>
      slotIndexesAt base (slotsOf leaves element)
      ++ allSlotIndexesAt leaves (base + length (slotBytes (slotsOf leaves element))) rest
  end.

Fixpoint accountIndexesAt (leaves : gmap Hash (list elementHistory))
    (accountBase slotBase : nat) (elements : list elementHistory) : list accountIndex :=
  match elements with
  | [] => []
  | element :: rest =>
      {| ai_Hash := BytesToHash (Key element);
         ai_Offset := u32 (Z.of_nat accountBase);
         ai_Length := lenU32 (Prev element);
         ai_SlotOffset := u32 (Z.of_nat slotBase);
         ai_SlotNumber := lenU32 (slotsOf leaves element) |}
      :: accountIndexesAt leaves (accountBase + length (Prev element))
           (slotBase + length (slotsOf leaves element)) rest
  end.

End history_layout.

(** ** More of the layer tree *)

Section tree_more.
Context `{Codec} `{Backend}.

(** The loop of [newLayerTree]: [layers[head.Root()] = head] and then
    [head = head.Parent()], until [head] is nil.  A reference outside the
    store is the nil pointer; the fuel bounds the walk along the parents. *)
Fixpoint linkLayers (fuel : nat) (head : ref) (layers : gmap Hash ref)
    : M State (gmap Hash ref) :=
  λ st,
    match heap st !! head with
    | None => Ret layers st
    | Some l =>
        match fuel with
        | O => Timeout
        | S fuel' =>
            let layers := <[layerRoot l := head]> layers in
            match layerParent l with
            | None => Ret layers st
            | Some parent => linkLayers fuel' parent layers st
            end
        end
    end.

(** [newLayerTree]: the [layers] map of the new tree. *)
Definition newLayerTree (head : ref) : M State (gmap Hash ref) :=
  λ st, linkLayers (S (length (heap st))) head ∅ st.

(** The loop [for current.Parent() != nil] of [bottom]. *)
Fixpoint bottomFrom (fuel : nat) (current : ref) : M State ref :=
  match fuel with
  | O => timeout
  | S fuel' =>
      let* l := readLayer current in
      λ st, match layerParent l with
            | None => Ret current st
            | Some parent =>
                match heap st !! parent with
                | None => Ret current st
                | Some _ => bottomFrom fuel' parent st
                end
            end
  end.

(** [layerTree.bottom]: nil for the empty tree, otherwise the end of the
    parent links of the layer the iteration over the map yields first. *)
Definition bottom : M State (option ref) :=
  λ st,
    match map_to_list (tree st) with
    | [] => Ret None st
    | (_, layer) :: _ =>
        match bottomFrom (S (length (heap st))) layer st with
        | Ret current st' => Ret (Some current) st'
        | Fail e st' => Fail e st'
        | Crash msg => Crash msg
        | Timeout => Timeout
        end
    end.

End tree_more.

(** ** A small codec and an in-memory backend

    Instances of the two interfaces, to run the model on concrete inputs. *)

Definition nibble (b : Byte.byte) : Z := Z.of_N (Byte.to_N b).

(** [hasTerm]: the last nibble is the terminator 16. *)
Definition memHasTerm (s : bytes) : bool :=
  match last s with
  | Some b => bool_decide (nibble b = 16)
  | None => false
  end.

(** [decodeNibbles]: two nibbles make a byte. *)
Fixpoint decodeNibbles (hex : bytes) : bytes :=
  match hex with
  | hi :: lo :: rest => byteOfZ (nibble hi * 16 + nibble lo) :: decodeNibbles rest
  | _ => []
  end.

(** [hexToKeybytes]: the terminator is dropped, an odd length is a panic. *)
Definition memHexToKeybytes (hex : bytes) : option bytes :=
  let hex := if memHasTerm hex then removelast hex else hex in
  if Nat.odd (length hex) then None else Some (decodeNibbles hex).

(** The big-endian number of a byte string; [BytesToHash] keeps the last 32
    bytes. *)
Definition beZ (b : bytes) : Z :=
  fold_left (λ acc x, acc * 256 + nibble x) b 0.

Fixpoint beBytes (n : nat) (z : Z) : bytes :=
  match n with
  | O => []
  | S n' => beBytes n' (z / 256) ++ [byteOfZ z]
  end.

(** The decoder of this codec reads every non-empty blob as a leaf: the key
    is made of the two nibbles of its first byte and the terminator, the
    value is the blob. *)
Definition memDecode (blob : bytes) : option node :=
  match blob with
  | [] => None
  | b :: _ =>
      Some (shortNode [byteOfZ (nibble b / 16); byteOfZ (nibble b mod 16); byteOfZ 16]
              (valueNode blob))
  end.

#[local] Instance memCodec : Codec := {|
  emptyRoot := 0x56e81f171bcc55a6ff8345e692c0f86e5b48e01b996cadc001622fb5e363b421;
  Keccak256 := λ b, beBytes 32 (beZ b);
  mustDecodeNodeUnsafe := λ _ blob, memDecode blob;
  mustDecodeNode := λ _ blob, memDecode blob;
  expandNode := λ _ n, n;
  nodeToBytes := λ n, match n with valueNode v | rawNode v => v | _ => [] end;
  hasTerm := memHasTerm;
  hexToKeybytes := memHexToKeybytes;
  BytesToHash := λ b, beZ b mod 2 ^ 256;
  HashBytes := beBytes 32;
|}.

(** The world of the in-memory backend: the key-value store with the hash
    kept next to each blob, the persistent reverse-diff head, and the ids
    appended to the two freezers. *)
Record memWorld : Type := mkMemWorld {
  mw_kv : gmap (Hash * string) (bytes * Hash);
  mw_head : Z;
  mw_rdiffs : list Z;
  mw_history : list Z;
}.

Definition memCache : Type := gmap (Hash * string) memoryNode.

Definition memFlatten (nodes : gmap Hash (gmap string memoryNode)) : memCache :=
  map_fold (λ owner subset acc,
    map_fold (λ path n acc, <[(owner, path) := n]> acc) acc subset) ∅ nodes.

Definition memRead (owner : Hash) (path : string) (w : memWorld) : bytes * Hash :=
  default ([], zeroHash) (mw_kv w !! (owner, path)).

Definition memFlush (c : memCache) (id : Z) (w : memWorld) : memWorld :=
  {| mw_kv := map_fold (λ k n kv,
                 if isDeleted n then delete k kv
                 else <[k := (match mn_node n with rawNode b => b | _ => [] end,
                              mn_hash n)]> kv) (mw_kv w) c;
     mw_head := id; mw_rdiffs := mw_rdiffs w; mw_history := mw_history w |}.

(** The backend; with [broken] the reverse-diff freezer refuses to append. *)
Definition memBackend (broken : bool) : Backend := {|
  World := memWorld;
  Database := unit;
  Cache := unit;
  diskcache := memCache;
  Freezer := unit;
  memoryNodeSize := 56;
  dirty_node := λ c owner path hash w,
    match c !! (owner, path) with
    | Some n =>
        if bool_decide (mn_hash n = hash) then Ret (Some n) w
        else Fail (errUnexpectedNode (mn_hash n) hash owner path) w
    | None => Ret None w
    end;
  dirty_commit := λ c nodes w, Ret (memFlatten nodes ∪ c) w;
  dirty_mayFlush := λ c _ _ id force w,
    if force then Ret tt (memFlush c id w) else Ret tt w;
  dirty_empty := λ c _, bool_decide (c = ∅);
  dirty_revert := λ _ _ w, Ret tt w;
  dirty_setSize := λ _ _ _ _ _ w, Ret tt w;
  dirty_size := λ c _, Z.of_nat (size c);
  clean_Get := λ _ _ _, [];
  clean_Set := λ _ _ _ w, w;
  ReadAccountTrieNode := λ _ path w, memRead zeroHash path w;
  ReadStorageTrieNode := λ _ owner path w, memRead owner path w;
  writeRevertBatch := λ _ _ id w,
    Ret tt {| mw_kv := mw_kv w; mw_head := id;
              mw_rdiffs := mw_rdiffs w; mw_history := mw_history w |};
  storeReverseDiff := λ _ base _ id _ _ w,
    match base with
    | None => Crash "interface conversion: snapshot is not *diskLayer"
    | Some _ =>
        if broken then Fail (errBackend 1) w
        else Ret tt {| mw_kv := mw_kv w; mw_head := mw_head w;
                       mw_rdiffs := mw_rdiffs w ++ [id]; mw_history := mw_history w |}
    end;
  WriteStateHistory := λ _ id _ _ _ _ w,
    {| mw_kv := mw_kv w; mw_head := mw_head w;
       mw_rdiffs := mw_rdiffs w; mw_history := mw_history w ++ [id] |};
|}.

Definition memWorld0 : memWorld :=
  {| mw_kv := ∅; mw_head := 0; mw_rdiffs := []; mw_history := [] |}.

(** ** Concrete layers and states for the in-memory backend *)

(** A disk layer with root 100 and id 1, nothing cached, no clean cache. *)
Definition exDisk (broken : bool) : @diskLayer (memBackend broken) :=
  @newDiskLayer (memBackend broken) 100 1 None (∅ : memCache) tt.

(** A diff layer on top of it, root 101, which deletes the node at path "a"
    of the account trie. *)
Definition exTombstone (broken : bool) : diffLayer :=
  @newDiffLayer (memBackend broken) 0%nat 101 2
    {[ zeroHash := {[ "a" := {| nwp_node := emptyMemoryNode; nwp_prev := [Byte.x01] |} ]} ]}.

(** The tree with the disk layer alone, and with the diff layer on it. *)
Definition exState0 (broken : bool) : @State (memBackend broken) :=
  {| world := memWorld0 : @World (memBackend broken);
     heap := [DiskLayer (exDisk broken)];
     tree := {[ 100 := 0%nat ]} |}.

Definition exState1 (broken : bool) : @State (memBackend broken) :=
  {| world := memWorld0 : @World (memBackend broken);
     heap := [DiskLayer (exDisk broken); DiffLayer (exTombstone broken)];
     tree := {[ 100 := 0%nat; 101 := 1%nat ]} |}.

(** A reverse diff that does not belong to the disk layer above. *)
Definition exReverseDiff : reverseDiff :=
  {| rd_Version := 0; rd_Parent := 99; rd_Root := 999; rd_States := [] |}.


(** Two diff layers in a line: root 102 on root 101 on the disk layer. *)
Definition exLine : @State (memBackend false) :=
  @exec memCodec (memBackend false) (CallUpdate 102 101 ∅)
    (@exec memCodec (memBackend false) (CallUpdate 101 100 ∅) (exState0 false)).

(** The disk layer of [exState1], stale. *)
Definition exStale : @State (memBackend false) :=
  @exec memCodec (memBackend false) (CallMarkStale 0%nat) (exState1 false).

(** ** Concrete node sets and states for the further properties *)

(** A mutation set with one leaf in the account trie and one in the storage
    trie of that account: the previous value [01] decodes to the leaf with
    key [01], whose hash is 1, and [02] to the leaf with key [02]. *)
Definition exHistoryNodes : gmap Hash (gmap string nodeWithPrev) :=
  {[ 0 := {[ "" := {| nwp_node := emptyMemoryNode; nwp_prev := [Byte.x01] |} ]};
     1 := {[ "" := {| nwp_node := emptyMemoryNode; nwp_prev := [Byte.x02] |} ]} ]}.

(** Its previous leaves per owner, and its state history. *)
Definition exHistoryLeaves : gmap Hash (list elementHistory) :=
  {[ 0 := [mkElement [Byte.x01] [Byte.x01]]; 1 := [mkElement [Byte.x02] [Byte.x02]] ]}.

Definition exHistoryOut : historyBlobs :=
  {| hb_accountIndexes := [ {| ai_Hash := 1; ai_Offset := 0; ai_Length := 1;
                                ai_SlotOffset := 0; ai_SlotNumber := 1 |} ];
     hb_slotIndexes := [ {| si_Hash := 2; si_Offset := 0; si_Length := 1 |} ];
     hb_accountData := [Byte.x01];
     hb_slotData := [Byte.x02] |}.

(** A mutation set that inserts one node, with hash 7, at path "a" of the
    account trie. *)
Definition exInserted : gmap Hash (gmap string nodeWithPrev) :=
  {[ 0 := {[ "a" := {| nwp_node := {| mn_hash := 7; mn_size := 1;
                                      mn_node := rawNode [Byte.x01] |};
                       nwp_prev := [] |} ]} ]}.

(** A mutation set whose only account leaf has the key [00], with the zero
    hash, and what the first revision of [newStateHistory] makes of it. *)
Definition exAccountZero : gmap Hash (gmap string nodeWithPrev) :=
  {[ 0 := {[ "" := {| nwp_node := emptyMemoryNode; nwp_prev := [Byte.x00] |} ]} ]}.

Definition exAccountZeroOut : historyBlobs :=
  {| hb_accountIndexes := [ {| ai_Hash := 0; ai_Offset := 0; ai_Length := 1;
                                ai_SlotOffset := 1; ai_SlotNumber := 1 |} ];
     hb_slotIndexes := [ {| si_Hash := 0; si_Offset := 0; si_Length := 1 |} ];
     hb_accountData := [Byte.x00];
     hb_slotData := [Byte.x00] |}.

(** Dirty nodes at the paths "a" and "ab" of one trie. *)
Definition exNested : gmap string nodeWithPrev :=
  {[ "a" := {| nwp_node := emptyMemoryNode; nwp_prev := [Byte.x01] |};
     "ab" := {| nwp_node := emptyMemoryNode; nwp_prev := [Byte.x02] |} ]}.

(** A world whose key-value store has the blob [01] with hash 7 at path "a"
    of the account trie, and the tree of the disk layer alone on it. *)
Definition exStored : @State (memBackend false) :=
  {| world := {| mw_kv := {[ (zeroHash, "a") := ([Byte.x01], 7) ]}; mw_head := 0;
                 mw_rdiffs := []; mw_history := [] |} : @World (memBackend false);
     heap := [DiskLayer (exDisk false)];
     tree := {[ 100 := 0%nat ]} |}.

(** A backend with a clean cache that holds the blob [01] under every key,
    an empty dirty cache and an empty key-value store. *)
Definition hitBackend : Backend := {|
  World := unit;
  Database := unit;
  Cache := unit;
  diskcache := unit;
  Freezer := unit;
  memoryNodeSize := 56;
  dirty_node := λ _ _ _ _ w, Ret None w;
  dirty_commit := λ c _ w, Ret c w;
  dirty_mayFlush := λ _ _ _ _ _ w, Ret tt w;
  dirty_empty := λ _ _, true;
  dirty_revert := λ _ _ w, Ret tt w;
  dirty_setSize := λ _ _ _ _ _ w, Ret tt w;
  dirty_size := λ _ _, 0;
  clean_Get := λ _ _ _, [Byte.x01];
  clean_Set := λ _ _ _ w, w;
  ReadAccountTrieNode := λ _ _ _, ([], zeroHash);
  ReadStorageTrieNode := λ _ _ _ _, ([], zeroHash);
  writeRevertBatch := λ _ _ _ w, Ret tt w;
  storeReverseDiff := λ _ _ _ _ _ _ w, Ret tt w;
  WriteStateHistory := λ _ _ _ _ _ _ w, w;
|}.

(** The tree of one disk layer with that clean cache. *)
Definition exCached : @State hitBackend :=
  {| world := tt : @World hitBackend;
     heap := [DiskLayer (@newDiskLayer hitBackend 100 1 (Some tt) tt tt)];
     tree := {[ 100 := 0%nat ]} |}.

(** The reverse diff that leads from the disk layer of [exState0] back to
    the root 99. *)
Definition exMatchingDiff : reverseDiff :=
  {| rd_Version := 0; rd_Parent := 99; rd_Root := 100; rd_States := [] |}.

(** [exLine] after [persist] of its lower diff layer, the layer 1. *)
Definition exPersisted : @State (memBackend false) :=
  match @persist memCodec (memBackend false) None None 0 1%nat false exLine with
  | Ret _ st' => st'
  | _ => exLine
  end.

(* ===================================================================== *)
(** * Properties *)

(** ** Order on paths *)

Section path_order.
Import Stdlib.Strings.String Stdlib.Strings.Ascii.

Lemma ascii_compare_refl a : Ascii.compare a a = Eq.
Proof. unfold Ascii.compare. apply N.compare_refl. Qed.

Lemma ascii_compare_lt_trans a b c :
  Ascii.compare a b = Lt → Ascii.compare b c = Lt → Ascii.compare a c = Lt.
Proof.
  unfold Ascii.compare. rewrite !N.compare_lt_iff. lia.
Qed.

Lemma string_compare_refl s : String.compare s s = Eq.
Proof. induction s as [|a s IH]; simpl; [done|]. by rewrite ascii_compare_refl. Qed.

Lemma string_compare_lt_trans s1 : ∀ s2 s3,
  String.compare s1 s2 = Lt → String.compare s2 s3 = Lt → String.compare s1 s3 = Lt.
Proof.
  induction s1 as [|a s1 IH]; intros [|b s2] [|c s3]; simpl; try done.
  destruct (Ascii.compare a b) eqn:Hab; try done;
    destruct (Ascii.compare b c) eqn:Hbc; try done; intros H1 H2.
  - apply Ascii.compare_eq_iff in Hab, Hbc. subst.
    rewrite ascii_compare_refl. eauto.
  - apply Ascii.compare_eq_iff in Hab. subst. by rewrite Hbc.
  - apply Ascii.compare_eq_iff in Hbc. subst. by rewrite Hab.
  - by rewrite (ascii_compare_lt_trans _ _ _ Hab Hbc).
Qed.

Lemma path_lt_le a b : path_lt a b → path_le a b.
Proof. unfold path_lt, path_le, String.ltb, String.leb. by destruct (String.compare a b). Qed.

Lemma path_le_lt_eq a b : path_le a b → path_lt a b ∨ a = b.
Proof.
  unfold path_lt, path_le, String.ltb, String.leb.
  destruct (String.compare a b) eqn:H; try done; auto.
  right. by apply String.compare_eq_iff.
Qed.

Lemma path_lt_irrefl a : ¬ path_lt a a.
Proof. unfold path_lt, String.ltb. by rewrite string_compare_refl. Qed.

Lemma path_lt_trans a b c : path_lt a b → path_lt b c → path_lt a c.
Proof.
  unfold path_lt, String.ltb. intros H1 H2.
  destruct (String.compare a b) eqn:Hab; try done.
  destruct (String.compare b c) eqn:Hbc; try done.
  by rewrite (string_compare_lt_trans _ _ _ Hab Hbc).
Qed.

Lemma path_le_refl a : path_le a a.
Proof. unfold path_le, String.leb. by rewrite string_compare_refl. Qed.

Lemma path_le_trans a b c : path_le a b → path_le b c → path_le a c.
Proof.
  intros [H1| ->]%path_le_lt_eq [H2| ->]%path_le_lt_eq;
    eauto using path_lt_le, path_lt_trans, path_le_refl.
Qed.

Lemma path_lt_le_trans a b c : path_lt a b → path_le b c → path_lt a c.
Proof. intros H1 [H2| ->]%path_le_lt_eq; eauto using path_lt_trans. Qed.

Lemma path_le_total a b : path_le a b ∨ path_le b a.
Proof. apply String.leb_total. Qed.

Lemma path_le_antisym a b : path_le a b → path_le b a → a = b.
Proof. apply String.leb_antisym. Qed.

Lemma path_le_neq_lt a b : path_le a b → a ≠ b → path_lt a b.
Proof. intros H Hne. destruct (path_le_lt_eq _ _ H); [assumption|contradiction]. Qed.

(** A prefix is below what it is a prefix of. *)
Lemma prefix_path_le p : ∀ q, String.prefix p q = true → path_le p q.
Proof.
  unfold path_le, String.leb.
  induction p as [|a p IH]; intros [|b q]; simpl; try done.
  destruct (ascii_dec a b) as [->|]; [|done].
  rewrite ascii_compare_refl. apply IH.
Qed.

Lemma strictPrefix_path_lt p q : strictPrefix p q → path_lt p q.
Proof. intros [H1 H2]. by apply path_le_neq_lt; [apply prefix_path_le|]. Qed.

(** Whatever lies between a path and one of its extensions extends the
    path as well. *)
Lemma prefix_between x : ∀ y q,
  path_lt x y → path_le y q → String.prefix x q = true → String.prefix x y = true.
Proof.
  unfold path_lt, path_le, String.ltb, String.leb.
  induction x as [|a x IH]; intros [|b y] [|c q]; simpl; try done.
  destruct (ascii_dec a c) as [->|]; [|done].
  destruct (ascii_dec c b) as [->|Hne].
  - rewrite !ascii_compare_refl. apply IH.
  - destruct (Ascii.compare c b) eqn:Hcb; try done.
    + by apply Ascii.compare_eq_iff in Hcb.
    + rewrite Ascii.compare_antisym, Hcb. done.
Qed.
End path_order.

#[global] Instance path_le_transitive : Transitive path_le.
Proof. intros ???. apply path_le_trans. Qed.
#[global] Instance path_le_total_inst : Total path_le.
Proof. intros ??. apply path_le_total. Qed.
#[global] Instance path_lt_transitive : Transitive path_lt.
Proof. intros ???. apply path_lt_trans. Qed.

(** ** Tip nodes *)

Lemma fold_tipStep l : ∀ p tips,
  ∃ z tips', fold_left tipStep l ([p], tips) = ([z], tips') ∧
             tips' ++ [z] = tips ++ adjTips (p :: l).
Proof.
  induction l as [|y l IH]; intros p tips.
  - exists p, tips. done.
  - cbn [fold_left]. unfold tipStep at 2. cbn [app tail].
    destruct (IH y (if negb (HasPrefix y p) then tips ++ [p] else tips))
      as (z & tips' & Hf & Heq).
    exists z, tips'. split; [exact Hf|].
    rewrite Heq. cbn [adjTips].
    destruct (HasPrefix y p); cbn [negb]; [done|].
    by rewrite <- app_assoc.
Qed.

Lemma tipPathsOf_adjTips l : tipPathsOf l = adjTips l.
Proof.
  destruct l as [|p l]; [done|].
  unfold tipPathsOf. cbn [fold_left]. unfold tipStep at 2. cbn [app].
  destruct (fold_tipStep l p []) as (z & tips' & -> & Heq). done.
Qed.

Lemma adjTips_elem_of l p : p ∈ adjTips l → p ∈ l.
Proof.
  induction l as [|x [|y tl] IH]; cbn [adjTips]; [done|done|].
  destruct (HasPrefix y x); rewrite ?elem_of_cons; intros H.
  - right. apply IH in H. by apply elem_of_cons in H.
  - destruct H as [->|H]; [by left|]. right. apply IH in H. by apply elem_of_cons in H.
Qed.

Lemma adjTips_sorted l : StronglySorted path_lt l → StronglySorted path_lt (adjTips l).
Proof.
  induction 1 as [|x tl Hs IH Hx]; [constructor|].
  cbn [adjTips]. destruct tl as [|y tl']; [repeat constructor|].
  destruct (HasPrefix y x); [exact IH|].
  constructor; [exact IH|].
  apply Forall_forall. intros q Hq. apply adjTips_elem_of in Hq.
  by eapply Forall_forall in Hx.
Qed.

(** On a strictly ascending list the loop keeps exactly the paths that no
    other path of the list extends. *)
Lemma adjTips_spec l p :
  StronglySorted path_lt l →
  p ∈ adjTips l ↔ p ∈ l ∧ ∀ q, q ∈ l → ¬ strictPrefix p q.
Proof.
  induction 1 as [|x tl Hs IH Hx].
  - cbn. split; [by intros ?%elem_of_nil|by intros [?%elem_of_nil _]].
  - assert (Hlater : ∀ q, q ∈ tl → path_lt x q)
      by (intros q Hq; by eapply Forall_forall in Hx).
    assert (Hback : ∀ r, r ∈ tl → ¬ strictPrefix r x).
    { intros r Hr Hsp%strictPrefix_path_lt.
      eapply path_lt_irrefl, path_lt_trans; [exact Hsp|by apply Hlater]. }
    assert (Htl : p ∈ adjTips tl ↔
                  p ∈ tl ∧ ∀ q, q ∈ x :: tl → ¬ strictPrefix p q).
    { rewrite IH. split.
      - intros [Hp Hq]. split; [done|]. intros q [->|Hin]%elem_of_cons; auto.
      - intros [Hp Hq]. split; [done|]. intros q Hin. apply Hq. by right. }
    cbn [adjTips]. destruct tl as [|y tl'].
    + split.
      * intros ->%list_elem_of_singleton. split; [by left|].
        intros q ->%list_elem_of_singleton [_ Hne]. done.
      * intros [Hp _]. done.
    + destruct (HasPrefix y x) eqn:Hpre.
      * rewrite Htl. split; [intros [Hp Hq]; split; [by right|done]|].
        intros [[->|Hp]%elem_of_cons Hq]; [|done].
        exfalso. apply (Hq y); [right; by left|].
        split; [exact Hpre|]. intros ->.
        eapply path_lt_irrefl, Hlater. by left.
      * rewrite elem_of_cons, Htl. split.
        -- intros [->|[Hp Hq]]; [|split; [by right|done]].
           split; [by left|]. intros q [->|Hin]%elem_of_cons [Hp Hne]; [done|].
           assert (path_le y q) as Hyq.
           { apply elem_of_cons in Hin as [->|Hin]; [apply path_le_refl|].
             apply path_lt_le. inversion Hs as [|?? _ Hy]; subst.
             by eapply Forall_forall in Hy. }
           assert (HasPrefix y x = true); [|congruence].
           eapply prefix_between; [apply Hlater; by left|exact Hyq|exact Hp].
        -- intros [[->|Hp]%elem_of_cons Hq]; [by left|right; done].
Qed.

Lemma StronglySorted_le_lt l :
  StronglySorted path_le l → NoDup l → StronglySorted path_lt l.
Proof.
  induction 1 as [|x tl Hs IH Hx]; [constructor|].
  intros [Hnin Hnd]%NoDup_cons. constructor; [by apply IH|].
  apply Forall_forall. intros q Hq.
  apply path_le_neq_lt; [by eapply Forall_forall in Hx|].
  intros ->. done.
Qed.

Lemma sortedPaths_elem_of (nodes : gmap string nodeWithPrev) p :
  p ∈ sortedPaths nodes ↔ is_Some (nodes !! p).
Proof.
  unfold sortedPaths. rewrite merge_sort_Permutation.
  rewrite list_elem_of_fmap. split.
  - intros ([k v] & -> & Hin). apply elem_of_map_to_list in Hin. by exists v.
  - intros [v Hv]. exists (p, v). split; [done|]. by apply elem_of_map_to_list.
Qed.

Lemma sortedPaths_sorted (nodes : gmap string nodeWithPrev) :
  StronglySorted path_lt (sortedPaths nodes).
Proof.
  apply StronglySorted_le_lt.
  - apply StronglySorted_merge_sort; apply _.
  - unfold sortedPaths. rewrite merge_sort_Permutation.
    apply NoDup_fst_map_to_list.
Qed.

Lemma StronglySorted_lt_NoDup l : StronglySorted path_lt l → NoDup l.
Proof.
  induction 1 as [|x tl Hs IH Hx]; constructor; [|done].
  intros Hin. eapply Forall_forall in Hx; [|exact Hin]. by apply path_lt_irrefl in Hx.
Qed.

Lemma tipPaths_spec (nodes : gmap string nodeWithPrev) p :
  p ∈ tipPaths nodes ↔ isTipNode nodes p.
Proof.
  unfold tipPaths, isTipNode. rewrite tipPathsOf_adjTips.
  rewrite adjTips_spec by apply sortedPaths_sorted.
  rewrite sortedPaths_elem_of. split; intros [Hp Hq]; (split; [done|]);
    intros q Hin; apply Hq; by apply sortedPaths_elem_of.
Qed.

Lemma forEachTips_traced_ok {S} (nodes : gmap string nodeWithPrev)
    (cb : string → option nodeWithPrev → M S unit) :
  (∀ p n s0, ∃ s1, cb p n s0 = Ret tt s1) →
  ∀ tips s log, ∃ s',
    forEachTips nodes (traced cb) tips (s, log) = Ret tt (s', log ++ tips).
Proof.
  intros Hcb. induction tips as [|p tips IH]; intros s log.
  - exists s. cbn. by rewrite app_nil_r.
  - cbn [forEachTips]. unfold bind, traced at 1.
    destruct (Hcb p (nodes !! p) s) as [s1 ->].
    destruct (IH s1 (log ++ [p])) as [s' ->]. exists s'.
    by rewrite <- app_assoc.
Qed.

Lemma forEachTips_traced_prefix {S} (nodes : gmap string nodeWithPrev)
    (cb : string → option nodeWithPrev → M S unit) :
  ∀ tips s log l,
    invoked (forEachTips nodes (traced cb) tips (s, log)) = Some l →
    ∃ pre, l = log ++ pre ∧ pre `prefix_of` tips.
Proof.
  induction tips as [|p tips IH]; intros s log l.
  - cbn. intros [= <-]. exists []. by rewrite app_nil_r.
  - cbn [forEachTips]. unfold bind, traced at 1.
    destruct (cb p (nodes !! p) s) as [[] s1|e s1|msg|]; cbn; try done.
    + intros (pre & -> & Hpre)%IH. exists (p :: pre).
      rewrite <- app_assoc. split; [done|]. by apply prefix_cons.
    + intros [= <-]. exists [p]. split; [done|]. by apply prefix_cons, prefix_nil.
Qed.

(** C9. [forEachTipNode] computes, for every finite map of dirty nodes, the
    list of its tip nodes (the keys that are a strict prefix of no other key),
    strictly ascending in the bytewise lexicographic order and hence without
    repetition, and invokes the callback on them in that order: on all of
    them, once each, when no invocation returns an error or panics, and in
    general on an initial segment of that list, since the first error ends
    the iteration. *)
Theorem forEachTipNode_tips (nodes : gmap string nodeWithPrev) :
  (∀ p, p ∈ tipPaths nodes ↔ isTipNode nodes p) ∧
  StronglySorted path_lt (tipPaths nodes) ∧
  NoDup (tipPaths nodes) ∧
  (∀ S (cb : string → option nodeWithPrev → M S unit) (s : S),
     (∀ p n s0, ∃ s1, cb p n s0 = Ret tt s1) →
     ∃ s', forEachTipNode nodes (traced cb) (s, []) = Ret tt (s', tipPaths nodes)) ∧
  (∀ S (cb : string → option nodeWithPrev → M S unit) (s : S) log,
     invoked (forEachTipNode nodes (traced cb) (s, [])) = Some log →
     log `prefix_of` tipPaths nodes).
Proof.
  assert (Hs : StronglySorted path_lt (tipPaths nodes)).
  { unfold tipPaths. rewrite tipPathsOf_adjTips.
    apply adjTips_sorted, sortedPaths_sorted. }
  split; [apply tipPaths_spec|].
  split; [exact Hs|].
  split; [by apply StronglySorted_lt_NoDup|].
  split.
  - intros S cb s Hcb. unfold forEachTipNode.
    destruct (forEachTips_traced_ok nodes cb Hcb (tipPaths nodes) s []) as [s' Hs'].
    by exists s'.
  - intros S cb s log Hlog. unfold forEachTipNode in Hlog.
    apply forEachTips_traced_prefix in Hlog as (pre & -> & Hpre). done.
Qed.

(** ** The state-history builder *)

Lemma sortedPaths_singleton (path : string) (n : nodeWithPrev) :
  sortedPaths {[ path := n ]} = [path].
Proof. unfold sortedPaths. by rewrite map_to_list_singleton. Qed.

Lemma tipPaths_singleton (path : string) (n : nodeWithPrev) :
  tipPaths {[ path := n ]} = [path].
Proof. unfold tipPaths. by rewrite sortedPaths_singleton. Qed.

(** C10. The first revision of [newStateHistory] is not total.  Take a
    mutation set with the account trie alone (owner zero) and one dirty node
    in it whose previous value decodes to a leaf, and let the hash of the
    leaf's key not be the zero hash, so that [leaves] has no entry for it:
    the second loop then reads [leaves[account][0]] from an empty slice,
    which is the index-out-of-range panic. *)
Theorem newStateHistoryV1_out_of_range `{Codec}
    (path : string) (n : memoryNode) (blob key v k : bytes) :
  blob ≠ [] →
  mustDecodeNodeUnsafe (Keccak256 blob) blob = Some (shortNode key (valueNode v)) →
  hasTerm key = true →
  hexToKeybytes (Stdlib.Strings.String.list_byte_of_string path ++ key) = Some k →
  BytesToHash k ≠ zeroHash →
  newStateHistoryV1 {[ zeroHash := {[ path := {| nwp_node := n; nwp_prev := blob |} ]} ]}
  = Panics "index out of range".
Proof.
  intros Hblob Hdec Hterm Hkey Hhash.
  unfold newStateHistoryV1, collectLeaves.
  rewrite map_to_list_singleton. cbn [leavesLoop].
  unfold prevLeaves, resolvePrevLeaves, forEachTipNode.
  rewrite tipPaths_singleton. cbn [forEachTips].
  rewrite lookup_singleton_eq. unfold bind at 1. cbn [nwp_prev].
  rewrite bool_decide_eq_false_2 by (by destruct blob).
  rewrite Hdec. cbn [resolve]. rewrite Hterm. cbn [negb]. rewrite Hkey.
  cbn. rewrite lookup_insert_eq. cbn.
  rewrite lookup_insert_ne by done. rewrite lookup_empty. cbn.
  by destruct (newSlotIndex 0 []) as [[??]?].
Qed.

(** The situation of C10 with the small codec: the account trie has one
    dirty node, at the root path, whose previous value is the one-byte blob
    [01]. *)
Lemma newStateHistoryV1_out_of_range_witness :
  @newStateHistoryV1 memCodec
    {[ zeroHash := {[ "" := {| nwp_node := emptyMemoryNode; nwp_prev := [Byte.x01] |} ]} ]}
  = Panics "index out of range".
Proof.
  apply (@newStateHistoryV1_out_of_range memCodec "" emptyMemoryNode [Byte.x01]
           [Byte.x00; Byte.x01; Byte.x10] [Byte.x01] [Byte.x01]);
    [done|reflexivity|reflexivity|reflexivity|discriminate].
Defined.

(** ** Lookups *)

Section lookup_props.
Context `{Codec} `{Backend}.

Lemma diskLayer_node_stale (dl : diskLayer) owner path hash depth w :
  dl_stale dl = true →
  diskLayer_node dl owner path hash depth w = Fail errSnapshotStale w.
Proof. intros Hs. unfold diskLayer_node. by rewrite Hs. Qed.

(** C6. A lookup on a live disk layer of a node that is in neither cache and
    not in the key-value store (the reader hands back an empty blob, with
    whatever hash it reports for a missing entry) does not return
    [(nil, nil)]: the hash check comes before the test for an empty blob, so
    the lookup fails with the unexpected-node error for every requested hash
    other than the one the reader reported. *)
Theorem diskLayer_node_absent (dl : diskLayer) owner path hash depth w nHash :
  dl_stale dl = false →
  dirty_node (dl_dirty dl) owner path hash w = Ret None w →
  cleanMiss dl hash w →
  diskRead dl owner path w = ([], nHash) →
  nHash ≠ hash →
  diskLayer_node dl owner path hash depth w
  = Fail (errUnexpectedNode nHash hash owner path) w.
Proof.
  intros Hs Hd Hc Hr Hne. unfold diskLayer_node. rewrite Hs.
  unfold bind at 1. rewrite Hd. unfold bind at 1, get.
  unfold cleanMiss in Hc.
  destruct (dl_clean dl) as [clean|]; cbn in Hc.
  - rewrite Hc, Hr. rewrite (bool_decide_eq_false_2 (0 < _)%nat) by (cbn; lia).
    by rewrite bool_decide_eq_true_2.
  - rewrite Hr. by rewrite bool_decide_eq_true_2.
Qed.

(** The branch that returns [(nil, nil)] is taken only when the requested
    hash is the one reported for the missing entry. *)
Lemma diskLayer_node_absent_same_hash (dl : diskLayer) owner path hash depth w :
  dl_stale dl = false →
  dirty_node (dl_dirty dl) owner path hash w = Ret None w →
  cleanMiss dl hash w →
  diskRead dl owner path w = ([], hash) →
  diskLayer_node dl owner path hash depth w = Ret None w.
Proof.
  intros Hs Hd Hc Hr. unfold diskLayer_node. rewrite Hs.
  unfold bind at 1. rewrite Hd. unfold bind at 1, get.
  unfold cleanMiss in Hc.
  destruct (dl_clean dl) as [clean|]; cbn in Hc.
  - rewrite Hc, Hr. rewrite !(bool_decide_eq_false_2 (0 < _)%nat) by (cbn; lia).
    rewrite (bool_decide_eq_false_2 (hash ≠ hash)) by naive_solver.
    unfold bind, ret. by rewrite bool_decide_eq_true_2.
  - rewrite Hr. rewrite (bool_decide_eq_false_2 (hash ≠ hash)) by naive_solver.
    unfold bind, ret. by rewrite bool_decide_eq_true_2.
Qed.

Lemma snapshot_node_unfold r owner path hash depth (st : State) :
  snapshot_node r owner path hash depth st
  = match heap st !! r with
    | None => Crash "nil pointer dereference"
    | Some (DiskLayer dl) => liftW (diskLayer_node dl owner path hash depth) st
    | Some (DiffLayer df) =>
        if df_stale df then Fail errSnapshotStale st
        else
          match df_nodes df !! owner ≫= (λ subset, subset !! path) with
          | Some n =>
              if bool_decide (mn_hash (nwp_node n) ≠ hash)
              then Fail (errUnexpectedNode (mn_hash (nwp_node n)) hash owner path) st
              else Ret (Some (unwrap n)) st
          | None => nodeFrom (length (heap st)) (df_parent df) owner path hash (depth + 1) st
          end
    end.
Proof.
  unfold snapshot_node. cbn [nodeFrom]. unfold bind, readLayer.
  destruct (heap st !! r) as [[dl|df]|]; try done.
  destruct (df_stale df); [done|].
  destruct (df_nodes df !! owner ≫= _); [|done].
  by destruct (bool_decide _).
Qed.

(** C7, as the code has it.  A live diff layer that has an entry of its own
    at [(owner, path)] compares the entry's hash with the requested one.  On
    a mismatch the lookup fails with the unexpected-node error; this is what a
    tombstone (hash zero) gives for every non-zero requested hash.  An entry
    that is no tombstone and has the requested hash is returned, unwrapped. *)
Theorem diffLayer_node_local (st : State) r (df : diffLayer) owner path hash depth
    (subset : gmap string nodeWithPrev) (n : nodeWithPrev) :
  heap st !! r = Some (DiffLayer df) →
  df_stale df = false →
  df_nodes df !! owner = Some subset →
  subset !! path = Some n →
  (mn_hash (nwp_node n) ≠ hash →
     snapshot_node r owner path hash depth st
     = Fail (errUnexpectedNode (mn_hash (nwp_node n)) hash owner path) st) ∧
  (isDeleted (nwp_node n) = false → mn_hash (nwp_node n) = hash →
     snapshot_node r owner path hash depth st = Ret (Some (unwrap n)) st) ∧
  (isDeleted (nwp_node n) = true → hash ≠ zeroHash →
     snapshot_node r owner path hash depth st
     = Fail (errUnexpectedNode zeroHash hash owner path) st).
Proof.
  intros Hr Hs Ho Hp. rewrite snapshot_node_unfold, Hr, Hs, Ho. cbn. rewrite Hp.
  repeat split.
  - intros Hne. by rewrite bool_decide_eq_true_2.
  - intros _ Heq. by rewrite bool_decide_eq_false_2 by naive_solver.
  - unfold isDeleted. intros Hdel%bool_decide_eq_true Hne. rewrite Hdel.
    by rewrite bool_decide_eq_true_2.
Qed.

(** A tombstone asked for with the zero hash passes the hash check, against
    the comment on that check ("or marked as removed, bubble up an error"):
    the lookup hands out the deleted [memoryNode], and [NodeBlob] and [Node]
    then panic on its nil node. *)
Lemma tombstone_zero_hash (st : State) r (df : diffLayer) owner path
    (subset : gmap string nodeWithPrev) prev :
  heap st !! r = Some (DiffLayer df) →
  df_stale df = false →
  df_nodes df !! owner = Some subset →
  subset !! path = Some {| nwp_node := emptyMemoryNode; nwp_prev := prev |} →
  snapshot_node r owner path zeroHash 0 st = Ret (Some emptyMemoryNode) st ∧
  (∃ msg, NodeBlob r owner path zeroHash st = Crash msg) ∧
  (∃ msg, Node r owner path zeroHash st = Crash msg).
Proof.
  intros Hr Hs Ho Hp.
  assert (Hn : snapshot_node r owner path zeroHash 0 st = Ret (Some emptyMemoryNode) st).
  { rewrite snapshot_node_unfold, Hr, Hs, Ho. cbn. rewrite Hp. cbn.
    by rewrite bool_decide_eq_false_2 by naive_solver. }
  split; [exact Hn|]. unfold NodeBlob, Node, bind. rewrite Hn. cbn.
  split; by eexists.
Qed.

End lookup_props.

(** The lookup of C6 on the in-memory backend: an empty store, and the node
    with hash 7 at path "a" of the account trie is asked for. *)
Lemma diskLayer_node_absent_witness :
  @diskLayer_node memCodec (memBackend false) (exDisk false) zeroHash "a" 7 0 memWorld0
  = Fail (errUnexpectedNode zeroHash 7 zeroHash "a") memWorld0.
Proof.
  apply (@diskLayer_node_absent memCodec (memBackend false));
    [reflexivity|reflexivity|exact I|reflexivity|done].
Defined.

(** C7, the claim as stated fails: the diff layer of [exState1] has a
    tombstone at path "a" of the account trie, and looking it up with hash 7
    is an unexpected-node error, not a nil node without an error. *)
Lemma diffLayer_node_tombstone_counterexample :
  df_nodes (exTombstone false) !! zeroHash ≫= (λ subset, subset !! "a")
  = Some {| nwp_node := emptyMemoryNode; nwp_prev := [Byte.x01] |} ∧
  isDeleted emptyMemoryNode = true ∧
  @snapshot_node memCodec (memBackend false) 1%nat zeroHash "a" 7 0 (exState1 false)
  = Fail (errUnexpectedNode zeroHash 7 zeroHash "a") (exState1 false) ∧
  @snapshot_node memCodec (memBackend false) 1%nat zeroHash "a" 7 0 (exState1 false)
  ≠ Ret None (exState1 false).
Proof. repeat split. discriminate. Qed.

(** The general statement at that layer. *)
Lemma diffLayer_node_local_witness :
  @snapshot_node memCodec (memBackend false) 1%nat zeroHash "a" 7 0 (exState1 false)
  = Fail (errUnexpectedNode zeroHash 7 zeroHash "a") (exState1 false).
Proof.
  refine (proj1 (@diffLayer_node_local memCodec (memBackend false) (exState1 false)
            1%nat (exTombstone false) zeroHash "a" 7 0
            {[ "a" := {| nwp_node := emptyMemoryNode; nwp_prev := [Byte.x01] |} ]}
            {| nwp_node := emptyMemoryNode; nwp_prev := [Byte.x01] |} _ _ _ _) _);
    [reflexivity|reflexivity|reflexivity|reflexivity|done].
Defined.

(** ** Commit and revert of the disk layer, and cap at the disk layer *)

Section disk_props.
Context `{Codec} `{Backend}.

(** Setting the stale flag of a disk layer changes no root. *)
Lemma baseRoot_stale (h : list layer) r (dl : diskLayer) (df : diffLayer) :
  h !! r = Some (DiskLayer dl) →
  baseRoot (<[r := DiskLayer (staleDisk dl)]> h) df = baseRoot h df.
Proof.
  intros Hr. unfold baseRoot. destruct (decide (r = df_parent df)) as [<-|Hne].
  - rewrite list_lookup_insert_eq by (by eapply lookup_lt_Some). by rewrite Hr.
  - by rewrite list_lookup_insert_ne.
Qed.

(** [storeStateHistory] never returns an error. *)
Lemma storeStateHistory_no_error freezer (df : diffLayer) w e w' :
  storeStateHistory freezer df w ≠ Fail e w'.
Proof. unfold storeStateHistory. by destruct (newStateHistory _). Qed.

(** C5, as the code has it.  When the append of the reverse diff fails
    during [commit], the error is returned to the caller, no new disk layer
    is made, and neither the tree nor the world is touched after the failed
    append; the old disk layer, however, is stale by then, because [commit]
    sets the flag before it writes anything. *)
Theorem commit_reverse_diff_failure (st : State) r (dl : diskLayer) bottom
    (bdf : diffLayer) freezer stateHistory statelimit force e w' :
  heap st !! r = Some (DiskLayer dl) →
  heap st !! bottom = Some (DiffLayer bdf) →
  storeReverseDiff freezer (baseRoot (heap st) bdf) (df_root bdf) (df_diffid bdf)
    (df_nodes bdf) statelimit (world st) = Fail e w' →
  commit r (Some freezer) stateHistory statelimit bottom force st
  = Fail e {| world := w';
              heap := <[r := DiskLayer (staleDisk dl)]> (heap st);
              tree := tree st |}.
Proof.
  intros Hr Hb Hf. unfold commit.
  unfold bind at 1, readLayer at 1. rewrite Hr.
  unfold bind at 1, writeLayer. unfold bind at 1, readLayer. cbn [heap setHeap].
  assert (r ≠ bottom) as Hne by (intros ->; congruence).
  rewrite list_lookup_insert_ne by done. rewrite Hb.
  unfold bind at 1. unfold bind at 1, get, liftW at 1. cbn [world heap setHeap].
  erewrite baseRoot_stale by done. by rewrite Hf.
Qed.

(** C4, as the code has it.  [revert] returns a new disk layer only when the
    reverse diff's root is the layer's root, the id is the layer's id and the
    id is not zero.  A mismatch of the root or of the id is the
    unmatched-reverse-diff error, a zero id is the state-unrecoverable error,
    and in these three cases nothing has changed: the layer is not stale and
    no layer was made. *)
Theorem revert_guards (st : State) r (dl : diskLayer) (diff : reverseDiff) diffid :
  heap st !! r = Some (DiskLayer dl) →
  (rd_Root diff ≠ dl_root dl ∨ diffid ≠ dl_diffid dl →
     revert r diff diffid st = Fail errUnmatchedReverseDiff st) ∧
  (rd_Root diff = dl_root dl → diffid = dl_diffid dl → diffid = 0 →
     revert r diff diffid st = Fail errStateUnrecoverable st) ∧
  (∀ nr st', revert r diff diffid st = Ret nr st' →
     rd_Root diff = dl_root dl ∧ diffid = dl_diffid dl ∧ diffid ≠ 0).
Proof.
  intros Hr. split; [|split].
  - intros Hne. unfold revert. unfold bind at 1, readLayer at 1. rewrite Hr.
    repeat case_bool_decide; try done; destruct Hne; contradiction.
  - intros H1 H2 H3. unfold revert. unfold bind at 1, readLayer at 1. rewrite Hr.
    repeat case_bool_decide; try done; congruence.
  - intros nr st' Hret. unfold revert in Hret.
    unfold bind at 1, readLayer at 1 in Hret. rewrite Hr in Hret.
    repeat case_bool_decide; try done; repeat split; congruence.
Qed.

Lemma convertEmpty_idemp hash : convertEmpty (convertEmpty hash) = convertEmpty hash.
Proof. unfold convertEmpty. repeat case_bool_decide; congruence. Qed.

Lemma cap_on_disk (st : State) root layers freezer stateHistory statelimit
    r (dl : diskLayer) :
  tree st !! convertEmpty root = Some r →
  heap st !! r = Some (DiskLayer dl) →
  cap root layers freezer stateHistory statelimit st
  = Fail (errorString "triedb snapshot is disk layer") st.
Proof.
  intros Ht Hr. unfold cap. unfold bind at 1, treeGet.
  rewrite convertEmpty_idemp.
  rewrite Ht. unfold bind at 1, readLayer. by rewrite Hr.
Qed.

(** C8, as the code has it.  [cap] on a root that resolves to a disk layer
    leaves the state as it is, and returns an error. *)
Theorem cap_disk_layer (st : State) root layers freezer stateHistory statelimit
    r (dl : diskLayer) :
  tree st !! convertEmpty root = Some r →
  heap st !! r = Some (DiskLayer dl) →
  cap root layers freezer stateHistory statelimit st
  = Fail (errorString "triedb snapshot is disk layer") st.
Proof. apply cap_on_disk. Qed.

End disk_props.

(** C5, the claim as stated fails: with a reverse-diff freezer that refuses
    the append, the commit of the diff layer of [exState1] returns the error
    and the disk layer, live before, is stale after. *)
Lemma commit_failure_stale_counterexample :
  @layerStale (memBackend true) <$> heap (exState1 true) !! 0%nat = Some false ∧
  ∃ st', @commit memCodec (memBackend true) 0%nat (Some tt) None 0 1%nat false (exState1 true)
         = Fail (errBackend 1) st' ∧
         @layerStale (memBackend true) <$> heap st' !! 0%nat = Some true.
Proof. split; [reflexivity|]. eexists. split; reflexivity. Qed.

Lemma commit_reverse_diff_failure_witness :
  @commit memCodec (memBackend true) 0%nat (Some tt) None 0 1%nat false (exState1 true)
  = Fail (errBackend 1)
      {| world := memWorld0 : @World (memBackend true);
         heap := <[0%nat := DiskLayer (staleDisk (exDisk true))]> (heap (exState1 true));
         tree := tree (exState1 true) |}.
Proof.
  apply (@commit_reverse_diff_failure memCodec (memBackend true) (exState1 true)
           0%nat (exDisk true) 1%nat (exTombstone true) tt None 0 false);
    reflexivity.
Defined.

(** C4, the claim as stated fails: a reverse diff whose root is not the
    layer's root is refused with the unmatched-reverse-diff error, which is
    not the state-unrecoverable one. *)
Lemma revert_mismatch_counterexample :
  @revert (memBackend false) 0%nat exReverseDiff 1 (exState0 false)
  = Fail errUnmatchedReverseDiff (exState0 false) ∧
  errUnmatchedReverseDiff ≠ errStateUnrecoverable.
Proof. split; [reflexivity|discriminate]. Qed.

Lemma revert_guards_witness :
  @revert (memBackend false) 0%nat exReverseDiff 1 (exState0 false)
  = Fail errUnmatchedReverseDiff (exState0 false).
Proof.
  refine (proj1 (@revert_guards (memBackend false) (exState0 false) 0%nat
                   (exDisk false) exReverseDiff 1 _) _);
    [reflexivity|left; discriminate].
Defined.

(** C8, the claim as stated fails: [cap] on the root of the disk layer does
    not return success. *)
Lemma cap_disk_layer_counterexample :
  tree (exState0 false) !! convertEmpty 100 = Some 0%nat ∧
  heap (exState0 false) !! 0%nat = Some (DiskLayer (exDisk false)) ∧
  ¬ ∃ st', @cap memCodec (memBackend false) 100 1 None None 0 (exState0 false) = Ret tt st'.
Proof.
  split; [reflexivity|]. split; [reflexivity|]. intros [st' Hst']. discriminate Hst'.
Qed.

Lemma cap_disk_layer_witness :
  @cap memCodec (memBackend false) 100 1 None None 0 (exState0 false)
  = Fail (errorString "triedb snapshot is disk layer") (exState0 false).
Proof.
  apply (@cap_disk_layer memCodec (memBackend false) (exState0 false) 100 1 None None 0
           0%nat (exDisk false)); reflexivity.
Defined.

(** ** The store of layers over time *)

Section store_props.
Context `{Codec} `{Backend}.

Lemma isDisk_lt (h : list layer) r : isDisk h r → (r < length h)%nat.
Proof. intros [dl Hdl]. by eapply lookup_lt_Some. Qed.

Lemma sameOld_refl (h : list layer) : sameOld h h.
Proof.
  split; [done|]. split.
  - intros r dl Hr. by exists dl.
  - intros r df Hr. exists df. repeat split; auto.
Qed.

Lemma sameOld_isDisk (h h' : list layer) r : sameOld h h' → isDisk h r → isDisk h' r.
Proof.
  intros (_ & Hd & _) [dl Hdl]. destruct (Hd _ _ Hdl) as (dl' & Hdl' & _).
  by exists dl'.
Qed.

Lemma sameOld_trans (h1 h2 h3 : list layer) :
  sameOld h1 h2 → sameOld h2 h3 → sameOld h1 h3.
Proof.
  intros H12 H23.
  destruct H12 as (Hl1 & Hd1 & Hf1). destruct (H23) as (Hl2 & Hd2 & Hf2).
  split; [lia|]. split.
  - intros r dl Hr.
    destruct (Hd1 _ _ Hr) as (dl1 & Hr1 & ? & ? & ?).
    destruct (Hd2 _ _ Hr1) as (dl2 & Hr2 & ? & ? & ?).
    exists dl2. repeat split; [done|congruence|congruence|auto].
  - intros r df Hr.
    destruct (Hf1 _ _ Hr) as (df1 & Hr1 & ? & ? & ? & ? & Hp1).
    destruct (Hf2 _ _ Hr1) as (df2 & Hr2 & ? & ? & ? & ? & Hp2).
    exists df2. repeat split; [done|congruence|congruence|congruence|auto|].
    destruct Hp2 as [Hp2|Hp2]; [|by right].
    destruct Hp1 as [Hp1|Hp1]; [left; congruence|].
    right. rewrite Hp2. eapply sameOld_isDisk; eauto.
Qed.

Lemma evolveD_refl (h : list layer) : evolveD h h.
Proof. split; [apply sameOld_refl|]. intros r ??. lia. Qed.

Lemma evolveD_trans (h1 h2 h3 : list layer) :
  evolveD h1 h2 → evolveD h2 h3 → evolveD h1 h3.
Proof.
  intros [H12 N12] [H23 N23]. split; [by eapply sameOld_trans|].
  intros r Hge Hlt. destruct (decide (r < length h2)%nat).
  - eapply sameOld_isDisk; [exact H23|]. by apply N12.
  - apply N23; lia.
Qed.

(** Overwriting a disk layer by one with the same root and id, and a stale
    flag that was not cleared. *)
Lemma evolveD_insert_disk (h : list layer) r (dl dl' : diskLayer) :
  h !! r = Some (DiskLayer dl) →
  dl_root dl' = dl_root dl → dl_diffid dl' = dl_diffid dl →
  (dl_stale dl = true → dl_stale dl' = true) →
  evolveD h (<[r := DiskLayer dl']> h).
Proof.
  intros Hr H1 H2 H3.
  assert (r < length h)%nat as Hlt by (by eapply lookup_lt_Some).
  split; [|intros q; rewrite length_insert; lia].
  split; [by rewrite length_insert|]. split.
  - intros q dq Hq. destruct (decide (r = q)) as [->|Hne].
    + rewrite list_lookup_insert_eq by done. exists dl'.
      assert (dq = dl) as -> by congruence. done.
    + rewrite list_lookup_insert_ne by done. exists dq. done.
  - intros q df Hq. destruct (decide (r = q)) as [->|Hne]; [congruence|].
    rewrite list_lookup_insert_ne by done. exists df. repeat split; auto.
Qed.

(** Overwriting a diff layer: the parent may change to a disk layer. *)
Lemma evolveD_insert_diff (h : list layer) r (df df' : diffLayer) :
  h !! r = Some (DiffLayer df) →
  df_root df' = df_root df → df_diffid df' = df_diffid df →
  df_nodes df' = df_nodes df →
  (df_stale df = true → df_stale df' = true) →
  (df_parent df' = df_parent df ∨ isDisk h (df_parent df')) →
  evolveD h (<[r := DiffLayer df']> h).
Proof.
  intros Hr H1 H2 H3 H4 H5.
  assert (r < length h)%nat as Hlt by (by eapply lookup_lt_Some).
  assert (∀ p, isDisk h p → isDisk (<[r := DiffLayer df']> h) p) as Hdisk.
  { intros p [dp Hp]. exists dp. rewrite list_lookup_insert_ne; [done|].
    intros ->. congruence. }
  split; [|intros q; rewrite length_insert; lia].
  split; [by rewrite length_insert|]. split.
  - intros q dq Hq. destruct (decide (r = q)) as [->|Hne]; [congruence|].
    rewrite list_lookup_insert_ne by done. exists dq. done.
  - intros q dq Hq. destruct (decide (r = q)) as [->|Hne].
    + rewrite list_lookup_insert_eq by done. exists df'.
      assert (dq = df) as -> by congruence.
      repeat split; [done..|]. destruct H5; auto.
    + rewrite list_lookup_insert_ne by done. exists dq. repeat split; auto.
Qed.

Lemma sameOld_app (h l : list layer) : sameOld h (h ++ l).
Proof.
  split; [rewrite length_app; lia|]. split.
  - intros r dl Hr. exists dl. split; [|done].
    rewrite lookup_app_l; [done|by eapply lookup_lt_Some].
  - intros r df Hr. exists df. split; [|repeat split; auto].
    rewrite lookup_app_l; [done|by eapply lookup_lt_Some].
Qed.

(** Allocating a disk layer. *)
Lemma evolveD_alloc_disk (h : list layer) (dl : diskLayer) :
  evolveD h (h ++ [DiskLayer dl]).
Proof.
  split; [apply sameOld_app|].
  intros r Hge. rewrite length_app. cbn. intros Hlt.
  assert (r = length h) as -> by lia. exists dl.
  by rewrite lookup_app_r, Nat.sub_diag.
Qed.

Lemma wf_evolveD (h h' : list layer) : wf h → evolveD h h' → wf h'.
Proof.
  intros Hwf [Hs Hnew] r df' Hr.
  destruct (decide (r < length h)%nat) as [Hlt|Hge].
  - destruct (lookup_lt_is_Some_2 h r Hlt) as [[dl|df] Hl].
    + destruct Hs as (_ & Hd & _). destruct (Hd _ _ Hl) as (? & ? & _). congruence.
    + pose proof Hs as (_ & _ & Hf).
      destruct (Hf _ _ Hl) as (df1 & Hr1 & _ & _ & _ & _ & Hp).
      assert (df1 = df') as -> by congruence.
      destruct Hp as [Hp|Hp]; [|by right]. rewrite Hp.
      destruct (Hwf _ _ Hl) as [?|?]; [by left|right].
      by eapply sameOld_isDisk.
  - destruct (Hnew r) as [dl Hdl]; [lia|by eapply lookup_lt_Some|congruence].
Qed.

(** Allocating a diff layer on a parent that is in the store. *)
Lemma wf_alloc_diff (h : list layer) (df : diffLayer) :
  wf h → (df_parent df < length h)%nat → wf (h ++ [DiffLayer df]).
Proof.
  intros Hwf Hp r d Hr.
  destruct (decide (r < length h)%nat) as [Hlt|Hge].
  - rewrite lookup_app_l in Hr by done.
    destruct (Hwf _ _ Hr) as [?|?]; [by left|right].
    eapply sameOld_isDisk; [apply sameOld_app|done].
  - assert (r = length h) as ->.
    { apply lookup_lt_Some in Hr. rewrite length_app in Hr. cbn in Hr. lia. }
    rewrite lookup_app_r, Nat.sub_diag in Hr by done. cbn in Hr.
    assert (d = df) as -> by congruence. by left.
Qed.

Lemma treeOk_sameOld (st st' : State) :
  treeOk st → sameOld (heap st) (heap st') → tree st' = tree st → treeOk st'.
Proof.
  intros Hok (_ & Hd & Hf) Ht k r Hk. rewrite Ht in Hk.
  destruct (Hok _ _ Hk) as ([dl|df] & Hl & Hroot).
  - destruct (Hd _ _ Hl) as (dl' & Hl' & Hr' & _). exists (DiskLayer dl').
    split; [done|]. cbn in *. congruence.
  - destruct (Hf _ _ Hl) as (df' & Hl' & Hr' & _). exists (DiffLayer df').
    split; [done|]. cbn in *. congruence.
Qed.

(** A chain does not grow. *)
Lemma chain_sameOld (h h' : list layer) n : ∀ r,
  sameOld h h' → chain h n r → ∃ n', (n' ≤ n)%nat ∧ chain h' n' r.
Proof.
  induction n as [|n IH]; intros r Hs Hc.
  - exists 0%nat. split; [done|]. cbn in *. by eapply sameOld_isDisk.
  - destruct Hc as (df & Hr & Hc).
    pose proof Hs as (_ & _ & Hf).
    destruct (Hf _ _ Hr) as (df' & Hr' & _ & _ & _ & _ & [Hp|Hp]).
    + destruct (IH _ Hs Hc) as (n' & Hle & Hc').
      exists (S n'). split; [lia|]. exists df'. split; [done|]. by rewrite Hp.
    + exists 1%nat. split; [lia|]. exists df'. done.
Qed.

(** In a well-formed store every layer has a chain, no longer than the
    store. *)
Lemma wf_chain (h : list layer) : wf h →
  ∀ r, (r < length h)%nat → ∃ n, (n ≤ S r)%nat ∧ chain h n r.
Proof.
  intros Hwf r. induction r as [r IH] using lt_wf_ind. intros Hlt.
  destruct (lookup_lt_is_Some_2 h r Hlt) as [[dl|df] Hl].
  - exists 0%nat. split; [lia|]. by exists dl.
  - destruct (Hwf _ _ Hl) as [Hp|Hp].
    + destruct (IH _ Hp) as (n & Hn & Hc); [lia|].
      exists (S n). split; [lia|]. by exists df.
    + exists 1%nat. split; [lia|]. by exists df.
Qed.

Lemma chain_functional (h : list layer) n : ∀ m r, chain h n r → chain h m r → n = m.
Proof.
  induction n as [|n IH]; intros [|m] r Hn Hm; cbn in *; try done.
  - destruct Hn as [? ?], Hm as (? & ? & _). congruence.
  - destruct Hm as [? ?], Hn as (? & ? & _). congruence.
  - destruct Hn as (d1 & H1 & Hn), Hm as (d2 & H2 & Hm).
    assert (d1 = d2) as -> by congruence. f_equal. by eapply IH.
Qed.

End store_props.

(** ** What the operations do to the store *)

Section op_props.
Context `{Codec} `{Backend}.

Lemma frame_refl (st : State) : frame st st.
Proof. split; [apply evolveD_refl|done]. Qed.

Lemma frame_trans (st1 st2 st3 : State) : frame st1 st2 → frame st2 st3 → frame st1 st3.
Proof. intros [E1 T1] [E2 T2]. split; [by eapply evolveD_trans|congruence]. Qed.

Lemma frame_setWorld (st : State) w : frame st (setWorld st w).
Proof. split; [apply evolveD_refl|done]. Qed.

(** Case analysis on the innermost scrutinee of the goal. *)
Ltac case_scrut :=
  match goal with
  | |- context [match ?x with _ => _ end] =>
      lazymatch x with
      | context [match _ with _ => _ end] => fail
      | _ => destruct x eqn:?
      end
  end.

Lemma lookup_snoc_length {A} (l : list A) x : (l ++ [x]) !! length l = Some x.
Proof. by rewrite lookup_app_r, Nat.sub_diag. Qed.

Lemma commit_frame (st : State) r freezer stateHistory statelimit bottom force :
  post (commit r freezer stateHistory statelimit bottom force st)
    (λ nr st', frame st st' ∧
       ∃ bdf ndl, heap st !! bottom = Some (DiffLayer bdf) ∧
                  heap st' !! nr = Some (DiskLayer ndl) ∧
                  dl_root ndl = df_root bdf ∧ dl_diffid ndl = df_diffid bdf ∧
                  dl_stale ndl = false)
    (frame st).
Proof.
  unfold commit. unfold bind at 1, readLayer at 1.
  destruct (heap st !! r) as [[dl|?]|] eqn:Hr; [|done|done].
  unfold bind at 1, writeLayer. unfold bind at 1, readLayer. cbn [heap setHeap].
  destruct (decide (r = bottom)) as [<-|Hne].
  { rewrite list_lookup_insert_eq by (by eapply lookup_lt_Some). done. }
  rewrite list_lookup_insert_ne by done.
  destruct (heap st !! bottom) as [[?|bdf]|] eqn:Hb; [done| |done].
  assert (evolveD (heap st) (<[r:=DiskLayer (staleDisk dl)]> (heap st))) as E1.
  { by apply evolveD_insert_disk with dl. }
  unfold bind, liftW, alloc, ret, get, storeStateHistory, modify, panic.
  repeat (case_scrut; cbn [post heap tree world setHeap setWorld]; try done).
  all: try (split; [exact E1|done]).
  all: try (split; [eapply evolveD_trans; [exact E1|apply evolveD_alloc_disk]|done]).
  all: split; [split; [eapply evolveD_trans; [exact E1|apply evolveD_alloc_disk]|done]|].
  all: eexists _, _; split; [reflexivity|]; split; [apply lookup_snoc_length|done].
Qed.

Lemma post_impl {A} (o : outcome State A) (Q Q' : A → State → Prop) (F F' : State → Prop) :
  post o Q F → (∀ a s, Q a s → Q' a s) → (∀ s, F s → F' s) → post o Q' F'.
Proof. destruct o; cbn; auto. Qed.

Lemma setParent_unfold r p (st : State) :
  setParent r p st
  = match heap st !! r with
    | Some (DiffLayer df) =>
        Ret tt (setHeap st (<[r := DiffLayer (withParent df p)]> (heap st)))
    | Some (DiskLayer _) => Crash "not a diff layer"
    | None => Crash "nil pointer dereference"
    end.
Proof.
  unfold setParent, bind, readLayer. by destruct (heap st !! r) as [[?|?]|].
Qed.

Lemma diffToDisk_unfold freezer stateHistory statelimit bottom force (st : State) :
  diffToDisk freezer stateHistory statelimit bottom force st
  = match heap st !! bottom with
    | Some (DiffLayer b) =>
        match heap st !! df_parent b with
        | Some (DiskLayer _) =>
            commit (df_parent b) freezer stateHistory statelimit bottom force st
        | _ => Crash "unknown layer type"
        end
    | Some (DiskLayer _) => Crash "not a diff layer"
    | None => Crash "nil pointer dereference"
    end.
Proof.
  unfold diffToDisk, bind, readLayer. by destruct (heap st !! bottom) as [[?|?]|].
Qed.

Lemma persistFrom_S fuel freezer stateHistory statelimit r force (st : State) :
  persistFrom (S fuel) freezer stateHistory statelimit r force st
  = match heap st !! r with
    | Some (DiffLayer rdf) =>
        match heap st !! df_parent rdf with
        | Some (DiffLayer _) =>
            match persistFrom fuel freezer stateHistory statelimit (df_parent rdf) force st with
            | Ret result st1 =>
                match setParent r result st1 with
                | Ret _ st2 => diffToDisk freezer stateHistory statelimit r force st2
                | Fail e s => Fail e s
                | Crash msg => Crash msg
                | Timeout => Timeout
                end
            | Fail e s => Fail e s
            | Crash msg => Crash msg
            | Timeout => Timeout
            end
        | _ => diffToDisk freezer stateHistory statelimit r force st
        end
    | Some (DiskLayer _) => Crash "not a diff layer"
    | None => Crash "nil pointer dereference"
    end.
Proof.
  cbn [persistFrom]. unfold bind at 1, readLayer at 1.
  destruct (heap st !! r) as [[?|rdf]|]; try done. cbn [layerParent].
  unfold bind at 1.
  destruct (heap st !! df_parent rdf) as [[?|?]|]; try done.
  unfold bind at 1.
  destruct (persistFrom fuel _ _ _ _ _ st) as [result st1|?|?|]; try done.
Qed.

Lemma diffToDisk_frame (st : State) freezer stateHistory statelimit bottom force :
  post (diffToDisk freezer stateHistory statelimit bottom force st)
    (λ nr st', frame st st' ∧ flattened st bottom nr st') (frame st).
Proof.
  rewrite diffToDisk_unfold.
  destruct (heap st !! bottom) as [[?|b]|]; try done.
  destruct (heap st !! df_parent b) as [[?|?]|]; try done.
  apply commit_frame.
Qed.

Lemma setParent_frame (st : State) r p (df : diffLayer) :
  heap st !! r = Some (DiffLayer df) → isDisk (heap st) p →
  frame st (setHeap st (<[r := DiffLayer (withParent df p)]> (heap st))).
Proof.
  intros Hr Hp. split; [|done]. cbn. apply evolveD_insert_diff with df; auto.
Qed.

Lemma persistFrom_frame fuel freezer stateHistory statelimit force : ∀ (st : State) r,
  post (persistFrom fuel freezer stateHistory statelimit r force st)
    (λ base st', frame st st' ∧ flattened st r base st') (frame st).
Proof.
  induction fuel as [|fuel IH]; intros st r; [done|].
  rewrite persistFrom_S.
  destruct (heap st !! r) as [[?|rdf]|] eqn:Hr; try done.
  destruct (heap st !! df_parent rdf) as [[?|?]|] eqn:Hp;
    try apply diffToDisk_frame.
  specialize (IH st (df_parent rdf)).
  destruct (persistFrom fuel _ _ _ _ _ st) as [result st1|e st1|?|]; try done.
  destruct IH as [F1 (pdf & ndl & _ & Hres & _)].
  rewrite setParent_unfold.
  pose proof F1 as [[(_ & _ & Hf) _] _].
  destruct (Hf _ _ Hr) as (rdf1 & Hr1 & Hroot1 & Hid1 & _). rewrite Hr1.
  set (st2 := setHeap st1 _).
  assert (frame st1 st2) as F2.
  { apply setParent_frame; [done|by exists ndl]. }
  eapply post_impl; [apply diffToDisk_frame|..].
  + intros nr st3 [F3 (bdf & ndl3 & Hb & Hn & Hroot & Hid & Hst)]. split.
    * eapply frame_trans; [exact F1|]. by eapply frame_trans.
    * exists rdf, ndl3. split; [done|]. split; [done|].
      assert (bdf = withParent rdf1 result) as ->.
      { subst st2. cbn in Hb.
        rewrite list_lookup_insert_eq in Hb by (by eapply lookup_lt_Some).
        congruence. }
      cbn in *. repeat split; congruence.
  + intros st3 F3. eapply frame_trans; [exact F1|]. by eapply frame_trans.
Qed.

Lemma sameLayers_frame (st st' : State) : sameLayers st st' → frame st st'.
Proof. intros [Hh Ht]. split; [rewrite Hh; apply evolveD_refl|done]. Qed.

Lemma frame_stepRel (st st' : State) : frame st st' → stepRel st st'.
Proof.
  intros [E T]. split; [apply E|]. intros [Hwf Hok]. split.
  - by eapply wf_evolveD.
  - eapply treeOk_sameOld; [exact Hok|apply E|done].
Qed.

Lemma stepRel_refl (st : State) : stepRel st st.
Proof. apply frame_stepRel, frame_refl. Qed.

Lemma stepRel_trans (st1 st2 st3 : State) :
  stepRel st1 st2 → stepRel st2 st3 → stepRel st1 st3.
Proof. intros [S1 I1] [S2 I2]. split; [by eapply sameOld_trans|auto]. Qed.

(** Lookups leave the layers and the tree alone. *)
Lemma nodeFrom_same fuel owner path hash : ∀ r depth (st : State),
  post (nodeFrom fuel r owner path hash depth st)
    (λ _ st', sameLayers st st') (sameLayers st).
Proof.
  induction fuel as [|fuel IH]; intros r depth st; [done|].
  cbn [nodeFrom]. unfold bind at 1, readLayer at 1.
  destruct (heap st !! r) as [[dl|df]|]; [|  |done].
  - unfold liftW. by destruct (diskLayer_node dl owner path hash depth (world st)).
  - destruct (df_stale df); [done|].
    destruct (df_nodes df !! owner ≫= _); [|apply IH].
    by destruct (bool_decide _).
Qed.

Lemma Node_same r owner path hash (st : State) :
  post (Node r owner path hash st) (λ _ st', sameLayers st st') (sameLayers st).
Proof.
  unfold Node, bind, snapshot_node.
  pose proof (nodeFrom_same (S (length (heap st))) owner path hash r 0 st) as Hn.
  destruct (nodeFrom _ _ _ _ _ _ st) as [[n|] st1|e st1|?|]; try done.
  cbn in *. by destruct (obj n).
Qed.

Lemma NodeBlob_same r owner path hash (st : State) :
  post (NodeBlob r owner path hash st) (λ _ st', sameLayers st st') (sameLayers st).
Proof.
  unfold NodeBlob, bind, snapshot_node.
  pose proof (nodeFrom_same (S (length (heap st))) owner path hash r 0 st) as Hn.
  destruct (nodeFrom _ _ _ _ _ _ st) as [[n|] st1|e st1|?|]; try done.
  cbn in *. by destruct (rlp n).
Qed.

Lemma setCacheSize_same r size (st : State) :
  post (setCacheSize r size st) (λ _ st', sameLayers st st') (sameLayers st).
Proof.
  unfold setCacheSize, bind, readLayer.
  destruct (heap st !! r) as [[dl|df]|]; try done.
  destruct (dl_stale dl); [done|]. unfold liftW.
  by destruct (dirty_setSize _ _ _ _ _ _).
Qed.

Lemma MarkStale_frame r (st : State) :
  post (MarkStale r st) (λ _ st', frame st st') (frame st).
Proof.
  unfold MarkStale, bind, readLayer.
  destruct (heap st !! r) as [[dl|df]|] eqn:Hr; try done.
  - destruct (dl_stale dl); [done|]. split; [|done].
    by apply evolveD_insert_disk with dl.
  - destruct (df_stale df); [done|]. split; [|done].
    apply evolveD_insert_diff with df; auto.
Qed.

Lemma revert_frame r diff diffid (st : State) :
  post (revert r diff diffid st) (λ _ st', frame st st') (frame st).
Proof.
  unfold revert. unfold bind at 1, readLayer at 1.
  destruct (heap st !! r) as [[dl|?]|] eqn:Hr; [|done|done].
  assert (evolveD (heap st) (<[r:=DiskLayer (staleDisk dl)]> (heap st))) as E1.
  { by apply evolveD_insert_disk with dl. }
  repeat case_bool_decide; try (apply frame_refl).
  unfold bind, liftW, alloc, writeLayer, get, ret.
  repeat (case_scrut; cbn [post heap tree world setHeap setWorld]; try done).
  all: try (split; [exact E1|done]).
  all: split; [eapply evolveD_trans; [exact E1|apply evolveD_alloc_disk]|done].
Qed.

(** [add] files a new diff layer, or refuses and changes nothing. *)
Lemma add_spec root parentRoot nodes (st : State) :
  post (add root parentRoot nodes st) (λ _ st', stepRel st st') (λ st', st' = st).
Proof.
  unfold add. case_bool_decide; [done|].
  unfold bind at 1, treeGet.
  destruct (tree st !! _) as [parent|] eqn:Hp; [|done].
  unfold bind at 1, ID, bind, readLayer, ret.
  destruct (heap st !! parent) as [pl|] eqn:Hpl; [|done].
  unfold Update, alloc. cbn [heap setHeap].
  unfold Root, bind, readLayer, ret. cbn [heap setHeap].
  rewrite lookup_snoc_length. cbn [post setLayer layerRoot newDiffLayer df_root].
  set (df := newDiffLayer parent _ _ nodes).
  split; [apply sameOld_app|].
  intros [Hwf Hok]. split; cbn.
  - apply wf_alloc_diff; [done|]. cbn. by eapply lookup_lt_Some.
  - intros k r. cbn. rewrite lookup_insert. case_decide as Hk.
    + intros [= <-]. exists (DiffLayer df). split; [apply lookup_snoc_length|].
      by subst k.
    + intros Hr. destruct (Hok _ _ Hr) as (l & Hl & Hroot). exists l.
      split; [|done]. rewrite lookup_app_l; [done|by eapply lookup_lt_Some].
Qed.

(** The removal only deletes entries of the [layers] map. *)

Lemma shrinks_bind {A B} (c : M removal A) (k : A → M removal B) :
  shrinks c → (∀ a, shrinks (k a)) → shrinks (bind c k).
Proof.
  intros Hc Hk st. unfold bind. specialize (Hc st).
  destruct (c st) as [a st1|e st1|?|]; try done.
  specialize (Hk a st1). destruct (k a st1); try done; by etrans.
Qed.

Lemma shrinks_ret {A} (a : A) : shrinks (ret a).
Proof. intros st. cbn. reflexivity. Qed.

Lemma shrinks_get : shrinks get.
Proof. intros st. cbn. reflexivity. Qed.

Lemma removeKids_shrinks (remove : Hash → M removal unit) kids :
  (∀ child, shrinks (remove child)) → shrinks (removeKids remove kids).
Proof.
  intros Hrem. induction kids as [|child kids IH]; cbn [removeKids].
  - apply shrinks_ret.
  - apply shrinks_bind; auto.
Qed.

Lemma removeFrom_shrinks fuel : ∀ root, shrinks (removeFrom fuel root).
Proof.
  induction fuel as [|fuel IH]; intros root; [by intros st|].
  cbn [removeFrom]. apply shrinks_bind.
  { intros st. cbn. apply delete_subseteq. }
  intros _. apply shrinks_bind; [apply shrinks_get|]. intros st1.
  apply shrinks_bind; [by apply removeKids_shrinks|].
  intros _ st. cbn. reflexivity.
Qed.

Lemma removeStale_shrinks fuel (h : list layer) entries :
  shrinks (removeStale fuel h entries).
Proof.
  induction entries as [|[root snap] entries IH]; cbn [removeStale].
  - apply shrinks_ret.
  - apply shrinks_bind; [apply shrinks_get|]. intros st1.
    apply shrinks_bind; [|done].
    destruct (bool_decide _); [|apply shrinks_ret].
    destruct (h !! snap) as [l|]; [|by intros st].
    destruct (layerStale l); [apply removeFrom_shrinks|apply shrinks_ret].
Qed.

Lemma dropStale_spec (st : State) :
  post (dropStale st)
    (λ _ st', world st' = world st ∧ heap st' = heap st ∧ tree st' ⊆ tree st)
    (λ _, False).
Proof.
  unfold dropStale. destruct (childrenIndex _ _) as [children|]; [|done].
  pose proof (removeStale_shrinks (S (size (tree st))) (heap st)
                (map_to_list (tree st)) (tree st, children)) as Hs.
  by destruct (removeStale _ _ _ _) as [? st'|? st'|?|].
Qed.

Lemma treeOk_subseteq (st st' : State) :
  treeOk st → heap st' = heap st → tree st' ⊆ tree st → treeOk st'.
Proof.
  intros Hok Hh Ht k r Hk. rewrite Hh. apply Hok.
  by eapply lookup_weaken.
Qed.

(** The walk down from the head changes nothing and does not fail. *)
Lemma dive_spec n : ∀ d (st : State),
  match dive n d st with
  | Ret (Some diff) st' => st' = st ∧ descends (heap st) n d diff
  | Ret None st' => st' = st ∧ (wf (heap st) → ∃ m, (m ≤ n)%nat ∧ chain (heap st) m d)
  | Fail _ _ => False
  | _ => True
  end.
Proof.
  induction n as [|n IH]; intros d st; [done|].
  cbn [dive]. unfold bind at 1, Parent, bind, readLayer, ret.
  destruct (heap st !! d) as [[dl|df]|] eqn:Hd; [| |done].
  - cbn. split; [done|]. intros _. exists 0%nat. split; [lia|]. by exists dl.
  - cbn [layerParent mbind option_bind].
    destruct (heap st !! df_parent df) as [[pdl|pdf]|] eqn:Hp.
    + split; [done|]. intros _. exists 1%nat. split; [lia|].
      exists df. split; [done|]. by exists pdl.
    + specialize (IH (df_parent df) st).
      destruct (dive n (df_parent df) st) as [[diff|] st'|?|?|]; try done.
      * destruct IH as [-> Hdesc]. split; [done|]. by exists df.
      * destruct IH as [-> Hc]. split; [done|]. intros Hwf.
        destruct (Hc Hwf) as (m & Hm & Hchain). exists (S m). split; [lia|].
        by exists df.
    + split; [done|]. intros Hwf. exfalso.
      destruct (Hwf _ _ Hd) as [Hlt|[? ?]]; [|congruence].
      apply lookup_lt_Some in Hd. apply lookup_ge_None in Hp. lia.
Qed.

Lemma persist_unfold freezer stateHistory statelimit r force (st : State) :
  persist freezer stateHistory statelimit r force st
  = persistFrom (length (heap st)) freezer stateHistory statelimit r force st.
Proof. done. Qed.

(** [cap] with [layers = 0] on the root of a diff layer. *)
Lemma cap_full_unfold (st : State) root freezer stateHistory statelimit snap sdf :
  tree st !! convertEmpty root = Some snap →
  heap st !! snap = Some (DiffLayer sdf) →
  cap root 0 freezer stateHistory statelimit st
  = match persistFrom (length (heap st)) freezer stateHistory statelimit snap true st with
    | Ret base st1 =>
        match heap st1 !! base with
        | Some l => Ret tt (setTree st1 {[ layerRoot l := base ]})
        | None => Crash "nil pointer dereference"
        end
    | Fail e s => Fail e s
    | Crash msg => Crash msg
    | Timeout => Timeout
    end.
Proof.
  intros Ht Hs. unfold cap. unfold bind at 1, treeGet.
  rewrite convertEmpty_idemp.
  rewrite Ht. unfold bind at 1, readLayer at 1. rewrite Hs.
  rewrite bool_decide_eq_true_2 by done.
  unfold bind at 1. rewrite persist_unfold.
  destruct (persistFrom _ _ _ _ _ _ st) as [base st1|?|?|]; try done.
  unfold Root, bind, readLayer, ret. by destruct (heap st1 !! base).
Qed.

(** [cap] with [layers ≠ 0] on the root of a diff layer. *)
Lemma cap_keep_unfold (st : State) root layers freezer stateHistory statelimit snap sdf :
  layers ≠ 0 →
  tree st !! convertEmpty root = Some snap →
  heap st !! snap = Some (DiffLayer sdf) →
  cap root layers freezer stateHistory statelimit st
  = match dive (Z.to_nat (layers - 1)) snap st with
    | Ret None st0 => Ret tt st0
    | Ret (Some diff) st0 =>
        match heap st0 !! diff with
        | Some (DiffLayer ddf) =>
            match heap st0 !! df_parent ddf with
            | Some (DiskLayer _) => Ret tt st0
            | Some (DiffLayer _) =>
                match persistFrom (length (heap st0)) freezer stateHistory statelimit
                        (df_parent ddf) false st0 with
                | Ret base st1 =>
                    match heap st1 !! base with
                    | Some l =>
                        match setParent diff base
                                (setTree st1 (<[layerRoot l := base]> (tree st1))) with
                        | Ret _ st2 => dropStale st2
                        | Fail e s => Fail e s
                        | Crash msg => Crash msg
                        | Timeout => Timeout
                        end
                    | None => Crash "nil pointer dereference"
                    end
                | Fail e s => Fail e s
                | Crash msg => Crash msg
                | Timeout => Timeout
                end
            | None => Crash "nil pointer dereference"
            end
        | Some (DiskLayer _) => Crash "unknown data layer in triedb"
        | None => Crash "nil pointer dereference"
        end
    | Fail e s => Fail e s
    | Crash msg => Crash msg
    | Timeout => Timeout
    end.
Proof.
  intros Hl Ht Hs. unfold cap. unfold bind at 1, treeGet.
  rewrite convertEmpty_idemp.
  rewrite Ht. unfold bind at 1, readLayer at 1. rewrite Hs.
  rewrite bool_decide_eq_false_2 by done.
  unfold bind at 1.
  destruct (dive _ snap st) as [[diff|] st0|?|?|]; try done.
  unfold bind at 1, Parent, bind, readLayer, ret.
  destruct (heap st0 !! diff) as [[?|ddf]|]; try done.
  cbn [layerParent].
  destruct (heap st0 !! df_parent ddf) as [[?|?]|]; try done.
  rewrite persist_unfold.
  destruct (persistFrom _ _ _ _ _ _ st0) as [base st1|?|?|]; try done.
  unfold Root, bind, readLayer, ret.
  by destruct (heap st1 !! base) as [l|].
Qed.

Lemma treeOk_insert (st : State) r l :
  treeOk st → heap st !! r = Some l →
  treeOk (setTree st (<[layerRoot l := r]> (tree st))).
Proof.
  intros Hok Hr k q. cbn. rewrite lookup_insert. case_decide as Hk.
  - intros [= <-]. exists l. by subst k.
  - apply Hok.
Qed.

Lemma treeOk_singleton (st : State) r l :
  heap st !! r = Some l → treeOk (setTree st {[ layerRoot l := r ]}).
Proof.
  intros Hr k q. cbn. intros [<- <-]%lookup_singleton_Some. by exists l.
Qed.

(** [cap], whatever it returns, keeps the store and the tree in order. *)
Lemma cap_spec root layers freezer stateHistory statelimit (st : State) :
  post (cap root layers freezer stateHistory statelimit st)
    (λ _ st', stepRel st st') (stepRel st).
Proof.
  destruct (tree st !! convertEmpty root) as [snap|] eqn:Ht.
  2: { unfold cap. unfold bind at 1, treeGet.
       rewrite convertEmpty_idemp.
       rewrite Ht. apply stepRel_refl. }
  destruct (heap st !! snap) as [[dl|sdf]|] eqn:Hs.
  - erewrite cap_on_disk by done. apply stepRel_refl.
  - destruct (decide (layers = 0)) as [->|Hl].
    + erewrite cap_full_unfold by done.
      pose proof (persistFrom_frame (length (heap st)) freezer stateHistory statelimit
                    true st snap) as HP.
      destruct (persistFrom _ _ _ _ _ _ st) as [base st1|e st1|?|]; try done.
      * destruct HP as [F1 (bdf & ndl & _ & Hbase & _)]. rewrite Hbase.
        split; [apply F1|]. intros [Hwf Hok]. split.
        -- eapply wf_evolveD; [exact Hwf|apply F1].
        -- by apply (treeOk_singleton st1 base (DiskLayer ndl)).
      * by apply frame_stepRel.
    + erewrite cap_keep_unfold by done.
      pose proof (dive_spec (Z.to_nat (layers - 1)) snap st) as HD.
      destruct (dive _ snap st) as [[diff|] st0|?|?|]; try done.
      2: { destruct HD as [-> _]. apply stepRel_refl. }
      destruct HD as [-> _].
      destruct (heap st !! diff) as [[?|ddf]|] eqn:Hdiff; try done.
      destruct (heap st !! df_parent ddf) as [[?|?]|] eqn:Hp; try done.
      { apply stepRel_refl. }
      pose proof (persistFrom_frame (length (heap st)) freezer stateHistory statelimit
                    false st (df_parent ddf)) as HP.
      destruct (persistFrom _ _ _ _ _ _ st) as [base st1|e st1|?|]; try done.
      2: { by apply frame_stepRel. }
      destruct HP as [F1 (bdf & ndl & _ & Hbase & _)]. rewrite Hbase.
      rewrite setParent_unfold. cbn [heap setTree].
      destruct (heap st1 !! diff) as [[?|ddf1]|] eqn:Hdiff1; try done.
      set (st2 := setHeap _ _).
      assert (evolveD (heap st1) (heap st2)) as E2.
      { subst st2. cbn. apply evolveD_insert_diff with ddf1; auto.
        right. by exists ndl. }
      pose proof (dropStale_spec st2) as HS.
      destruct (dropStale st2) as [[] st3|?|?|]; try done.
      destruct HS as (_ & Hh3 & Ht3).
      split.
      * rewrite Hh3. eapply sameOld_trans; [apply F1|apply E2].
      * intros [Hwf Hok]. split.
        -- rewrite Hh3. eapply wf_evolveD; [|exact E2].
           eapply wf_evolveD; [exact Hwf|apply F1].
        -- eapply treeOk_subseteq; [|exact Hh3|exact Ht3].
           eapply (treeOk_sameOld (setTree st1 (<[layerRoot (DiskLayer ndl):=base]> (tree st1))));
             [|apply E2|done].
           apply treeOk_insert; [|done].
           eapply treeOk_sameOld; [exact Hok|apply F1|apply F1].
  - unfold cap. unfold bind at 1, treeGet.
    rewrite convertEmpty_idemp.
    rewrite Ht. unfold bind at 1, readLayer at 1. by rewrite Hs.
Qed.

Lemma run_spec (c : call) (st : State) :
  post (run c st) (λ _ st', stepRel st st') (stepRel st).
Proof.
  destruct c as [root parentRoot nodes|root layers f sh lim|r|r diff diffid
                |r owner path hash|r owner path hash|r size]; cbn [run].
  - eapply post_impl; [apply add_spec|done|]. intros s ->. apply stepRel_refl.
  - apply cap_spec.
  - eapply post_impl; [apply MarkStale_frame|..]; auto using frame_stepRel.
  - unfold bind. pose proof (revert_frame r diff diffid st) as HR.
    destruct (revert r diff diffid st); try done; by apply frame_stepRel.
  - unfold bind. pose proof (Node_same r owner path hash st) as HN.
    destruct (Node r owner path hash st); try done;
      by apply frame_stepRel, sameLayers_frame.
  - unfold bind. pose proof (NodeBlob_same r owner path hash st) as HN.
    destruct (NodeBlob r owner path hash st); try done;
      by apply frame_stepRel, sameLayers_frame.
  - eapply post_impl; [apply setCacheSize_same|..];
      auto using frame_stepRel, sameLayers_frame.
Qed.

Lemma runs_stepRel (st st' : State) cs : runs st cs st' → stepRel st st'.
Proof.
  induction 1 as [st|st c st1 cs st2 Hc _ IH]; [apply stepRel_refl|].
  eapply stepRel_trans; [|exact IH].
  pose proof (run_spec c st) as Hr.
  destruct (run c st); cbn in Hc; try done; by injection Hc as ->.
Qed.

Lemma initial_Inv (st : State) : initial st → Inv st.
Proof.
  intros (dl & Hh & Ht). split.
  - intros r df. rewrite Hh. by destruct r as [|[|r]].
  - intros k r. rewrite Ht, Hh. intros [<- <-]%lookup_singleton_Some.
    by exists (DiskLayer dl).
Qed.

(** Every state that a sequence of calls reaches from the tree of a single
    disk layer is well-formed. *)
Lemma reachable_Inv (st0 st : State) cs : initial st0 → runs st0 cs st → Inv st.
Proof. intros Hi Hr. apply (runs_stepRel _ _ _ Hr), initial_Inv, Hi. Qed.

Lemma setWorld_id (st : State) : setWorld st (world st) = st.
Proof. by destruct st. Qed.

(** C2. Once the stale flag of a layer, disk or diff, is set, it stays set
    whatever is called afterwards ([Update], [cap], [MarkStale], [revert],
    lookups, [setCacheSize]), and from then on every [node], [Node] and
    [NodeBlob] on that layer returns the snapshot-stale error; [MarkStale] on
    it panics, so that the flag is set by [MarkStale] at most once. *)
Theorem stale_forever (st st' : State) cs r l :
  heap st !! r = Some l → layerStale l = true →
  runs st cs st' →
  ∃ l', heap st' !! r = Some l' ∧ layerStale l' = true ∧
        (∀ owner path hash depth,
           snapshot_node r owner path hash depth st' = Fail errSnapshotStale st') ∧
        (∀ owner path hash, Node r owner path hash st' = Fail errSnapshotStale st') ∧
        (∀ owner path hash, NodeBlob r owner path hash st' = Fail errSnapshotStale st') ∧
        (∃ msg, MarkStale r st' = Crash msg).
Proof.
  intros Hr Hs Hruns.
  destruct (runs_stepRel _ _ _ Hruns) as [(_ & Hd & Hf) _].
  assert (∃ l', heap st' !! r = Some l' ∧ layerStale l' = true) as (l' & Hr' & Hs').
  { destruct l as [dl|df].
    - destruct (Hd _ _ Hr) as (dl' & ? & _ & _ & ?). exists (DiskLayer dl'). auto.
    - destruct (Hf _ _ Hr) as (df' & ? & _ & _ & _ & ? & _). exists (DiffLayer df'). auto. }
  exists l'. split; [done|]. split; [done|].
  assert (∀ owner path hash depth,
            snapshot_node r owner path hash depth st' = Fail errSnapshotStale st') as Hn.
  { intros owner path hash depth. rewrite snapshot_node_unfold, Hr'.
    destruct l' as [dl'|df']; cbn in Hs'.
    - unfold liftW. rewrite diskLayer_node_stale by done. by rewrite setWorld_id.
    - by rewrite Hs'. }
  split; [exact Hn|]. split; [|split].
  - intros owner path hash. unfold Node, bind. by rewrite Hn.
  - intros owner path hash. unfold NodeBlob, bind. by rewrite Hn.
  - unfold MarkStale, bind, readLayer. rewrite Hr'.
    destruct l' as [dl'|df']; cbn in Hs'; rewrite Hs'; by eexists.
Qed.

(** ** Full commit *)

(** With a reliable backend, [commit] returns. *)
Lemma commit_ok (st : State) r (dl : diskLayer) bottom (bdf : diffLayer)
    freezer stateHistory statelimit force :
  Reliable →
  heap st !! r = Some (DiskLayer dl) →
  heap st !! bottom = Some (DiffLayer bdf) →
  df_parent bdf = r →
  (stateHistory = None ∨ ∃ blobs, newStateHistory (df_nodes bdf) = Value blobs) →
  ∃ nr st', commit r freezer stateHistory statelimit bottom force st = Ret nr st'.
Proof.
  intros (Hrd & Hdc & Hmf) Hr Hb Hpar Hhist. unfold commit.
  unfold bind at 1, readLayer at 1. rewrite Hr.
  unfold bind at 1, writeLayer. unfold bind at 1, readLayer. cbn [heap setHeap].
  assert (r ≠ bottom) as Hne by (intros ->; congruence).
  rewrite list_lookup_insert_ne by done. rewrite Hb.
  set (st1 := setHeap st _).
  assert (∃ st2, (match freezer with
                  | Some fr =>
                      let* st := get in
                      liftW (storeReverseDiff fr (baseRoot (heap st) bdf) (df_root bdf)
                               (df_diffid bdf) (df_nodes bdf) statelimit)
                  | None => ret tt
                  end) st1 = Ret tt st2) as [st2 E2].
  { destruct freezer as [fr|]; [|by eexists]. unfold bind, get, liftW.
    assert (baseRoot (heap st1) bdf = Some (dl_root dl)) as ->.
    { subst st1. cbn. erewrite baseRoot_stale by done.
      unfold baseRoot. by rewrite Hpar, Hr. }
    destruct (Hrd fr (dl_root dl) (df_root bdf) (df_diffid bdf) (df_nodes bdf)
                statelimit (world st1)) as [w' ->]. by eexists. }
  unfold bind at 1. rewrite E2.
  assert (∃ st3, (match stateHistory with
                  | Some sh => liftW (storeStateHistory sh bdf)
                  | None => ret tt
                  end) st2 = Ret tt st3) as [st3 E3].
  { destruct stateHistory as [sh|]; [|by eexists].
    destruct Hhist as [?|[blobs Hblobs]]; [done|].
    unfold liftW, storeStateHistory. rewrite Hblobs. by eexists. }
  unfold bind at 1. rewrite E3.
  unfold bind at 1, liftW at 1.
  destruct (Hdc (dl_dirty dl)
              ((λ subset : gmap string nodeWithPrev, unwrap <$> subset) <$> df_nodes bdf)
              (world st3)) as (c' & w4 & ->).
  unfold bind at 1, alloc. unfold bind at 1, liftW.
  cbn [world setHeap setWorld].
  match goal with
  | |- context [dirty_mayFlush ?c ?db ?cl ?id ?fo ?w] =>
      destruct (Hmf c db cl id fo w) as [w5 ->]
  end.
  by eexists _, _.
Qed.

(** With a reliable backend, [persist] flattens a whole chain. *)
Lemma persistFrom_ok freezer stateHistory statelimit force n : ∀ (st : State) r fuel,
  Reliable → historyReady stateHistory (heap st) →
  chain (heap st) (S n) r → (n < fuel)%nat →
  ∃ base st', persistFrom fuel freezer stateHistory statelimit r force st = Ret base st'.
Proof.
  induction n as [|n IH]; intros st r fuel Hrel Hhist (rdf & Hr & Hc) Hfuel;
    (destruct fuel as [|fuel]; [lia|]); rewrite persistFrom_S, Hr.
  - destruct Hc as [pdl Hp]. rewrite Hp. rewrite diffToDisk_unfold, Hr, Hp.
    eapply (commit_ok _ (df_parent rdf) pdl r rdf); try done.
    destruct Hhist as [?|Hh]; [by left|right; by eapply Hh].
  - pose proof Hc as (pdf & Hp & _). rewrite Hp.
    destruct (IH st (df_parent rdf) fuel Hrel Hhist Hc) as (base & st1 & E1); [lia|].
    pose proof (persistFrom_frame fuel freezer stateHistory statelimit force st
                  (df_parent rdf)) as HP.
    rewrite E1 in HP |- *. destruct HP as [F1 (_ & ndl & _ & Hbase & _)].
    rewrite setParent_unfold.
    pose proof F1 as [[(_ & _ & Hf) _] _].
    destruct (Hf _ _ Hr) as (rdf1 & Hr1 & _ & _ & Hnodes & _). rewrite Hr1.
    rewrite diffToDisk_unfold. cbn [heap setHeap].
    rewrite list_lookup_insert_eq by (by eapply lookup_lt_Some).
    cbn [withParent df_parent].
    assert (r ≠ base) as Hne by (intros ->; congruence).
    rewrite list_lookup_insert_ne by done. rewrite Hbase.
    eapply (commit_ok _ base ndl r (withParent rdf1 base)); try done.
    + cbn. by rewrite list_lookup_insert_ne.
    + cbn. apply list_lookup_insert_eq. by eapply lookup_lt_Some.
    + cbn. rewrite Hnodes.
      destruct Hhist as [?|Hh]; [by left|right; by eapply Hh].
Qed.

(** [cap] with [layers = 0] on any root that is filed with a diff layer. *)
Lemma cap_full_ok (st : State) root freezer stateHistory statelimit snap sdf :
  Inv st → Reliable → historyReady stateHistory (heap st) →
  tree st !! convertEmpty root = Some snap →
  heap st !! snap = Some (DiffLayer sdf) →
  ∃ st' base ndl,
    cap root 0 freezer stateHistory statelimit st = Ret tt st' ∧
    tree st' = {[ convertEmpty root := base ]} ∧
    heap st' !! base = Some (DiskLayer ndl) ∧
    dl_root ndl = convertEmpty root ∧ dl_stale ndl = false.
Proof.
  intros [Hwf Hok] Hrel Hhist Ht Hs.
  erewrite cap_full_unfold by done.
  destruct (wf_chain _ Hwf snap) as (n & Hn & Hc); [by eapply lookup_lt_Some|].
  destruct n as [|n]; [destruct Hc; congruence|].
  assert (snap < length (heap st))%nat by (by eapply lookup_lt_Some).
  destruct (persistFrom_ok freezer stateHistory statelimit true n st snap
              (length (heap st)) Hrel Hhist Hc) as (base & st1 & E1); [lia|].
  pose proof (persistFrom_frame (length (heap st)) freezer stateHistory statelimit
                true st snap) as HP.
  rewrite E1 in HP |- *.
  destruct HP as [F1 (bdf & ndl & Hb & Hbase & Hroot & _ & Hstale)].
  rewrite Hbase. cbn [layerRoot].
  assert (bdf = sdf) as -> by congruence.
  destruct (Hok _ _ Ht) as (l & Hl & Hlr).
  assert (l = DiffLayer sdf) as -> by congruence. cbn in Hlr.
  exists (setTree st1 {[ dl_root ndl := base ]}), base, ndl.
  repeat split; cbn; congruence.
Qed.

(** A successful [add] files a new diff layer under the normalized root. *)
Lemma add_ret root parentRoot nodes (st st' : State) :
  add root parentRoot nodes st = Ret tt st' →
  ∃ snap df, tree st' !! convertEmpty root = Some snap ∧
             heap st' !! snap = Some (DiffLayer df).
Proof.
  unfold add. case_bool_decide; [done|].
  unfold bind at 1, treeGet.
  destruct (tree st !! _) as [parent|]; [|done].
  unfold bind at 1, ID, bind, readLayer, ret.
  destruct (heap st !! parent) as [pl|]; [|done].
  unfold Update, alloc. cbn [heap setHeap].
  unfold Root, bind, readLayer, ret. cbn [heap setHeap].
  rewrite lookup_snoc_length. cbn [setLayer layerRoot newDiffLayer df_root].
  intros [= <-]. eexists _, _. cbn. split; [apply lookup_insert_eq|].
  apply lookup_snoc_length.
Qed.

(** C1. Take the tree of a single disk layer, any sequence of calls on it
    that return, and then a successful [Update] that makes [root] the head.
    With a backend whose freezer appends, cache commits and flushes succeed
    (and, if a state-history freezer is attached, diff layers whose history
    can be built), [cap(root, 0)], that is [Commit(root)], succeeds, and
    afterwards the tree has exactly one layer: a live disk layer whose root
    is [root], the empty hash being normalized to [emptyRoot]. *)
Theorem commit_leaves_one_layer (st0 st1 st : State) cs root parentRoot nodes
    freezer stateHistory statelimit :
  initial st0 → runs st0 cs st1 →
  add root parentRoot nodes st1 = Ret tt st →
  Reliable → historyReady stateHistory (heap st) →
  ∃ st' base ndl,
    cap root 0 freezer stateHistory statelimit st = Ret tt st' ∧
    treeLen st' = 1%nat ∧
    tree st' !! convertEmpty root = Some base ∧
    heap st' !! base = Some (DiskLayer ndl) ∧
    dl_root ndl = convertEmpty root ∧ dl_stale ndl = false.
Proof.
  intros Hi Hruns Hadd Hrel Hhist.
  assert (Inv st) as HInv.
  { pose proof (reachable_Inv _ _ _ Hi Hruns) as HI1.
    pose proof (add_spec root parentRoot nodes st1) as HA. rewrite Hadd in HA.
    by apply HA. }
  destruct (add_ret _ _ _ _ _ Hadd) as (snap & sdf & Ht & Hs).
  destruct (cap_full_ok st root freezer stateHistory statelimit snap sdf
              HInv Hrel Hhist Ht Hs) as (st' & base & ndl & Hcap & Htree & Hbase & Hroot & Hst).
  exists st', base, ndl. split; [done|]. split.
  { unfold treeLen. rewrite Htree. apply map_size_singleton. }
  split; [rewrite Htree; apply lookup_singleton_eq|done].
Qed.

(** ** Partial cap *)




End op_props.

(** ** The theorems on the in-memory backend *)

Lemma memBackend_Reliable : @Reliable (memBackend false).
Proof.
  repeat split.
  - intros. by eexists.
  - intros. by eexists _, _.
  - intros c db clean id [] w; by eexists.
Qed.

(** C1 on the tree of [exState0], after one [Update] with root 101. *)
Lemma commit_leaves_one_layer_witness :
  ∃ st' base ndl,
    @cap memCodec (memBackend false) 101 0 (Some tt) None 0
      (@exec memCodec (memBackend false) (CallUpdate 101 100 ∅) (exState0 false))
    = Ret tt st' ∧
    treeLen st' = 1%nat ∧
    tree st' !! convertEmpty 101 = Some base ∧
    heap st' !! base = Some (DiskLayer ndl) ∧
    dl_root ndl = convertEmpty 101 ∧ dl_stale ndl = false.
Proof.
  apply (@commit_leaves_one_layer memCodec (memBackend false)
           (exState0 false) (exState0 false)
           (@exec memCodec (memBackend false) (CallUpdate 101 100 ∅) (exState0 false))
           [] 101 100 ∅ (Some tt) None 0).
  - by exists (exDisk false).
  - constructor.
  - reflexivity.
  - exact memBackend_Reliable.
  - by left.
Defined.

(** C2 on [exStale]: the disk layer is stale, a diff layer is added above the
    other one, and the lookups on the disk layer fail. *)
Lemma stale_forever_witness :
  ∃ l', heap (@exec memCodec (memBackend false) (CallUpdate 102 101 ∅) exStale) !! 0%nat
        = Some l' ∧ layerStale l' = true.
Proof.
  destruct (@stale_forever memCodec (memBackend false) exStale
              (@exec memCodec (memBackend false) (CallUpdate 102 101 ∅) exStale)
              [CallUpdate 102 101 ∅] 0%nat (DiskLayer (staleDisk (exDisk false))))
    as (l' & Hl & Hs & _).
  - reflexivity.
  - reflexivity.
  - econstructor; [reflexivity|constructor].
  - by exists l'.
Defined.



(* ===================================================================== *)
(** * Further properties *)

(** ** Node sets *)

#[global] Instance path_le_antisymm : AntiSymm (=) path_le.
Proof. intros ????. by apply path_le_antisym. Qed.
#[global] Instance path_ge_transitive : Transitive path_ge.
Proof. intros a b c Hab Hbc. unfold path_ge in *. by eapply path_le_trans. Qed.
#[global] Instance path_ge_total : Total path_ge.
Proof. intros a b. unfold path_ge. destruct (path_le_total a b); auto. Qed.
#[global] Instance path_ge_antisymm : AntiSymm (=) path_ge.
Proof. intros a b Hab Hba. unfold path_ge in *. by apply path_le_antisym. Qed.

Lemma orderedPaths_reverse (nodes : gmap string nodeWithPrev) :
  orderedPaths false nodes = reverse (orderedPaths true nodes).
Proof.
  unfold orderedPaths.
  apply (Sorted_unique path_ge).
  - apply Sorted_merge_sort, _.
  - apply (Sorted_reverse path_le). apply Sorted_merge_sort, _.
  - by rewrite reverse_Permutation, !merge_sort_Permutation.
Qed.

Lemma fold_left_log {A B} (f : A → B) (l : list A) : ∀ acc,
  fold_left (λ log x, log ++ [f x]) l acc = acc ++ map f l.
Proof.
  induction l as [|x l IH]; intros acc; cbn.
  - by rewrite app_nil_r.
  - rewrite IH. by rewrite <- app_assoc.
Qed.

Lemma StronglySorted_lt_index l : StronglySorted path_lt l →
  ∀ i j p q, l !! i = Some p → l !! j = Some q → path_lt p q → (i < j)%nat.
Proof.
  induction 1 as [|x tl Hs IH Hx]; intros i j p q Hi Hj Hlt; [done|].
  destruct i as [|i], j as [|j]; cbn in Hi, Hj.
  - injection Hi as ->. injection Hj as ->. by apply path_lt_irrefl in Hlt.
  - lia.
  - injection Hj as ->. apply list_elem_of_lookup_2 in Hi.
    eapply Forall_forall in Hx; [|exact Hi].
    exfalso. eapply path_lt_irrefl, path_lt_trans; [exact Hx|exact Hlt].
  - apply (IH i j p q) in Hlt; [lia|done|done].
Qed.

Section nodeset_props.
Context {leaf : Type}.
Implicit Types set : NodeSet leaf.

(** The pairs [forEachWithOrder] hands to the callback, in order. *)
Lemma forEachWithOrder_log set topToBottom :
  forEachWithOrder set topToBottom (λ p n log, log ++ [(p, n)]) []
  = map (λ p, (p, ns_nodes set !! p)) (orderedPaths topToBottom (ns_nodes set)).
Proof. unfold forEachWithOrder. by rewrite (fold_left_log (λ p, (p, ns_nodes set !! p))). Qed.

(** X1. From top to bottom, [forEachWithOrder] calls the callback exactly on
    the dirty nodes of the set, each with its own path, once, in strictly
    ascending order of the paths; so a node is visited before every node
    whose path extends its path (parents before children). *)
Theorem forEachWithOrder_top_down set :
  let log := forEachWithOrder set true (λ p n log, log ++ [(p, n)]) [] in
  (∀ p n, (p, n) ∈ log ↔ ∃ x, n = Some x ∧ ns_nodes set !! p = Some x) ∧
  StronglySorted path_lt log.*1 ∧
  (∀ i j p q, log.*1 !! i = Some p → log.*1 !! j = Some q →
              strictPrefix p q → (i < j)%nat).
Proof.
  cbn zeta. rewrite forEachWithOrder_log.
  assert (Hfst : (map (λ p, (p, ns_nodes set !! p)) (orderedPaths true (ns_nodes set))).*1
                 = sortedPaths (ns_nodes set)).
  { unfold orderedPaths, sortedPaths.
    generalize (merge_sort path_le (map fst (map_to_list (ns_nodes set)))).
    intros l. induction l as [|x l IH]; [done|]. cbn. by rewrite <- IH at 2. }
  rewrite Hfst. split; [|split].
  - intros p n. rewrite list_elem_of_fmap. split.
    + intros (q & [= -> ->] & Hin).
      apply (sortedPaths_elem_of (ns_nodes set)) in Hin as [x Hx].
      exists x. by rewrite Hx.
    + intros (x & -> & Hx). exists p. rewrite Hx. split; [done|].
      apply (sortedPaths_elem_of (ns_nodes set)). by exists x.
  - apply sortedPaths_sorted.
  - intros i j p q Hi Hj Hpq.
    eapply StronglySorted_lt_index; [apply sortedPaths_sorted|exact Hi|exact Hj|].
    by apply strictPrefix_path_lt.
Qed.

(** X2. From bottom to top, [forEachWithOrder] makes the same calls as from
    top to bottom, in the opposite order. *)
Theorem forEachWithOrder_bottom_up set :
  forEachWithOrder set false (λ p n log, log ++ [(p, n)]) []
  = reverse (forEachWithOrder set true (λ p n log, log ++ [(p, n)]) []).
Proof.
  rewrite !forEachWithOrder_log, orderedPaths_reverse.
  generalize (orderedPaths true (ns_nodes set)). intros l.
  induction l as [|x l IH]; [done|].
  cbn [map]. rewrite !reverse_cons, <- IH.
  by rewrite map_app.
Qed.

(** X3. [Merge] never overwrites: merging a node set whose owner is already
    in the merged set is an error that leaves the merged set as it was, and
    merging one with a new owner adds the nodes of that set under the owner in
    the two-dimensional map of [simplify], next to the entries that were
    there. *)
Theorem Merge_keeps_first (other : NodeSet leaf) (set : MergedNodeSet leaf) :
  match Merge other set with
  | Ret _ set' =>
      sets set !! ns_owner other = None ∧
      simplify set' = <[ns_owner other := ns_nodes other]> (simplify set)
  | Fail _ set' => set' = set ∧ is_Some (simplify set !! ns_owner other)
  | _ => False
  end.
Proof.
  unfold Merge, simplify. case_bool_decide as Hin.
  - split; [done|]. rewrite lookup_fmap. destruct Hin as [x ->]. by eexists.
  - cbn. split; [by apply eq_None_not_Some|]. by rewrite fmap_insert.
Qed.

Lemma NewWithNodeSet_sets (set : NodeSet leaf) :
  NewWithNodeSet set = {| sets := {[ ns_owner set := set ]} |}.
Proof.
  unfold NewWithNodeSet, Merge, NewMergedNodeSet. cbn [sets].
  rewrite bool_decide_eq_false_2 by (rewrite lookup_empty; intros [? ?]; done).
  by rewrite insert_empty.
Qed.

(** A merged set made of one node set by [NewWithNodeSet] simplifies to the
    map with the nodes of that set under its owner and nothing else, and
    merging any other set of the same owner into it is refused. *)
Lemma NewWithNodeSet_simplify (set : NodeSet leaf) nodes leaves :
  simplify (NewWithNodeSet set) = {[ ns_owner set := ns_nodes set ]} ∧
  ∃ e, Merge {| ns_owner := ns_owner set; ns_nodes := nodes; ns_leaves := leaves |}
         (NewWithNodeSet set)
       = Fail e (NewWithNodeSet set).
Proof.
  rewrite NewWithNodeSet_sets. split.
  - unfold simplify. cbn. by rewrite map_fmap_singleton.
  - unfold Merge. cbn [sets ns_owner].
    rewrite bool_decide_eq_true_2 by (rewrite lookup_singleton_eq; by eexists).
    by eexists.
Qed.

(** X28. [Hashes] returns one hash per dirty node of the set, deleted nodes
    included: a hash is in the list exactly when it is the hash of a node of
    the set, and a node marked as deleted contributes the zero hash.
    Marking a path as deleted adds one to [Size] only when the path was not
    in the set before. *)
Theorem Hashes_of_nodes set :
  length (Hashes set) = Size set ∧
  (∀ h, h ∈ Hashes set ↔
        ∃ path n, ns_nodes set !! path = Some n ∧ mn_hash (nwp_node n) = h) ∧
  ∀ path prev,
    zeroHash ∈ Hashes (NodeSet_markDeleted path prev set) ∧
    Size (NodeSet_markDeleted path prev set)
    = match ns_nodes set !! path with Some _ => Size set | None => S (Size set) end.
Proof.
  unfold Hashes, Size. split; [|split].
  - by rewrite length_map, length_map_to_list.
  - intros h. rewrite list_elem_of_fmap. split.
    + intros ([path n] & -> & Hin%elem_of_map_to_list). by exists path, n.
    + intros (path & n & Hn & <-). exists (path, n). split; [done|].
      by apply elem_of_map_to_list.
  - intros path prev. cbn [ns_nodes NodeSet_markDeleted]. unfold markDeleted. split.
    + apply list_elem_of_fmap.
      exists (path, {| nwp_node := emptyMemoryNode; nwp_prev := prev |}).
      split; [done|]. apply elem_of_map_to_list, lookup_insert_eq.
    + destruct (ns_nodes set !! path) eqn:Hp.
      * by apply map_size_insert_Some.
      * by apply map_size_insert_None.
Qed.

End nodeset_props.

(** ** Resolving the leaves of a tip node *)

Section resolve_props.
Context `{Codec}.

Lemma ignoreErr_no_fail {S} (c : M S unit) s :
  match ignoreErr c s with Fail _ _ => False | _ => True end.
Proof. unfold ignoreErr. by destruct (c s). Qed.

(** X4. [resolve] reports an error only for a short node whose key has no
    terminator, and then the callback has not been called; the errors of the
    recursive calls below a full node are dropped, so a full node never
    yields an error, whatever its children are. *)
Theorem resolve_error_only_at_top {S} (callback : bytes → bytes → S → S)
    (pre : bytes) (n : node) (s : S) :
  match resolve callback pre n s with
  | Fail _ s' => s' = s ∧ ∃ key val, n = shortNode key val ∧ hasTerm key = false
  | _ => True
  end.
Proof.
  destruct n as [|key val|children| | |]; try exact I.
  - cbn [resolve]. destruct (hasTerm key) eqn:Hterm; cbn [negb].
    + destruct (hexToKeybytes (pre ++ key)); [|exact I].
      by destruct val.
    + cbn. split; [done|]. by exists key, val.
  - cbn [resolve].
    match goal with
    | |- match ?f 0 children s with _ => _ end =>
        assert (Hloop : ∀ cs i s0, match f i cs s0 with Fail _ _ => False | _ => True end)
    end.
    { induction cs as [|cn cs IH]; intros i s0; [exact I|].
      destruct (16 <=? i); [exact I|]. unfold bind at 1.
      destruct cn.
      1: { cbn. apply IH. }
      all: match goal with
           | |- context [ignoreErr ?c ?s1] =>
               pose proof (ignoreErr_no_fail c s1) as Hn;
               destruct (ignoreErr c s1); try done; apply IH
           end. }
    specialize (Hloop children 0 s).
    match goal with
    | |- match ?x with _ => _ end => by destruct x
    end.
Qed.

(** X5. Of a full node, [resolve] looks at the first sixteen children only:
    what sits in the seventeenth slot (the value slot) or beyond never
    reaches the callback. *)
Theorem resolve_ignores_value_slot {S} (callback : bytes → bytes → S → S)
    (pre : bytes) (children : list node) (s : S) :
  resolve callback pre (fullNode children) s
  = resolve callback pre (fullNode (take 16 children)) s.
Proof.
  cbn [resolve].
  match goal with
  | |- ?f 0 children s = _ =>
      assert (Hloop : ∀ cs i s0, 0 ≤ i ≤ 16 →
                f i cs s0 = f i (take (Z.to_nat (16 - i)) cs) s0)
  end.
  { induction cs as [|cn cs IH]; intros i s0 Hi; [by rewrite take_nil|].
    destruct (Z.to_nat (16 - i)) as [|k] eqn:Hk.
    - rewrite take_0. assert (i = 16) as -> by lia. done.
    - cbn [take]. assert ((16 <=? i) = false) as -> by lia.
      unfold bind.
      assert (Hk' : k = Z.to_nat (16 - (i + 1))) by lia.
      destruct cn; cbn [ret];
        try (rewrite Hk'; apply IH; lia);
        match goal with
        | |- context [ignoreErr ?c ?s1] =>
            destruct (ignoreErr c s1); try done; rewrite Hk'; apply IH; lia
        end. }
  apply (Hloop children 0 s). lia.
Qed.

End resolve_props.

(** ** The layout of the state history *)

Lemma u32_small z : 0 ≤ z < 2 ^ 32 → u32 z = z.
Proof. intros Hz. unfold u32. by apply Z.mod_small. Qed.

Lemma u32_add a b : u32 (u32 a + u32 b) = u32 (a + b).
Proof. unfold u32. by rewrite <- Zplus_mod. Qed.

Lemma u32_nat_add (a b : nat) :
  u32 (u32 (Z.of_nat a) + u32 (Z.of_nat b)) = u32 (Z.of_nat (a + b)).
Proof. by rewrite u32_add, Nat2Z.inj_add. Qed.

Lemma slice_middle {A} (pre x rest : list A) :
  slice (pre ++ x ++ rest) (Z.of_nat (length pre)) (Z.of_nat (length x)) = x.
Proof.
  unfold slice. rewrite !Nat2Z.id, drop_app_length.
  by rewrite take_app_length.
Qed.

Section history_props.
Context `{Codec}.

Lemma length_slotIndexesAt slots : ∀ base,
  length (slotIndexesAt base slots) = length slots.
Proof. induction slots as [|slot rest IH]; intros base; cbn; [done|]. by rewrite IH. Qed.

Lemma slotLoop_spec slots : ∀ idx data base,
  slotLoop slots (idx, data, u32 (Z.of_nat base))
  = (idx ++ slotIndexesAt base slots, data ++ slotBytes slots,
     u32 (Z.of_nat (base + length (slotBytes slots)))).
Proof.
  induction slots as [|slot rest IH]; intros idx data base.
  - cbn. by rewrite !app_nil_r, Nat.add_0_r.
  - cbn [slotLoop slotIndexesAt]. unfold lenU32 at 2. rewrite u32_nat_add.
    rewrite IH. unfold slotBytes. cbn [fmap list_fmap concat].
    rewrite length_app, !Nat.add_assoc, <- !app_assoc. done.
Qed.

Lemma newSlotIndex_spec base slots :
  newSlotIndex (u32 (Z.of_nat base)) slots
  = (slotIndexesAt base slots, slotBytes slots,
     u32 (Z.of_nat (base + length (slotBytes slots)))).
Proof. unfold newSlotIndex. by rewrite slotLoop_spec. Qed.

Lemma accountsLoop_spec leaves elements : ∀ out ad si sd,
  accountsLoop leaves elements
    {| ha_out := out; ha_accountOffset := u32 (Z.of_nat ad);
       ha_accountSlotOff := u32 (Z.of_nat si); ha_slotOffset := u32 (Z.of_nat sd) |}
  = {| hb_accountIndexes := hb_accountIndexes out ++ accountIndexesAt leaves ad si elements;
       hb_slotIndexes := hb_slotIndexes out ++ allSlotIndexesAt leaves sd elements;
       hb_accountData := hb_accountData out ++ concat (Prev <$> elements);
       hb_slotData := hb_slotData out
                      ++ concat ((λ e, slotBytes (slotsOf leaves e)) <$> elements) |}.
Proof.
  induction elements as [|e rest IH]; intros out ad si sd.
  - cbn. destruct out. cbn. by rewrite !app_nil_r.
  - cbn [accountsLoop ha_slotOffset ha_accountOffset ha_accountSlotOff ha_out].
    fold (slotsOf leaves e). rewrite newSlotIndex_spec.
    unfold lenU32 at 1 2. rewrite !u32_nat_add, length_slotIndexesAt.
    rewrite IH. cbn [hb_accountIndexes hb_slotIndexes hb_accountData hb_slotData].
    cbn [accountIndexesAt allSlotIndexesAt fmap list_fmap concat].
    unfold newAccountIndex. rewrite <- !app_assoc. cbn [app].
    unfold lenU32. by rewrite length_slotIndexesAt.
Qed.

Lemma accountIndexesAt_slice leaves elements : ∀ i e ad si (preA : bytes),
  length preA = ad →
  Z.of_nat (ad + length (concat (Prev <$> elements))) < 2 ^ 32 →
  elements !! i = Some e →
  ∃ a, accountIndexesAt leaves ad si elements !! i = Some a ∧
       ai_Hash a = BytesToHash (Key e) ∧
       slice (preA ++ concat (Prev <$> elements)) (ai_Offset a) (ai_Length a) = Prev e.
Proof.
  induction elements as [|e0 rest IH]; intros i e ad si preA Hlen Hb Hi; [done|].
  cbn [fmap list_fmap concat] in *. rewrite length_app in Hb.
  destruct i as [|i]; cbn in Hi.
  - injection Hi as ->. eexists. split; [reflexivity|]. cbn. split; [done|].
    unfold lenU32. rewrite !u32_small by lia. subst ad. apply slice_middle.
  - destruct (IH i e (ad + length (Prev e0))%nat (si + length (slotsOf leaves e0))%nat
                (preA ++ Prev e0)) as (a & Ha & Hh & Hs); [|lia|done|].
    { rewrite length_app. lia. }
    exists a. cbn. split; [done|]. split; [done|]. by rewrite <- app_assoc in Hs.
Qed.

Lemma slotIndexesAt_slices slots : ∀ base (preD rest : bytes),
  length preD = base →
  Z.of_nat (base + length (slotBytes slots)) < 2 ^ 32 →
  Forall2 (λ s slot, si_Hash s = BytesToHash (Key slot) ∧
                     slice (preD ++ slotBytes slots ++ rest) (si_Offset s) (si_Length s)
                     = Prev slot)
    (slotIndexesAt base slots) slots.
Proof.
  induction slots as [|slot slots IH]; intros base preD rest Hlen Hb; [constructor|].
  unfold slotBytes in *. cbn [fmap list_fmap concat] in *. rewrite length_app in Hb.
  cbn [slotIndexesAt]. constructor.
  - cbn. split; [done|]. unfold lenU32. rewrite !u32_small by lia.
    subst base. rewrite <- app_assoc. apply slice_middle.
  - specialize (IH (base + length (Prev slot))%nat (preD ++ Prev slot) rest).
    rewrite <- !app_assoc in IH |- *. apply IH; [|lia].
    rewrite length_app. lia.
Qed.

Lemma allSlotIndexesAt_slice leaves elements : ∀ i e ad si sd (preI : list slotIndex)
    (preD : bytes),
  length preI = si → length preD = sd →
  Z.of_nat (si + length (allSlotIndexesAt leaves sd elements)) < 2 ^ 32 →
  Z.of_nat (sd + length (concat ((λ e, slotBytes (slotsOf leaves e)) <$> elements)))
    < 2 ^ 32 →
  elements !! i = Some e →
  ∃ a, accountIndexesAt leaves ad si elements !! i = Some a ∧
       Forall2 (λ s slot, si_Hash s = BytesToHash (Key slot) ∧
                  slice (preD ++ concat ((λ e, slotBytes (slotsOf leaves e)) <$> elements))
                    (si_Offset s) (si_Length s) = Prev slot)
         (slice (preI ++ allSlotIndexesAt leaves sd elements)
            (ai_SlotOffset a) (ai_SlotNumber a))
         (slotsOf leaves e).
Proof.
  induction elements as [|e0 rest IH]; intros i e ad si sd preI preD HlI HlD HbI HbD Hi;
    [done|].
  cbn [fmap list_fmap concat allSlotIndexesAt] in *.
  rewrite length_app in HbI, HbD. rewrite length_slotIndexesAt in HbI.
  destruct i as [|i]; cbn in Hi.
  - injection Hi as ->. eexists. split; [reflexivity|]. cbn [ai_SlotOffset ai_SlotNumber].
    unfold lenU32. rewrite !u32_small by lia. subst si.
    rewrite <- (length_slotIndexesAt (slotsOf leaves e) sd).
    rewrite slice_middle. apply slotIndexesAt_slices; [done|lia].
  - destruct (IH i e (ad + length (Prev e0))%nat (si + length (slotsOf leaves e0))%nat
                (sd + length (slotBytes (slotsOf leaves e0)))%nat
                (preI ++ slotIndexesAt sd (slotsOf leaves e0))
                (preD ++ slotBytes (slotsOf leaves e0)))
      as (a & Ha & Hs); [| |lia|lia|done|].
    { rewrite length_app, length_slotIndexesAt. lia. }
    { rewrite length_app. lia. }
    exists a. cbn. split; [done|]. by rewrite <- !app_assoc in Hs.
Qed.

Lemma leavesLoop_spec owners : ∀ acc leaves,
  NoDup owners.*1 →
  leavesLoop owners acc = Value leaves →
  (∀ o subset, (o, subset) ∈ owners →
     ∃ els, prevLeaves subset = Value els ∧ leaves !! o = Some els) ∧
  (∀ o, o ∉ owners.*1 → leaves !! o = acc !! o).
Proof.
  induction owners as [|[o0 sub0] rest IH]; intros acc leaves Hnd Hl.
  - cbn in Hl. injection Hl as <-. split; [by intros ?? ?%elem_of_nil|done].
  - cbn [leavesLoop] in Hl. cbn in Hnd. apply NoDup_cons in Hnd as [Hnin Hnd].
    destruct (prevLeaves sub0) as [els0|] eqn:Hp; [|done].
    destruct (IH _ _ Hnd Hl) as [Hin Hout]. split.
    + intros o subset [[= -> ->]|Hm]%elem_of_cons; [|by apply Hin].
      exists els0. split; [done|]. rewrite (Hout o0 Hnin). by rewrite lookup_insert_eq.
    + intros o Ho. cbn in Ho. apply not_elem_of_cons in Ho as [Hne Ho].
      rewrite (Hout o Ho). by rewrite lookup_insert_ne.
Qed.

Lemma leavesLoop_panics owners : ∀ acc msg,
  leavesLoop owners acc = Panics msg →
  ∃ o subset, (o, subset) ∈ owners ∧ prevLeaves subset = Panics msg.
Proof.
  induction owners as [|[o0 sub0] rest IH]; intros acc msg Hl; [done|].
  cbn [leavesLoop] in Hl. destruct (prevLeaves sub0) as [els0|msg0] eqn:Hp.
  - destruct (IH _ _ Hl) as (o & subset & Hin & Hpan).
    exists o, subset. split; [by right|done].
  - injection Hl as <-. exists o0, sub0. split; [by left|done].
Qed.

Lemma collectLeaves_lookup (nodes : gmap Hash (gmap string nodeWithPrev)) :
  match collectLeaves nodes with
  | Value leaves =>
      ∀ o, leaves !! o
           = nodes !! o ≫= λ subset,
               match prevLeaves subset with Value els => Some els | Panics _ => None end
  | Panics msg =>
      ∃ o subset, nodes !! o = Some subset ∧ prevLeaves subset = Panics msg
  end.
Proof.
  unfold collectLeaves. destruct (leavesLoop (map_to_list nodes) ∅) as [leaves|msg] eqn:Hl.
  - apply leavesLoop_spec in Hl as [Hin Hout]; [|apply NoDup_fst_map_to_list].
    intros o. destruct (nodes !! o) as [subset|] eqn:Ho; cbn.
    + destruct (Hin o subset) as (els & -> & ->); [by apply elem_of_map_to_list|done].
    + rewrite Hout, lookup_empty; [done|].
      intros ([o' sub] & -> & Hm%elem_of_map_to_list)%list_elem_of_fmap.
      cbn in Ho. congruence.
  - apply leavesLoop_panics in Hl as (o & subset & Hin%elem_of_map_to_list & Hp).
    by exists o, subset.
Qed.

(** X6. The first loop of [newStateHistory] files, under every owner of the
    mutation set, the previous leaves of that owner's dirty nodes, and
    nothing under any other owner; it panics only when resolving the leaves
    of one of the owners panics. *)
Theorem collectLeaves_per_owner (nodes : gmap Hash (gmap string nodeWithPrev)) :
  match collectLeaves nodes with
  | Value leaves =>
      ∀ o, leaves !! o
           = nodes !! o ≫= λ subset,
               match prevLeaves subset with Value els => Some els | Panics _ => None end
  | Panics msg =>
      ∃ o subset, nodes !! o = Some subset ∧ prevLeaves subset = Panics msg
  end.
Proof. apply collectLeaves_lookup. Qed.

Lemma newStateHistory_layout nodes leaves :
  collectLeaves nodes = Value leaves →
  newStateHistory nodes
  = Value {| hb_accountIndexes :=
               accountIndexesAt leaves 0 0 (default [] (leaves !! zeroHash));
             hb_slotIndexes := allSlotIndexesAt leaves 0 (default [] (leaves !! zeroHash));
             hb_accountData := concat (Prev <$> default [] (leaves !! zeroHash));
             hb_slotData := concat ((λ e, slotBytes (slotsOf leaves e))
                                      <$> default [] (leaves !! zeroHash)) |}.
Proof.
  intros Hc. unfold newStateHistory. rewrite Hc. f_equal.
  change historyAcc0 with
    {| ha_out := mkHistory [] [] [] []; ha_accountOffset := u32 (Z.of_nat 0);
       ha_accountSlotOff := u32 (Z.of_nat 0); ha_slotOffset := u32 (Z.of_nat 0) |}.
  by rewrite accountsLoop_spec.
Qed.

Lemma accountIndexesAt_hashes leaves elements : ∀ ad si,
  ai_Hash <$> accountIndexesAt leaves ad si elements
  = (λ e, BytesToHash (Key e)) <$> elements.
Proof.
  induction elements as [|e rest IH]; intros ad si; [done|].
  cbn. by rewrite IH.
Qed.

(** X7. In its second revision, [newStateHistory] returns whenever the
    leaves can be collected, with one account index per previous leaf of the
    account trie, in the order of the leaves and carrying the hash of the
    leaf's key; the account data is the concatenation of the previous values
    of these leaves, and the slot data the concatenation, account by account,
    of the previous values of the leaves filed under the account's hash.
    Storage leaves of an owner that is no account of the list are left out. *)
Theorem newStateHistory_data nodes leaves :
  collectLeaves nodes = Value leaves →
  ∃ out, newStateHistory nodes = Value out ∧
    ai_Hash <$> hb_accountIndexes out
    = (λ e, BytesToHash (Key e)) <$> default [] (leaves !! zeroHash) ∧
    hb_accountData out = concat (Prev <$> default [] (leaves !! zeroHash)) ∧
    hb_slotData out
    = concat ((λ e, concat (Prev <$> default [] (leaves !! BytesToHash (Key e))))
                <$> default [] (leaves !! zeroHash)).
Proof.
  intros Hc. eexists. split; [by apply newStateHistory_layout|].
  cbn. split; [apply accountIndexesAt_hashes|done].
Qed.

(** X8. When the account data is shorter than 2^32 bytes, every account
    index of the second revision locates the previous value of its account
    in the account data: the bytes from its offset, as many as its length
    says, are the previous value of the leaf the index was made for. *)
Theorem newStateHistory_account_index nodes leaves out i e :
  collectLeaves nodes = Value leaves →
  newStateHistory nodes = Value out →
  Z.of_nat (length (hb_accountData out)) < 2 ^ 32 →
  default [] (leaves !! zeroHash) !! i = Some e →
  ∃ a, hb_accountIndexes out !! i = Some a ∧
       ai_Hash a = BytesToHash (Key e) ∧
       slice (hb_accountData out) (ai_Offset a) (ai_Length a) = Prev e.
Proof.
  intros Hc Hout Hb Hi. rewrite (newStateHistory_layout _ _ Hc) in Hout.
  injection Hout as <-. cbn in *.
  by apply (accountIndexesAt_slice leaves _ i e 0%nat 0%nat []).
Qed.

(** X9. When there are fewer than 2^32 slot indexes and bytes of slot data,
    the slot offset and slot number of every account index of the second
    revision delimit, in the list of slot indexes, the indexes of the
    account's own slots, in the order of the slots; each of them carries the
    hash of the slot's key and locates the slot's previous value in the slot
    data. *)
Theorem newStateHistory_slot_range nodes leaves out i e :
  collectLeaves nodes = Value leaves →
  newStateHistory nodes = Value out →
  Z.of_nat (length (hb_slotIndexes out)) < 2 ^ 32 →
  Z.of_nat (length (hb_slotData out)) < 2 ^ 32 →
  default [] (leaves !! zeroHash) !! i = Some e →
  ∃ a, hb_accountIndexes out !! i = Some a ∧
       Forall2 (λ s slot, si_Hash s = BytesToHash (Key slot) ∧
                  slice (hb_slotData out) (si_Offset s) (si_Length s) = Prev slot)
         (slice (hb_slotIndexes out) (ai_SlotOffset a) (ai_SlotNumber a))
         (default [] (leaves !! BytesToHash (Key e))).
Proof.
  intros Hc Hout HbI HbD Hi. rewrite (newStateHistory_layout _ _ Hc) in Hout.
  injection Hout as <-. cbn in *.
  by apply (allSlotIndexesAt_slice leaves _ i e 0%nat 0%nat 0%nat [] []).
Qed.

Lemma forEachTips_skip {S} (nodes : gmap string nodeWithPrev)
    (cb : string → option nodeWithPrev → M S unit) tips (s : S) :
  Forall (λ p, cb p (nodes !! p) s = Ret tt s) tips →
  forEachTips nodes cb tips s = Ret tt s.
Proof.
  induction 1 as [|p tips Hp _ IH]; [done|].
  cbn [forEachTips]. unfold bind. by rewrite Hp.
Qed.

Lemma prevLeaves_no_prev (subset : gmap string nodeWithPrev) :
  (∀ path n, subset !! path = Some n → nwp_prev n = []) →
  prevLeaves subset = Value [].
Proof.
  intros Hno. unfold prevLeaves, resolvePrevLeaves, forEachTipNode.
  rewrite forEachTips_skip; [done|].
  apply Forall_forall. intros p Hp.
  apply tipPaths_spec in Hp as [[n Hn] _]. rewrite Hn.
  by rewrite (Hno p n Hn).
Qed.

(** X10. A mutation set that only inserts nodes (no dirty node has a
    previous value) has an empty state history, in both revisions of
    [newStateHistory]: no index and no data. *)
Theorem newStateHistory_insert_only (nodes : gmap Hash (gmap string nodeWithPrev)) :
  (∀ owner subset path n,
     nodes !! owner = Some subset → subset !! path = Some n → nwp_prev n = []) →
  newStateHistory nodes = Value (mkHistory [] [] [] []) ∧
  newStateHistoryV1 nodes = Value (mkHistory [] [] [] []).
Proof.
  intros Hno.
  assert (Hc : ∃ leaves, collectLeaves nodes = Value leaves ∧
                         default [] (leaves !! zeroHash) = []).
  { pose proof (collectLeaves_lookup nodes) as Hl.
    destruct (collectLeaves nodes) as [leaves|msg].
    - exists leaves. split; [done|]. rewrite Hl.
      destruct (nodes !! zeroHash) as [subset|] eqn:Hz; [|done]. cbn.
      rewrite prevLeaves_no_prev; [done|]. intros path n. by apply (Hno zeroHash subset).
    - destruct Hl as (o & subset & Ho & Hp).
      rewrite prevLeaves_no_prev in Hp; [done|]. intros path n. by apply (Hno o). }
  destruct Hc as (leaves & Hc & Hz).
  unfold newStateHistory, newStateHistoryV1. rewrite Hc, Hz. done.
Qed.

Lemma accountsLoopV1_slot_offset leaves accounts : ∀ i acc out,
  Forall (λ a, ai_SlotOffset a = ai_SlotNumber a) (hb_accountIndexes (ha_out acc)) →
  accountsLoopV1 leaves i accounts acc = Value out →
  Forall (λ a, ai_SlotOffset a = ai_SlotNumber a) (hb_accountIndexes out).
Proof.
  induction accounts as [|account rest IH]; intros i acc out Hacc Hl.
  - cbn in Hl. by injection Hl as <-.
  - cbn [accountsLoopV1] in Hl.
    destruct (newSlotIndex (ha_slotOffset acc) (default [] (leaves !! account)))
      as [[sindexes sdata] soffset].
    destruct (default [] (leaves !! account) !! i) as [element|]; [|done].
    cbn [newAccountIndexV1] in Hl. apply IH in Hl; [done|].
    cbn. apply Forall_app. split; [done|]. by repeat constructor.
Qed.

(** X11. In the first revision of [newStateHistory] the field [SlotOffset]
    of every account index holds the number of the account's slots, not
    their position among the slot indexes: it always equals [SlotNumber]. *)
Theorem newStateHistoryV1_slot_offset nodes out :
  newStateHistoryV1 nodes = Value out →
  Forall (λ a, ai_SlotOffset a = ai_SlotNumber a) (hb_accountIndexes out).
Proof.
  unfold newStateHistoryV1. destruct (collectLeaves nodes) as [leaves|]; [|done].
  apply accountsLoopV1_slot_offset. constructor.
Qed.

Lemma sortedPaths_keys (nodes nodes' : gmap string nodeWithPrev) :
  (∀ p, is_Some (nodes !! p) ↔ is_Some (nodes' !! p)) →
  sortedPaths nodes = sortedPaths nodes'.
Proof.
  intros Hkeys. apply (Sorted_unique path_le).
  - apply Sorted_merge_sort, _.
  - apply Sorted_merge_sort, _.
  - apply NoDup_Permutation.
    + apply StronglySorted_lt_NoDup, sortedPaths_sorted.
    + apply StronglySorted_lt_NoDup, sortedPaths_sorted.
    + intros p. by rewrite !sortedPaths_elem_of.
Qed.

Lemma forEachTips_ext {S} (nodes nodes' : gmap string nodeWithPrev)
    (cb : string → option nodeWithPrev → M S unit) tips :
  Forall (λ t, nodes !! t = nodes' !! t) tips →
  ∀ s, forEachTips nodes cb tips s = forEachTips nodes' cb tips s.
Proof.
  induction 1 as [|t tips Ht _ IH]; intros s; [done|].
  cbn [forEachTips]. unfold bind. rewrite Ht.
  destruct (cb t (nodes' !! t) s); done.
Qed.

(** X12. Only the tip nodes of a dirty node set count for the state
    history: replacing the entry of a dirty node that has a dirty node below
    it (its path is a strict prefix of another dirty path), previous value
    included, does not change the previous leaves that are collected. *)
Theorem prevLeaves_inner_irrelevant (nodes : gmap string nodeWithPrev) p x :
  is_Some (nodes !! p) → ¬ isTipNode nodes p →
  prevLeaves (<[p := x]> nodes) = prevLeaves nodes.
Proof.
  intros Hp Hnt.
  assert (Hkeys : ∀ q, is_Some (<[p := x]> nodes !! q) ↔ is_Some (nodes !! q)).
  { intros q. rewrite lookup_insert. case_decide as Hq; [|done].
    subst q. split; [done|by eexists]. }
  unfold prevLeaves, resolvePrevLeaves, forEachTipNode, tipPaths.
  rewrite (sortedPaths_keys _ _ Hkeys).
  rewrite (forEachTips_ext (<[p := x]> nodes) nodes); [done|].
  apply Forall_forall. intros t Ht. apply (tipPaths_spec nodes) in Ht.
  apply lookup_insert_ne. by intros ->.
Qed.

End history_props.

(** ** The encoders of the indexes *)

Lemma byteOfZ_mod z : Z.of_N (Byte.to_N (byteOfZ z)) = z mod 256.
Proof.
  unfold byteOfZ. pose proof (Z.mod_pos_bound z 256 ltac:(lia)) as Hb.
  destruct (Byte.of_N (Z.to_N (z mod 256))) as [b|] eqn:E.
  - apply Byte.to_of_N in E. cbn. rewrite E. lia.
  - apply Byte.of_N_None_iff in E. lia.
Qed.

Lemma putUint32_inj v w :
  0 ≤ v < 2 ^ 32 → 0 ≤ w < 2 ^ 32 → putUint32 v = putUint32 w → v = w.
Proof.
  intros Hv Hw Heq. unfold putUint32 in Heq.
  injection Heq as H3 H2 H1 H0.
  apply (f_equal (λ b, Z.of_N (Byte.to_N b))) in H3, H2, H1, H0.
  rewrite !byteOfZ_mod in H3, H2, H1, H0.
  rewrite !Z.shiftr_div_pow2 in H3, H2, H1 by lia.
  change (2 ^ 24) with 16777216 in *. change (2 ^ 16) with 65536 in *.
  change (2 ^ 8) with 256 in *. change (2 ^ 32) with 4294967296 in *.
  Z.div_mod_to_equations. lia.
Qed.

Lemma length_putUint32 v : length (putUint32 v) = 4%nat.
Proof. done. Qed.

Section encode_props.
Context `{Codec}.

(** X13. The first revision encodes the account indexes exactly as the
    second one does, but its slot encoder leaves the length out: per index it
    writes the hash and the data offset only, so the encoding does not depend
    on [DataLength]. *)
Theorem encodeV1_output (accounts : list accountIndex) (slots : list slotIndex) :
  encodeAccountIndexesV1 accounts = encodeAccountIndexes accounts ∧
  encodeSlotIndexesV1 slots
  = concat (map (λ index, HashBytes (si_Hash index) ++ putUint32 (si_Offset index)) slots) ∧
  ∀ len : slotIndex → Z,
    encodeSlotIndexesV1
      (map (λ index, {| si_Hash := si_Hash index; si_Offset := si_Offset index;
                        si_Length := len index |}) slots)
    = encodeSlotIndexesV1 slots.
Proof.
  assert (Hs : ∀ l, encodeSlotIndexesV1 l
    = concat (map (λ index, HashBytes (si_Hash index) ++ putUint32 (si_Offset index)) l)).
  { intros l. unfold encodeSlotIndexesV1. cbn zeta.
    rewrite <- (app_nil_l (concat _)).
    generalize (@nil Byte.byte). induction l as [|s l IH]; intros buf; cbn.
    - by rewrite app_nil_r.
    - rewrite IH. by rewrite <- !app_assoc. }
  split; [|split; [apply Hs|]].
  - unfold encodeAccountIndexesV1, encodeAccountIndexes. cbn zeta.
    rewrite <- (app_nil_l (concat _)).
    generalize (@nil Byte.byte). induction accounts as [|a l IH]; intros buf; cbn.
    + by rewrite app_nil_r.
    + rewrite IH. by rewrite <- !app_assoc.
  - intros len. rewrite !Hs. f_equal.
    induction slots as [|s l IH]; cbn; [done|]. by rewrite IH.
Qed.

(** The fields of the indexes are uint32 values. *)
Lemma slot_record_inj (a b : slotIndex) (ra rb : bytes) :
  (∀ h, length (HashBytes h) = 32%nat) →
  0 ≤ si_Offset a < 2 ^ 32 → 0 ≤ si_Length a < 2 ^ 32 →
  0 ≤ si_Offset b < 2 ^ 32 → 0 ≤ si_Length b < 2 ^ 32 →
  (HashBytes (si_Hash a) ++ putUint32 (si_Offset a) ++ putUint32 (si_Length a)) ++ ra
  = (HashBytes (si_Hash b) ++ putUint32 (si_Offset b) ++ putUint32 (si_Length b)) ++ rb →
  HashBytes (si_Hash a) = HashBytes (si_Hash b) ∧ si_Offset a = si_Offset b ∧
  si_Length a = si_Length b ∧ ra = rb.
Proof.
  intros H32 Hoa Hla Hob Hlb Heq.
  rewrite <- !app_assoc in Heq.
  apply app_inj_1 in Heq as [Hh Heq]; [|by rewrite !H32].
  apply app_inj_1 in Heq as [Ho Heq]; [|done].
  apply app_inj_1 in Heq as [Hl Heq]; [|done].
  apply putUint32_inj in Ho, Hl; done.
Qed.

(** X14. With 32-byte hashes, the second revision encodes every slot index
    in 40 bytes and every account index in 48 bytes, and the encoding of the
    slot indexes loses nothing: two lists of slot indexes with the same
    encoding have the same length and agree, index by index, on the hash
    bytes, the offset and the length. *)
Theorem encodeSlotIndexes_inj (accounts : list accountIndex) (l1 l2 : list slotIndex) :
  (∀ h, length (HashBytes h) = 32%nat) →
  Forall (λ s, 0 ≤ si_Offset s < 2 ^ 32 ∧ 0 ≤ si_Length s < 2 ^ 32) l1 →
  Forall (λ s, 0 ≤ si_Offset s < 2 ^ 32 ∧ 0 ≤ si_Length s < 2 ^ 32) l2 →
  length (encodeAccountIndexes accounts) = (48 * length accounts)%nat ∧
  length (encodeSlotIndexes l1) = (40 * length l1)%nat ∧
  (encodeSlotIndexes l1 = encodeSlotIndexes l2 →
   Forall2 (λ a b, HashBytes (si_Hash a) = HashBytes (si_Hash b) ∧
                   si_Offset a = si_Offset b ∧ si_Length a = si_Length b) l1 l2).
Proof.
  intros H32 Hw1 Hw2. split; [|split].
  - unfold encodeAccountIndexes. induction accounts as [|a l IH]; [done|].
    cbn [map concat]. rewrite length_app, IH, !length_app, H32. cbn. lia.
  - unfold encodeSlotIndexes. clear Hw1. induction l1 as [|a l IH]; [done|].
    cbn [map concat]. rewrite length_app, IH, !length_app, H32. cbn. lia.
  - unfold encodeSlotIndexes. revert l2 Hw2.
    induction Hw1 as [|a l1 [Hoa Hla] _ IH]; intros l2 Hw2 Heq.
    + destruct l2 as [|b l2]; [constructor|]. cbn [map concat] in Heq.
      apply (f_equal length) in Heq. rewrite !length_app, H32 in Heq. cbn in Heq. lia.
    + destruct Hw2 as [|b l2 [Hob Hlb] Hw2].
      * cbn [map concat] in Heq.
        apply (f_equal length) in Heq. rewrite !length_app, H32 in Heq. cbn in Heq. lia.
      * cbn [map concat] in Heq.
        apply slot_record_inj in Heq as (Hh & Ho & Hl & Hrest); try done.
        constructor; [done|]. by apply IH.
Qed.

End encode_props.

(** ** More on the disk layer *)

Section disk_more_props.
Context `{Codec} `{Backend}.

Lemma snapshot_node_disk (st : State) r (dl : diskLayer) owner path hash depth :
  heap st !! r = Some (DiskLayer dl) →
  snapshot_node r owner path hash depth st
  = liftW (diskLayer_node dl owner path hash depth) st.
Proof. intros Hr. by rewrite snapshot_node_unfold, Hr. Qed.

(** X15. A lookup on a live disk layer that misses both caches and finds, in
    the key-value store, a non-empty blob under the requested hash returns
    that blob ([NodeBlob]) or the node decoded from it ([Node]), and puts the
    blob into the clean cache under the hash, if the layer has a clean
    cache; nothing else changes. *)
Theorem NodeBlob_reads_disk (st : State) r (dl : diskLayer) owner path hash blob w1 :
  heap st !! r = Some (DiskLayer dl) →
  dl_stale dl = false →
  dirty_node (dl_dirty dl) owner path hash (world st) = Ret None w1 →
  cleanMiss dl hash w1 →
  diskRead dl owner path w1 = (blob, hash) →
  blob ≠ [] →
  let w' := match dl_clean dl with
            | Some clean => clean_Set clean (HashBytes hash) blob w1
            | None => w1
            end in
  NodeBlob r owner path hash st = Ret blob (setWorld st w') ∧
  Node r owner path hash st
  = match mustDecodeNode hash blob with
    | Some n => Ret n (setWorld st w')
    | None => Crash "mustDecodeNode"
    end.
Proof.
  intros Hr Hs Hd Hc Hread Hblob w'.
  assert (Hlen : length blob ≠ 0%nat) by (by destruct blob).
  assert (Hn : snapshot_node r owner path hash 0 st
               = Ret (Some {| mn_node := rawNode blob; mn_hash := hash;
                              mn_size := u16 (Z.of_nat (length blob)) |})
                   (setWorld st w')).
  { rewrite (snapshot_node_disk st r dl) by done.
    unfold liftW, diskLayer_node. rewrite Hs. unfold bind at 1. rewrite Hd.
    unfold bind at 1, get. unfold cleanMiss in Hc. subst w'.
    destruct (dl_clean dl) as [clean|].
    - rewrite Hc. rewrite (bool_decide_eq_false_2 (0 < _)%nat) by (cbn; lia).
      rewrite Hread. rewrite bool_decide_eq_false_2 by (by intros ?).
      rewrite (bool_decide_eq_true_2 (0 < _)%nat) by lia.
      unfold bind, modify. by rewrite bool_decide_eq_false_2.
    - rewrite Hread. rewrite bool_decide_eq_false_2 by (by intros ?).
      unfold bind, ret. by rewrite bool_decide_eq_false_2. }
  unfold NodeBlob, Node, bind. rewrite Hn. cbn. split; [done|].
  by destruct (mustDecodeNode hash blob).
Qed.

(** X16. A hit in the clean cache ends the lookup on a live disk layer: the
    cached blob is returned as it is, the key-value store is not read and the
    blob is not compared with anything, whatever the store holds at the path. *)
Theorem NodeBlob_clean_hit (st : State) r (dl : diskLayer) clean owner path hash blob w1 :
  heap st !! r = Some (DiskLayer dl) →
  dl_stale dl = false →
  dirty_node (dl_dirty dl) owner path hash (world st) = Ret None w1 →
  dl_clean dl = Some clean →
  clean_Get clean (HashBytes hash) w1 = blob →
  blob ≠ [] →
  NodeBlob r owner path hash st = Ret blob (setWorld st w1).
Proof.
  intros Hr Hs Hd Hc Hget Hblob.
  assert (Hlen : (0 < length blob)%nat) by (destruct blob; [done|cbn; lia]).
  unfold NodeBlob, bind. rewrite (snapshot_node_disk st r dl) by done.
  unfold liftW, diskLayer_node. rewrite Hs. unfold bind at 1. rewrite Hd.
  unfold bind at 1, get. rewrite Hc, Hget.
  by rewrite bool_decide_eq_true_2.
Qed.

(** X17. Past its three guards, [revert] marks the disk layer stale and
    applies the reverse diff, to the key-value store when the dirty cache is
    empty and to the dirty cache otherwise.  When that succeeds the result is
    a new, live disk layer with the parent root of the diff and the previous
    id, which shares the caches and the store of the old layer; a failure of
    the write to the store ends the program, and a failure of the dirty cache
    is returned, with the old layer left stale and no new layer.  The tree is
    not touched. *)
Theorem revert_applies (st : State) r (dl : diskLayer) (diff : reverseDiff) diffid :
  heap st !! r = Some (DiskLayer dl) →
  rd_Root diff = dl_root dl → diffid = dl_diffid dl → dl_diffid dl ≠ 0 →
  let old := <[r := DiskLayer (staleDisk dl)]> (heap st) in
  let ndl := newDiskLayer (rd_Parent diff) (u64 (dl_diffid dl - 1))
               (dl_clean dl) (dl_dirty dl) (dl_diskdb dl) in
  revert r diff diffid st
  = if dirty_empty (dl_dirty dl) (world st) then
      match writeRevertBatch (dl_diskdb dl) diff (u64 (diffid - 1)) (world st) with
      | Ret _ w' =>
          Ret (length (heap st))
            {| world := w'; heap := old ++ [DiskLayer ndl]; tree := tree st |}
      | Fail _ _ => Crash "Failed to write reverse diff"
      | Crash msg => Crash msg
      | Timeout => Timeout
      end
    else
      match dirty_revert (dl_dirty dl) diff (world st) with
      | Ret _ w' =>
          Ret (length (heap st))
            {| world := w'; heap := old ++ [DiskLayer ndl]; tree := tree st |}
      | Fail e w' => Fail e {| world := w'; heap := old; tree := tree st |}
      | Crash msg => Crash msg
      | Timeout => Timeout
      end.
Proof.
  intros Hr Hroot Hid Hnz old ndl. subst old ndl.
  unfold revert. unfold bind at 1, readLayer at 1. rewrite Hr.
  rewrite bool_decide_eq_false_2 by (by intros ?).
  rewrite bool_decide_eq_false_2 by (by intros ?).
  rewrite bool_decide_eq_false_2 by done.
  unfold bind, writeLayer, liftW, get, alloc. cbn [world heap tree setHeap setWorld].
  destruct (dirty_empty (dl_dirty dl) (world st)).
  - destruct (writeRevertBatch _ _ _ _) as [[] w'|e w'|msg|]; try done.
    cbn. by rewrite length_insert.
  - destruct (dirty_revert _ _ _) as [[] w'|e w'|msg|]; try done.
    cbn. by rewrite length_insert.
Qed.

Lemma commit_shape (st : State) r (dl : diskLayer) bottom (bdf : diffLayer)
    freezer stateHistory statelimit force :
  heap st !! r = Some (DiskLayer dl) →
  heap st !! bottom = Some (DiffLayer bdf) →
  match commit r freezer stateHistory statelimit bottom force st with
  | Ret nr st' =>
      nr = length (heap st) ∧ tree st' = tree st ∧
      ∃ dirty', heap st' = <[r := DiskLayer (staleDisk dl)]> (heap st)
                           ++ [DiskLayer (newDiskLayer (df_root bdf) (df_diffid bdf)
                                            (dl_clean dl) dirty' (dl_diskdb dl))]
  | Fail _ st' =>
      tree st' = tree st ∧ heap st' !! r = Some (DiskLayer (staleDisk dl))
  | _ => True
  end.
Proof.
  intros Hr Hb.
  assert (Hlt : (r < length (heap st))%nat) by (by eapply lookup_lt_Some).
  assert (Hne : r ≠ bottom) by (intros ->; congruence).
  assert (Hold : <[r := DiskLayer (staleDisk dl)]> (heap st) !! r
                 = Some (DiskLayer (staleDisk dl)))
    by (by apply list_lookup_insert_eq).
  unfold commit. unfold bind at 1, readLayer at 1. rewrite Hr.
  unfold bind at 1, writeLayer. unfold bind at 1, readLayer. cbn [heap setHeap].
  rewrite list_lookup_insert_ne by done. rewrite Hb.
  unfold bind, liftW, alloc, ret, get, storeStateHistory, modify, panic.
  repeat (match goal with
          | |- context [match ?x with _ => _ end] =>
              lazymatch x with
              | context [match _ with _ => _ end] => fail
              | _ => destruct x eqn:?
              end
          end; cbn [heap tree world setHeap setWorld]; try done).
  all: try (split; [done|]; rewrite lookup_app_l by (by rewrite length_insert); done).
  all: split; [by rewrite length_insert|]; split; [done|]; by eexists.
Qed.

(** X18. [commit] on a disk layer and a diff layer: when it returns a layer,
    that is a new live disk layer with the root and the id of the diff layer
    and the clean cache and store of the old disk layer; in every case in
    which it returns, with a layer or with an error of the freezers or of the
    dirty cache, the old disk layer is stale afterwards and the tree is what
    it was. *)
Theorem commit_result (st : State) r (dl : diskLayer) bottom (bdf : diffLayer)
    freezer stateHistory statelimit force :
  heap st !! r = Some (DiskLayer dl) →
  heap st !! bottom = Some (DiffLayer bdf) →
  match commit r freezer stateHistory statelimit bottom force st with
  | Ret nr st' =>
      nr = length (heap st) ∧ tree st' = tree st ∧
      ∃ dirty', heap st' = <[r := DiskLayer (staleDisk dl)]> (heap st)
                           ++ [DiskLayer (newDiskLayer (df_root bdf) (df_diffid bdf)
                                            (dl_clean dl) dirty' (dl_diskdb dl))]
  | Fail _ st' =>
      tree st' = tree st ∧ heap st' !! r = Some (DiskLayer (staleDisk dl))
  | _ => True
  end.
Proof. apply commit_shape. Qed.

End disk_more_props.

(** ** More on lookups and on the layer tree *)

Section tree_more_props.
Context `{Codec} `{Backend}.

(** The fuel of a lookup does not matter once it exceeds the number of diff
    layers on the way to the disk layer. *)
Lemma nodeFrom_fuel n : ∀ r fuel fuel' owner path hash depth (st : State),
  chain (heap st) n r → (n < fuel)%nat → (n < fuel')%nat →
  nodeFrom fuel r owner path hash depth st = nodeFrom fuel' r owner path hash depth st.
Proof.
  induction n as [|n IH]; intros r fuel fuel' owner path hash depth st Hc Hf Hf';
    destruct fuel as [|fuel]; [lia| |lia|]; destruct fuel' as [|fuel']; try lia;
    cbn [nodeFrom]; unfold bind, readLayer.
  - destruct Hc as [dl ->]. done.
  - destruct Hc as (df & -> & Hc).
    destruct (df_stale df); [done|].
    destruct (df_nodes df !! owner ≫= _); [done|].
    apply IH; [done|lia|lia].
Qed.

Lemma wf_parent_chain (h : list layer) r (df : diffLayer) :
  wf h → h !! r = Some (DiffLayer df) →
  ∃ n, (n < length h)%nat ∧ chain h n (df_parent df).
Proof.
  intros Hwf Hr. pose proof (lookup_lt_Some _ _ _ Hr) as Hlt.
  destruct (Hwf r df Hr) as [Hp|Hd].
  - destruct (wf_chain h Hwf (df_parent df)) as (n & Hn & Hc); [lia|].
    exists n. split; [lia|done].
  - exists 0%nat. split; [lia|done].
Qed.

Lemma snapshot_node_parent (st : State) r (df : diffLayer) owner path hash depth :
  wf (heap st) →
  heap st !! r = Some (DiffLayer df) →
  df_stale df = false →
  df_nodes df !! owner ≫= (λ subset, subset !! path) = None →
  snapshot_node r owner path hash depth st
  = snapshot_node (df_parent df) owner path hash (depth + 1) st.
Proof.
  intros Hwf Hr Hs Hn. rewrite snapshot_node_unfold, Hr, Hs, Hn.
  destruct (wf_parent_chain _ _ _ Hwf Hr) as (n & Hlt & Hc).
  unfold snapshot_node. eapply nodeFrom_fuel; [exact Hc|lia|lia].
Qed.

(** X19. In a store without cycles or dangling parents, a live diff layer
    that has no entry of its own at the requested owner and path answers a
    lookup exactly as its parent does, one level deeper; the layer adds
    nothing and hides nothing. *)
Theorem node_falls_through (st : State) r (df : diffLayer) owner path hash depth :
  wf (heap st) →
  heap st !! r = Some (DiffLayer df) →
  df_stale df = false →
  df_nodes df !! owner ≫= (λ subset, subset !! path) = None →
  snapshot_node r owner path hash depth st
  = snapshot_node (df_parent df) owner path hash (depth + 1) st.
Proof. apply snapshot_node_parent. Qed.

Lemma add_unfold root parentRoot nodes (st : State) :
  add root parentRoot nodes st
  = if bool_decide (convertEmpty root = convertEmpty parentRoot)
    then Fail (errorString "snapshot cycle") st
    else
      match tree st !! convertEmpty parentRoot with
      | None => Fail (errorString "triedb parent snapshot missing") st
      | Some parent =>
          match heap st !! parent with
          | None => Crash "nil pointer dereference"
          | Some pl =>
              Ret tt {| world := world st;
                        heap := heap st ++ [DiffLayer (newDiffLayer parent (convertEmpty root)
                                                         (u64 (layerID pl + 1)) nodes)];
                        tree := <[convertEmpty root := length (heap st)]> (tree st) |}
          end
      end.
Proof.
  unfold add. case_bool_decide; [done|].
  unfold bind at 1, treeGet. rewrite convertEmpty_idemp.
  destruct (tree st !! convertEmpty parentRoot) as [parent|]; [|done].
  unfold bind at 1, ID, bind, readLayer, ret.
  destruct (heap st !! parent) as [pl|]; [|done].
  unfold Update, alloc, Root, bind, readLayer, setLayer, ret.
  cbn [heap setHeap]. rewrite lookup_snoc_length. done.
Qed.

(** X20. [add] refuses a layer whose root equals its parent's root and a
    parent root that is not in the tree, and then changes nothing.
    Otherwise it creates one live diff layer on the layer filed under the
    parent root, with the given nodes and the parent's id plus one (in
    uint64), and files it under the new root, replacing whatever was filed
    there; the zero hash stands for the empty root in both arguments. *)
Theorem add_result root parentRoot nodes (st : State) :
  match add root parentRoot nodes st with
  | Ret _ st' =>
      convertEmpty root ≠ convertEmpty parentRoot ∧
      ∃ parent pl,
        tree st !! convertEmpty parentRoot = Some parent ∧
        heap st !! parent = Some pl ∧
        world st' = world st ∧
        heap st' = heap st ++ [DiffLayer {| df_root := convertEmpty root;
                                            df_diffid := u64 (layerID pl + 1);
                                            df_nodes := nodes;
                                            df_memory := nodesMemory nodes;
                                            df_parent := parent;
                                            df_stale := false |}] ∧
        tree st' = <[convertEmpty root := length (heap st)]> (tree st)
  | Fail _ st' =>
      st' = st ∧
      (convertEmpty root = convertEmpty parentRoot ∨
       tree st !! convertEmpty parentRoot = None)
  | Crash _ =>
      ∃ parent, tree st !! convertEmpty parentRoot = Some parent ∧ heap st !! parent = None
  | Timeout => False
  end.
Proof.
  rewrite add_unfold. case_bool_decide as Hc; [by split; [|left]|].
  destruct (tree st !! convertEmpty parentRoot) as [parent|] eqn:Hp; [|by split; [|right]].
  destruct (heap st !! parent) as [pl|] eqn:Hl; [|by exists parent].
  split; [done|]. by exists parent, pl.
Qed.

(** X21. Read your writes: after a successful [add], the tree returns the
    new layer for the new root, and a lookup on it of a node of the added
    set gives that node back when asked with the node's hash and fails with
    the unexpected-node error for any other hash, without asking the layers
    below. *)
Theorem add_then_lookup root parentRoot nodes (st st' : State)
    owner subset path n hash depth :
  add root parentRoot nodes st = Ret tt st' →
  nodes !! owner = Some subset → subset !! path = Some n →
  ∃ snap,
    treeGet root st' = Ret (Some snap) st' ∧
    snapshot_node snap owner path hash depth st'
    = if bool_decide (mn_hash (nwp_node n) = hash) then Ret (Some (unwrap n)) st'
      else Fail (errUnexpectedNode (mn_hash (nwp_node n)) hash owner path) st'.
Proof.
  intros Hadd Ho Hp. rewrite add_unfold in Hadd.
  case_bool_decide as Hc; [done|].
  destruct (tree st !! convertEmpty parentRoot) as [parent|]; [|done].
  destruct (heap st !! parent) as [pl|]; [|done].
  injection Hadd as <-. exists (length (heap st)). split.
  - unfold treeGet. cbn. by rewrite lookup_insert_eq.
  - rewrite snapshot_node_unfold. cbn [heap]. rewrite lookup_snoc_length.
    cbn. rewrite Ho. cbn. rewrite Hp.
    repeat case_bool_decide; done.
Qed.

(** X22. Whenever [cap] returns an error, the tree has exactly the entries it
    had before the call: entries are added and removed only on the way to a
    normal return.  (The layers themselves may have been flattened in part.) *)
Theorem cap_error_keeps_tree root layers freezer stateHistory statelimit (st : State) :
  match cap root layers freezer stateHistory statelimit st with
  | Fail _ st' => tree st' = tree st
  | _ => True
  end.
Proof.
  destruct (tree st !! convertEmpty root) as [snap|] eqn:Ht.
  2: { unfold cap. unfold bind at 1, treeGet. rewrite convertEmpty_idemp, Ht. done. }
  destruct (heap st !! snap) as [[dl|sdf]|] eqn:Hs.
  1, 3: unfold cap; unfold bind at 1, treeGet; rewrite convertEmpty_idemp, Ht;
        unfold bind at 1, readLayer at 1; rewrite Hs; done.
  destruct (decide (layers = 0)) as [->|Hl].
  - rewrite (cap_full_unfold st root _ _ _ snap sdf) by done.
    pose proof (persistFrom_frame (length (heap st)) freezer stateHistory statelimit
                  true st snap) as Hp.
    destruct (persistFrom _ _ _ _ _ _ st) as [base st1|e st1|?|]; try done.
    + by destruct (heap st1 !! base).
    + by destruct Hp as [_ ?].
  - rewrite (cap_keep_unfold st root layers _ _ _ snap sdf) by done.
    pose proof (dive_spec (Z.to_nat (layers - 1)) snap st) as Hd.
    destruct (dive _ snap st) as [[diff|] st0|e st0|?|]; try done.
    destruct Hd as [-> _].
    destruct (heap st !! diff) as [[?|ddf]|]; try done.
    destruct (heap st !! df_parent ddf) as [[?|?]|]; try done.
    pose proof (persistFrom_frame (length (heap st)) freezer stateHistory statelimit
                  false st (df_parent ddf)) as Hp.
    destruct (persistFrom _ _ _ _ _ _ st) as [base st1|e st1|?|]; try done.
    + destruct (heap st1 !! base) as [l|]; [|done].
      rewrite setParent_unfold. cbn [heap setTree].
      destruct (heap st1 !! diff) as [[?|?]|]; try done.
      match goal with
      | |- match dropStale ?s with _ => _ end =>
          pose proof (dropStale_spec s) as Hdrop; by destruct (dropStale s)
      end.
    + by destruct Hp as [_ ?].
Qed.

Lemma chain_is_Some (h : list layer) n r : chain h n r → is_Some (h !! r).
Proof. destruct n; cbn; [intros [dl ->]|intros (df & -> & _)]; by eexists. Qed.

Lemma dive_chain m : ∀ d j (st : State),
  chain (heap st) (S j) d → (j ≤ m)%nat →
  dive m d st = Ret None st ∨
  ∃ d' ddf, dive m d st = Ret (Some d') st ∧
            heap st !! d' = Some (DiffLayer ddf) ∧ isDisk (heap st) (df_parent ddf).
Proof.
  induction m as [|m IH]; intros d j st (df & Hd & Hc) Hj.
  - right. exists d, df. assert (j = 0%nat) as -> by lia. done.
  - cbn [dive]. unfold bind, Parent, bind, readLayer, ret. rewrite Hd.
    cbn [layerParent mbind option_bind].
    destruct j as [|j].
    + destruct Hc as [dl ->]. by left.
    + pose proof Hc as (pdf & Hp & _). rewrite Hp.
      apply (IH _ j); [done|lia].
Qed.

(** X23. A stack that is not deeper than the limit is left alone: when the
    layer of the root has at most [k] diff layers down to its disk layer, it
    included, [cap] with the limit [k] returns without an error and without
    changing anything. *)
Theorem cap_shallow (st : State) root k freezer stateHistory statelimit snap n :
  tree st !! convertEmpty root = Some snap →
  chain (heap st) (S n) snap →
  Z.of_nat (S n) ≤ k →
  cap root k freezer stateHistory statelimit st = Ret tt st.
Proof.
  intros Ht Hc Hk. pose proof Hc as (sdf & Hs & _).
  rewrite (cap_keep_unfold st root k _ _ _ snap sdf) by (done || lia).
  destruct (dive_chain (Z.to_nat (k - 1)) snap n st Hc) as [->|(d' & ddf & -> & Hd & [dl Hp])];
    [lia|done|].
  by rewrite Hd, Hp.
Qed.

Lemma bottomFrom_chain n : ∀ r fuel (st : State),
  chain (heap st) n r → (n < fuel)%nat →
  ∃ d, bottomFrom fuel r st = Ret d st ∧ isDisk (heap st) d.
Proof.
  induction n as [|n IH]; intros r fuel st Hc Hf;
    (destruct fuel as [|fuel]; [lia|]); cbn [bottomFrom]; unfold bind, readLayer.
  - pose proof Hc as [dl Hr]. rewrite Hr. by exists r.
  - destruct Hc as (df & -> & Hc). cbn [layerParent].
    destruct (chain_is_Some _ _ _ Hc) as [pl ->].
    apply IH; [done|lia].
Qed.

(** X24. In a state in which the store has no cycles or dangling parents
    and the tree files layers of the store, [bottom] returns nil exactly for
    the empty tree, and otherwise a disk layer: the walk along the parents
    ends, and it ends at a disk layer, from whichever layer of the tree it
    starts. *)
Theorem bottom_is_disk (st : State) :
  Inv st →
  (∀ k r, tree st !! k = Some r →
     ∃ d, bottomFrom (S (length (heap st))) r st = Ret d st ∧ isDisk (heap st) d) ∧
  match bottom st with
  | Ret None st' => st' = st ∧ tree st = ∅
  | Ret (Some d) st' => st' = st ∧ isDisk (heap st) d ∧ tree st ≠ ∅
  | _ => False
  end.
Proof.
  intros [Hwf Hok].
  assert (Hall : ∀ k r, tree st !! k = Some r →
            ∃ d, bottomFrom (S (length (heap st))) r st = Ret d st ∧ isDisk (heap st) d).
  { intros k r Hk. destruct (Hok k r Hk) as (l & Hl & _).
    pose proof (lookup_lt_Some _ _ _ Hl) as Hlt.
    destruct (wf_chain _ Hwf r Hlt) as (n & Hn & Hc).
    apply (bottomFrom_chain n); [done|lia]. }
  split; [exact Hall|].
  unfold bottom. destruct (map_to_list (tree st)) as [|[k r] rest] eqn:Hm.
  - split; [done|]. by apply map_to_list_empty_iff.
  - assert (Hk : tree st !! k = Some r).
    { apply elem_of_map_to_list. rewrite Hm. by left. }
    destruct (Hall k r Hk) as (d & -> & Hd).
    split; [done|]. split; [done|]. intros He. by rewrite He in Hk.
Qed.

Lemma linkLayers_chain n : ∀ head fuel acc (st : State),
  chain (heap st) n head → (n < fuel)%nat →
  ∃ layers, linkLayers fuel head acc st = Ret layers st ∧
    (∀ k r, layers !! k = Some r →
       acc !! k = Some r ∨ ∃ l, heap st !! r = Some l ∧ layerRoot l = k) ∧
    (∀ k, is_Some (acc !! k) → is_Some (layers !! k)) ∧
    (∀ m d l, descends (heap st) m head d → heap st !! d = Some l →
       is_Some (layers !! layerRoot l)).
Proof.
  induction n as [|n IH]; intros head fuel acc st Hc Hf;
    (destruct fuel as [|fuel]; [lia|]); cbn [linkLayers].
  - destruct Hc as [dl Hr]. rewrite Hr. cbn [layerParent layerRoot].
    eexists. split; [done|]. split; [|split].
    + intros k r. rewrite lookup_insert. case_decide as Hk.
      * intros [= <-]. right. exists (DiskLayer dl). by subst k.
      * by left.
    + intros k Hk. rewrite lookup_insert. case_decide; [by eexists|done].
    + intros [|m] d l; cbn.
      * intros <-. rewrite Hr. intros [= <-]. cbn. rewrite lookup_insert_eq. by eexists.
      * intros (df & Hdf & _). congruence.
  - destruct Hc as (df & Hr & Hc). rewrite Hr. cbn [layerParent layerRoot].
    destruct (IH (df_parent df) fuel (<[df_root df := head]> acc) st Hc)
      as (layers & -> & Hin & Hacc & Hdesc); [lia|].
    exists layers. split; [done|]. split; [|split].
    + intros k r Hk. destruct (Hin k r Hk) as [Ha|Hl]; [|by right].
      rewrite lookup_insert in Ha. case_decide as Hkk; [|by left].
      injection Ha as <-. right. exists (DiffLayer df). by subst k.
    + intros k Hk. apply Hacc. rewrite lookup_insert. case_decide; [by eexists|done].
    + intros [|m] d l; cbn.
      * intros <-. rewrite Hr. intros [= <-]. cbn. apply Hacc.
        rewrite lookup_insert_eq. by eexists.
      * intros (df' & Hdf & Hd) Hl. rewrite Hr in Hdf. injection Hdf as <-.
        by eapply Hdesc.
Qed.

(** X25. [newLayerTree] on a layer of a store without cycles or dangling
    parents returns a tree in which every entry files a layer of the store
    under that layer's own root, and which has an entry for the root of the
    head and of every layer below it, down to the disk layer; on a disk
    layer it is the tree of that layer alone. *)
Theorem newLayerTree_links (st : State) head :
  wf (heap st) → (head < length (heap st))%nat →
  ∃ layers, newLayerTree head st = Ret layers st ∧
    (∀ k r, layers !! k = Some r → ∃ l, heap st !! r = Some l ∧ layerRoot l = k) ∧
    (∀ m d l, descends (heap st) m head d → heap st !! d = Some l →
       is_Some (layers !! layerRoot l)) ∧
    (∀ dl, heap st !! head = Some (DiskLayer dl) → layers = {[ dl_root dl := head ]}).
Proof.
  intros Hwf Hlt. destruct (wf_chain _ Hwf head Hlt) as (n & Hn & Hc).
  destruct (linkLayers_chain n head (S (length (heap st))) ∅ st Hc)
    as (layers & Hl & Hin & _ & Hdesc); [lia|].
  exists layers. split; [exact Hl|]. split; [|split; [exact Hdesc|]].
  - intros k r Hk. destruct (Hin k r Hk) as [He|?]; [|done].
    by rewrite lookup_empty in He.
  - intros dl Hd. unfold newLayerTree in Hl. cbn [linkLayers] in Hl.
    rewrite Hd in Hl. cbn in Hl. injection Hl as <-. by rewrite insert_empty.
Qed.

Lemma removeFrom_deletes fuel root (st st' : removal) a :
  removeFrom fuel root st = Ret a st' → st'.1 !! root = None.
Proof.
  destruct fuel as [|fuel]; [done|]. cbn [removeFrom].
  unfold bind at 1, modify at 1.
  match goal with
  | |- ?c ?s = _ → _ => assert (Hs : shrinks c)
  end.
  { apply shrinks_bind; [apply shrinks_get|]. intros st1.
    apply shrinks_bind; [apply removeKids_shrinks, removeFrom_shrinks|].
    intros _ s. cbn. reflexivity. }
  intros Hr. specialize (Hs (delete root st.1, st.2)). rewrite Hr in Hs. cbn in Hs.
  eapply lookup_weaken_None; [|exact Hs]. apply lookup_delete_eq.
Qed.

Lemma removeStale_no_stale fuel (h : list layer) entries : ∀ (st st' : removal),
  removeStale fuel h entries st = Ret tt st' →
  ∀ root snap, (root, snap) ∈ entries →
    st'.1 !! root = None ∨ ∃ l, h !! snap = Some l ∧ layerStale l = false.
Proof.
  induction entries as [|[root0 snap0] entries IH]; intros st st' Hr root snap Hin;
    [by apply elem_of_nil in Hin|].
  cbn [removeStale] in Hr. unfold bind at 1, get in Hr. unfold bind at 1 in Hr.
  match type of Hr with
  | match ?c st with _ => _ end = _ => destruct (c st) as [[] st1|?|?|] eqn:Hstep; try done
  end.
  pose proof (removeStale_shrinks fuel h entries st1) as Hsh. rewrite Hr in Hsh.
  apply elem_of_cons in Hin as [[= -> ->]|Hin]; [|by eapply IH].
  case_bool_decide as Hpresent.
  - destruct (h !! snap0) as [l|] eqn:Hl; [|done].
    destruct (layerStale l) eqn:Hstale.
    + left. apply removeFrom_deletes in Hstep.
      eapply lookup_weaken_None; [exact Hstep|exact Hsh].
    + right. by exists l.
  - left. injection Hstep as <-.
    eapply lookup_weaken_None; [|exact Hsh]. by apply eq_None_not_Some.
Qed.

Lemma dropStale_no_stale (st st' : State) :
  dropStale st = Ret tt st' →
  ∀ k r, tree st' !! k = Some r → ∃ l, heap st' !! r = Some l ∧ layerStale l = false.
Proof.
  intros Hd k r Hk. pose proof (dropStale_spec st) as Hspec. rewrite Hd in Hspec.
  destruct Hspec as (_ & Hheap & Hsub). rewrite Hheap.
  unfold dropStale in Hd. destruct (childrenIndex _ _) as [children|]; [|done].
  destruct (removeStale _ _ _ _) as [[] m'|?|?|] eqn:Hr; try done.
  injection Hd as <-. cbn in Hk.
  destruct (removeStale_no_stale _ _ _ _ _ Hr k r) as [Hn|Hl].
  - apply elem_of_map_to_list. eapply lookup_weaken; [exact Hk|exact Hsub].
  - congruence.
  - done.
Qed.

Lemma dive_deep m : ∀ d j (st : State),
  chain (heap st) (S j) d → (m < j)%nat →
  ∃ d' ddf pdf, dive m d st = Ret (Some d') st ∧
                heap st !! d' = Some (DiffLayer ddf) ∧
                heap st !! df_parent ddf = Some (DiffLayer pdf).
Proof.
  induction m as [|m IH]; intros d j st (df & Hd & Hc) Hj;
    (destruct j as [|j]; [lia|]); pose proof Hc as (pdf & Hp & _).
  - by exists d, df, pdf.
  - cbn [dive]. unfold bind, Parent, bind, readLayer, ret. rewrite Hd.
    cbn [layerParent mbind option_bind]. rewrite Hp.
    apply (IH _ j); [done|lia].
Qed.

(** X26. A stack that is deeper than the limit is flattened and the tree
    cleaned: when the layer of the root has more than [k] diff layers down
    to its disk layer and [cap] with the limit [k > 0] returns without an
    error, no layer that is still filed in the tree is stale. *)
Theorem cap_deep_no_stale (st st' : State) root k freezer stateHistory statelimit snap n :
  tree st !! convertEmpty root = Some snap →
  chain (heap st) (S n) snap →
  0 < k → k < Z.of_nat (S n) →
  cap root k freezer stateHistory statelimit st = Ret tt st' →
  ∀ key r, tree st' !! key = Some r →
    ∃ l, heap st' !! r = Some l ∧ layerStale l = false.
Proof.
  intros Ht Hc Hk Hn Hcap. pose proof Hc as (sdf & Hs & _).
  rewrite (cap_keep_unfold st root k _ _ _ snap sdf) in Hcap by (done || lia).
  destruct (dive_deep (Z.to_nat (k - 1)) snap n st Hc) as (d' & ddf & pdf & Hd & Hd' & Hp);
    [lia|].
  rewrite Hd, Hd', Hp in Hcap.
  destruct (persistFrom _ _ _ _ _ _ st) as [base st1|?|?|]; try done.
  destruct (heap st1 !! base) as [l|]; [|done].
  rewrite setParent_unfold in Hcap.
  destruct (heap _ !! d') as [[?|?]|]; try done.
  by eapply dropStale_no_stale.
Qed.

Lemma diffToDisk_strands freezer stateHistory statelimit r force (s s' : State) base :
  diffToDisk freezer stateHistory statelimit r force s = Ret base s' →
  ∃ b dlp, heap s !! r = Some (DiffLayer b) ∧
           heap s' !! r = Some (DiffLayer b) ∧
           heap s' !! df_parent b = Some (DiskLayer (staleDisk dlp)).
Proof.
  rewrite diffToDisk_unfold.
  destruct (heap s !! r) as [[?|b]|] eqn:Hr; try done.
  destruct (heap s !! df_parent b) as [[dlp|?]|] eqn:Hp; try done.
  intros Hc. pose proof (commit_shape s (df_parent b) dlp r b freezer stateHistory
                           statelimit force Hp Hr) as Hs.
  rewrite Hc in Hs. destruct Hs as (_ & _ & dirty' & Hheap).
  pose proof (lookup_lt_Some _ _ _ Hr) as Hlr.
  pose proof (lookup_lt_Some _ _ _ Hp) as Hlp.
  assert (Hne : df_parent b ≠ r) by (intros Heq; rewrite Heq in Hp; congruence).
  exists b, dlp. split; [done|]. rewrite Hheap. split.
  - rewrite lookup_app_l by (by rewrite length_insert).
    by rewrite list_lookup_insert_ne.
  - rewrite lookup_app_l by (by rewrite length_insert).
    by rewrite list_lookup_insert_eq.
Qed.

(** X27. [persist] strands the diff layer it is called on: when it has
    returned the flattened disk layer, the parent of the diff layer is a
    stale disk layer, so every lookup through the diff layer of a node that
    it does not hold itself fails with the stale error.  (This is the hazard
    its comment warns of; [cap] repairs the link of the layer above.) *)
Theorem persist_strands_layer (st st' : State) r (df : diffLayer) base
    freezer stateHistory statelimit force owner path hash depth :
  heap st !! r = Some (DiffLayer df) →
  persist freezer stateHistory statelimit r force st = Ret base st' →
  df_nodes df !! owner ≫= (λ subset, subset !! path) = None →
  snapshot_node r owner path hash depth st' = Fail errSnapshotStale st'.
Proof.
  intros Hr Hp Hn. rewrite persist_unfold in Hp.
  destruct (length (heap st)) as [|fuel]; [done|].
  rewrite persistFrom_S, Hr in Hp.
  assert (Hd : ∃ s b, diffToDisk freezer stateHistory statelimit r force s = Ret base st' ∧
                      heap s !! r = Some (DiffLayer b) ∧ df_nodes b = df_nodes df).
  { destruct (heap st !! df_parent df) as [[?|?]|] eqn:Hpar;
      try (exists st, df; done).
    pose proof (persistFrom_frame fuel freezer stateHistory statelimit force st
                  (df_parent df)) as Hf.
    destruct (persistFrom fuel _ _ _ _ _ st) as [result st1|?|?|]; try done.
    destruct Hf as [[[(_ & _ & Hdiff) _] _] _].
    destruct (Hdiff r df Hr) as (df1 & Hr1 & _ & _ & Hnodes & _).
    rewrite setParent_unfold, Hr1 in Hp.
    eexists _, _. split; [exact Hp|]. cbn [heap setHeap].
    rewrite list_lookup_insert_eq by (by eapply lookup_lt_Some). done. }
  destruct Hd as (s & b & Hd & Hb & Hnodes).
  apply diffToDisk_strands in Hd as (b' & dlp & Hb' & Hr' & Hpar').
  rewrite Hb in Hb'. injection Hb' as <-.
  rewrite snapshot_node_unfold, Hr', Hnodes, Hn.
  destruct (df_stale b); [done|].
  pose proof (lookup_lt_Some _ _ _ Hr') as Hlt.
  destruct (length (heap st')) as [|f]; [lia|].
  cbn [nodeFrom]. unfold bind, readLayer. rewrite Hpar'.
  unfold liftW, diskLayer_node. cbn [dl_stale staleDisk].
  unfold fail. by rewrite setWorld_id.
Qed.

End tree_more_props.

(** ** The further properties on concrete inputs *)

(** X7 on [exHistoryNodes], whose leaves are [exHistoryLeaves]. *)
Lemma newStateHistory_data_witness :
  ∃ out, @newStateHistory memCodec exHistoryNodes = Value out ∧
    ai_Hash <$> hb_accountIndexes out
    = (λ e, @BytesToHash memCodec (Key e)) <$> default [] (exHistoryLeaves !! zeroHash) ∧
    hb_accountData out = concat (Prev <$> default [] (exHistoryLeaves !! zeroHash)) ∧
    hb_slotData out
    = concat ((λ e, concat (Prev <$> default [] (exHistoryLeaves
                                                    !! @BytesToHash memCodec (Key e))))
                <$> default [] (exHistoryLeaves !! zeroHash)).
Proof. apply (@newStateHistory_data memCodec exHistoryNodes exHistoryLeaves). reflexivity. Defined.

(** X8 on the history of [exHistoryNodes]: the account index of the leaf with
    key [01] locates its previous value. *)
Lemma newStateHistory_account_index_witness :
  ∃ a, hb_accountIndexes exHistoryOut !! 0%nat = Some a ∧
       ai_Hash a = @BytesToHash memCodec [Byte.x01] ∧
       slice (hb_accountData exHistoryOut) (ai_Offset a) (ai_Length a) = [Byte.x01].
Proof.
  apply (@newStateHistory_account_index memCodec exHistoryNodes exHistoryLeaves
           exHistoryOut 0%nat (mkElement [Byte.x01] [Byte.x01]));
    reflexivity.
Defined.

(** X9 on the history of [exHistoryNodes]: the one slot of the account. *)
Lemma newStateHistory_slot_range_witness :
  ∃ a, hb_accountIndexes exHistoryOut !! 0%nat = Some a ∧
       Forall2 (λ s slot, si_Hash s = @BytesToHash memCodec (Key slot) ∧
                  slice (hb_slotData exHistoryOut) (si_Offset s) (si_Length s) = Prev slot)
         (slice (hb_slotIndexes exHistoryOut) (ai_SlotOffset a) (ai_SlotNumber a))
         (default [] (exHistoryLeaves !! @BytesToHash memCodec [Byte.x01])).
Proof.
  apply (@newStateHistory_slot_range memCodec exHistoryNodes exHistoryLeaves
           exHistoryOut 0%nat (mkElement [Byte.x01] [Byte.x01]));
    reflexivity.
Defined.

(** X10 on [exInserted]. *)
Lemma newStateHistory_insert_only_witness :
  @newStateHistory memCodec exInserted = Value (mkHistory [] [] [] []) ∧
  @newStateHistoryV1 memCodec exInserted = Value (mkHistory [] [] [] []).
Proof.
  apply (@newStateHistory_insert_only memCodec exInserted).
  intros owner subset path n Ho Hp. unfold exInserted in Ho.
  apply lookup_singleton_Some in Ho as [_ <-].
  apply lookup_singleton_Some in Hp as [_ <-]. reflexivity.
Defined.

(** X11 on [exAccountZero], where the first revision returns. *)
Lemma newStateHistoryV1_slot_offset_witness :
  Forall (λ a, ai_SlotOffset a = ai_SlotNumber a) (hb_accountIndexes exAccountZeroOut).
Proof.
  apply (@newStateHistoryV1_slot_offset memCodec exAccountZero exAccountZeroOut).
  reflexivity.
Defined.

(** X12 on [exNested]: the node at "a" is no tip, the node at "ab" is below it. *)
Lemma prevLeaves_inner_irrelevant_witness :
  @prevLeaves memCodec
    (<["a" := {| nwp_node := emptyMemoryNode; nwp_prev := [Byte.x05] |}]> exNested)
  = @prevLeaves memCodec exNested.
Proof.
  apply (@prevLeaves_inner_irrelevant memCodec).
  - by eexists.
  - intros [_ Hq]. apply (Hq "ab"); [by eexists|]. split; [reflexivity|discriminate].
Defined.

Lemma length_beBytes n : ∀ z, length (beBytes n z) = n.
Proof. induction n as [|n IH]; intros z; cbn; [done|]. rewrite length_app, IH. cbn. lia. Qed.

(** X14 with the 32-byte hashes of the small codec, on the indexes of
    [exHistoryOut]. *)
Lemma encodeSlotIndexes_inj_witness :
  length (@encodeAccountIndexes memCodec (hb_accountIndexes exHistoryOut))
  = (48 * length (hb_accountIndexes exHistoryOut))%nat ∧
  length (@encodeSlotIndexes memCodec (hb_slotIndexes exHistoryOut))
  = (40 * length (hb_slotIndexes exHistoryOut))%nat ∧
  (@encodeSlotIndexes memCodec (hb_slotIndexes exHistoryOut)
   = @encodeSlotIndexes memCodec (hb_slotIndexes exHistoryOut) →
   Forall2 (λ a b, @HashBytes memCodec (si_Hash a) = @HashBytes memCodec (si_Hash b) ∧
                   si_Offset a = si_Offset b ∧ si_Length a = si_Length b)
     (hb_slotIndexes exHistoryOut) (hb_slotIndexes exHistoryOut)).
Proof.
  apply (@encodeSlotIndexes_inj memCodec).
  - intros h. apply length_beBytes.
  - repeat constructor; cbn; lia.
  - repeat constructor; cbn; lia.
Defined.

(** X15 on [exStored]: the blob at path "a". *)
Lemma NodeBlob_reads_disk_witness :
  @NodeBlob memCodec (memBackend false) 0%nat zeroHash "a" 7 exStored
  = Ret [Byte.x01] (setWorld exStored (world exStored)) ∧
  @Node memCodec (memBackend false) 0%nat zeroHash "a" 7 exStored
  = match @mustDecodeNode memCodec 7 [Byte.x01] with
    | Some n => Ret n (setWorld exStored (world exStored))
    | None => Crash "mustDecodeNode"
    end.
Proof.
  apply (@NodeBlob_reads_disk memCodec (memBackend false) exStored 0%nat (exDisk false)
           zeroHash "a" 7 [Byte.x01] (world exStored));
    [reflexivity|reflexivity|reflexivity|exact I|reflexivity|discriminate].
Defined.

(** X16 on [exCached]. *)
Lemma NodeBlob_clean_hit_witness :
  @NodeBlob memCodec hitBackend 0%nat zeroHash "a" 7 exCached
  = Ret [Byte.x01] (setWorld exCached tt).
Proof.
  apply (@NodeBlob_clean_hit memCodec hitBackend exCached 0%nat
           (@newDiskLayer hitBackend 100 1 (Some tt) tt tt) tt zeroHash "a" 7 [Byte.x01] tt);
    [reflexivity|reflexivity|reflexivity|reflexivity|reflexivity|discriminate].
Defined.

(** X17 on [exState0] with [exMatchingDiff]: the dirty cache is empty, and the
    new disk layer has the root 99 and the id 0. *)
Lemma revert_applies_witness :
  @revert (memBackend false) 0%nat exMatchingDiff 1 (exState0 false)
  = Ret 1%nat
      {| world := {| mw_kv := ∅; mw_head := 0; mw_rdiffs := []; mw_history := [] |}
                  : @World (memBackend false);
         heap := [DiskLayer (staleDisk (exDisk false));
                  DiskLayer (@newDiskLayer (memBackend false) 99 0 None (∅ : memCache) tt)];
         tree := {[ 100 := 0%nat ]} |}.
Proof.
  apply (@revert_applies (memBackend false) (exState0 false) 0%nat (exDisk false)
           exMatchingDiff 1); [reflexivity|reflexivity|reflexivity|discriminate].
Defined.

(** X18 on [exState1]: the diff layer is merged into the disk layer. *)
Lemma commit_result_witness :
  match @commit memCodec (memBackend false) 0%nat None None 0 1%nat false (exState1 false) with
  | Ret nr st' =>
      nr = length (heap (exState1 false)) ∧ tree st' = tree (exState1 false) ∧
      ∃ dirty', heap st' = <[0%nat := DiskLayer (staleDisk (exDisk false))]>
                             (heap (exState1 false))
                           ++ [DiskLayer (newDiskLayer (df_root (exTombstone false))
                                            (df_diffid (exTombstone false))
                                            (dl_clean (exDisk false)) dirty'
                                            (dl_diskdb (exDisk false)))]
  | Fail _ st' =>
      tree st' = tree (exState1 false) ∧
      heap st' !! 0%nat = Some (DiskLayer (staleDisk (exDisk false)))
  | _ => True
  end.
Proof.
  apply (@commit_result memCodec (memBackend false) (exState1 false) 0%nat (exDisk false)
           1%nat (exTombstone false) None None 0 false); reflexivity.
Defined.

Lemma exState1_wf : wf (heap (exState1 false)).
Proof.
  intros r df Hr. destruct r as [|[|r]]; cbn in Hr; [done| |done].
  injection Hr as <-. left. cbn. lia.
Qed.

(** X19 on [exState1]: the diff layer has no node at path "b". *)
Lemma node_falls_through_witness :
  @snapshot_node memCodec (memBackend false) 1%nat zeroHash "b" 7 0 (exState1 false)
  = @snapshot_node memCodec (memBackend false) (df_parent (exTombstone false))
      zeroHash "b" 7 (0 + 1) (exState1 false).
Proof.
  apply (@node_falls_through memCodec (memBackend false) (exState1 false) 1%nat
           (exTombstone false) zeroHash "b" 7 0);
    [exact exState1_wf|reflexivity|reflexivity|reflexivity].
Defined.

(** X21 on [exState0], after the update with [exInserted]. *)
Lemma add_then_lookup_witness :
  ∃ snap,
    @treeGet memCodec (memBackend false) 101
      (@exec memCodec (memBackend false) (CallUpdate 101 100 exInserted) (exState0 false))
    = Ret (Some snap)
        (@exec memCodec (memBackend false) (CallUpdate 101 100 exInserted) (exState0 false)) ∧
    @snapshot_node memCodec (memBackend false) snap zeroHash "a" 7 0
      (@exec memCodec (memBackend false) (CallUpdate 101 100 exInserted) (exState0 false))
    = if bool_decide (7 = 7)
      then Ret (Some {| mn_hash := 7; mn_size := 1; mn_node := rawNode [Byte.x01] |})
             (@exec memCodec (memBackend false) (CallUpdate 101 100 exInserted)
                (exState0 false))
      else Fail (errUnexpectedNode 7 7 zeroHash "a")
             (@exec memCodec (memBackend false) (CallUpdate 101 100 exInserted)
                (exState0 false)).
Proof.
  apply (@add_then_lookup memCodec (memBackend false) 101 100 exInserted (exState0 false)
           (@exec memCodec (memBackend false) (CallUpdate 101 100 exInserted) (exState0 false))
           zeroHash
           {[ "a" := {| nwp_node := {| mn_hash := 7; mn_size := 1;
                                       mn_node := rawNode [Byte.x01] |};
                        nwp_prev := [] |} ]}
           "a"
           {| nwp_node := {| mn_hash := 7; mn_size := 1; mn_node := rawNode [Byte.x01] |};
              nwp_prev := [] |} 7 0); reflexivity.
Defined.

Lemma exLine_Inv : @Inv (memBackend false) exLine.
Proof.
  apply (@reachable_Inv memCodec (memBackend false) (exState0 false) exLine
           [CallUpdate 101 100 ∅; CallUpdate 102 101 ∅]).
  - by exists (exDisk false).
  - econstructor; [reflexivity|]. econstructor; [reflexivity|constructor].
Qed.

Lemma exLine_chain : chain (heap exLine) 2 2%nat.
Proof. eexists. split; [reflexivity|]. eexists. split; [reflexivity|]. by eexists. Qed.

(** X23 on [exLine]: two diff layers, limit 2. *)
Lemma cap_shallow_witness :
  @cap memCodec (memBackend false) 102 2 None None 0 exLine = Ret tt exLine.
Proof.
  apply (@cap_shallow memCodec (memBackend false) exLine 102 2 None None 0 2%nat 1%nat);
    [reflexivity|exact exLine_chain|cbn; lia].
Defined.

(** X24 on [exLine]. *)
Lemma bottom_is_disk_witness :
  (∀ k r, tree exLine !! k = Some r →
     ∃ d, @bottomFrom (memBackend false) (S (length (heap exLine))) r exLine
          = Ret d exLine ∧ isDisk (heap exLine) d) ∧
  match @bottom (memBackend false) exLine with
  | Ret None st' => st' = exLine ∧ tree exLine = ∅
  | Ret (Some d) st' => st' = exLine ∧ isDisk (heap exLine) d ∧ tree exLine ≠ ∅
  | _ => False
  end.
Proof. apply (@bottom_is_disk (memBackend false) exLine), exLine_Inv. Defined.

(** X25 on [exLine], from its head. *)
Lemma newLayerTree_links_witness :
  ∃ layers, @newLayerTree (memBackend false) 2%nat exLine = Ret layers exLine ∧
    (∀ k r, layers !! k = Some r → ∃ l, heap exLine !! r = Some l ∧ layerRoot l = k) ∧
    (∀ m d l, descends (heap exLine) m 2%nat d → heap exLine !! d = Some l →
       is_Some (layers !! layerRoot l)) ∧
    (∀ dl, heap exLine !! 2%nat = Some (DiskLayer dl) → layers = {[ dl_root dl := 2%nat ]}).
Proof.
  apply (@newLayerTree_links (memBackend false) exLine 2%nat).
  - apply exLine_Inv.
  - change (2 < 3)%nat. lia.
Defined.

(** X26 on [exLine]: two diff layers, limit 1; the head, filed under 102, is
    live afterwards. *)
Lemma cap_deep_no_stale_witness :
  ∃ l, heap (@exec memCodec (memBackend false) (CallCap 102 1 None None 0) exLine) !! 2%nat
       = Some l ∧ layerStale l = false.
Proof.
  apply (@cap_deep_no_stale memCodec (memBackend false) exLine
           (@exec memCodec (memBackend false) (CallCap 102 1 None None 0) exLine)
           102 1 None None 0 2%nat 1%nat
           ltac:(reflexivity) exLine_chain ltac:(lia) ltac:(cbn; lia) ltac:(reflexivity)
           102 2%nat).
  reflexivity.
Defined.

(** X27 on [exLine]: after [persist] of the layer 1, a lookup on it of the
    node at path "a", which it does not hold, is refused. *)
Lemma persist_strands_layer_witness :
  @snapshot_node memCodec (memBackend false) 1%nat zeroHash "a" 7 0 exPersisted
  = Fail errSnapshotStale exPersisted.
Proof.
  apply (@persist_strands_layer memCodec (memBackend false) exLine exPersisted 1%nat
           (@newDiffLayer (memBackend false) 0%nat 101 2 ∅) 3%nat None None 0 false
           zeroHash "a" 7 0); reflexivity.
Defined.
